(** * Advanced argument parser: a shallow embedding and its properties

    The development follows [advanced_arg_parser.py]: the text normaliser
    and the file-name sanitiser ([UnicodeEliminator]), the registry of
    argument definitions ([ArgumentParser.add_argument] and its helpers),
    the merge of default tiers and the call into [argparse] ([parse_args]),
    the validation pass ([_validate_args]), the fuzzy suggestions
    ([_find_similar_args]) and the convenience functions ([create_parser],
    [quick_parse]).

    Python values are modelled by an inductive type, Python strings by lists
    of Unicode code points, dictionaries by association lists in insertion
    order, and process exit or an escaping exception by an explicit outcome
    type.  Parts of the Python standard library the program calls
    ([argparse], [difflib], [str.lower], ...) are modelled next to the
    program; third-party and table-driven collaborators (the optional
    [ftfy], [emoji] and [unidecode] packages, NFKD decomposition, the
    parsing of integer and float literals, float printing, the
    command-line tokenizer) are fields of a [Platform] record the
    definitions are parameterised by. *)

From Stdlib Require Import String Ascii List ZArith NArith Bool Lia Arith.
From Stdlib Require Import Floats.SpecFloat Sorting.Sorted Sorting.Permutation.
Import ListNotations.

Set Implicit Arguments.
Local Open Scope N_scope.

(* ===================================================================== *)
(** * Python strings *)
(* ===================================================================== *)

(** A Python [str] is a sequence of Unicode code points. *)
Definition str := list N.

(** A literal, written as an ASCII Rocq string. *)
Definition py (s : string) : str := map N_of_ascii (list_ascii_of_string s).

Fixpoint str_eqb (a b : str) : bool :=
  match a, b with
  | [], [] => true
  | x :: a', y :: b' => N.eqb x y && str_eqb a' b'
  | _, _ => false
  end.

(** [s.startswith(p)] *)
Fixpoint startswith (p s : str) : bool :=
  match p, s with
  | [], _ => true
  | x :: p', y :: s' => N.eqb x y && startswith p' s'
  | _ :: _, [] => false
  end.

(** [p in s] for strings: [p] occurs as a contiguous substring of [s]. *)
Fixpoint contains (p s : str) : bool :=
  startswith p s ||
  match s with
  | [] => false
  | _ :: s' => contains p s'
  end.

(** [str.lower] and [str.upper] on the ASCII range; code points outside
    ASCII are left as they are. *)
Definition lower_char (c : N) : N :=
  if (65 <=? c) && (c <=? 90) then c + 32 else c.
Definition upper_char (c : N) : N :=
  if (97 <=? c) && (c <=? 122) then c - 32 else c.
Definition lower (s : str) : str := map lower_char s.
Definition upper (s : str) : str := map upper_char s.

(** [s.replace(a, b)] for one-character [a] and [b]. *)
Definition replace_char (a b : N) (s : str) : str :=
  map (fun c => if N.eqb c a then b else c) s.

Definition hyphen : N := 45.
Definition underscore : N := 95.
Definition space : N := 32.

(** [s.lstrip("-")] *)
Fixpoint lstrip_hyphens (s : str) : str :=
  match s with
  | c :: s' => if N.eqb c hyphen then lstrip_hyphens s' else s
  | [] => []
  end.

(** [", ".join(l)] and friends. *)
Fixpoint join (sep : str) (l : list str) : str :=
  match l with
  | [] => []
  | [x] => x
  | x :: l' => x ++ sep ++ join sep l'
  end.

(** Lexicographic comparison of strings by code point, as Python compares
    [str] values. *)
Fixpoint str_compare (a b : str) : comparison :=
  match a, b with
  | [], [] => Eq
  | [], _ :: _ => Lt
  | _ :: _, [] => Gt
  | x :: a', y :: b' =>
      match N.compare x y with
      | Eq => str_compare a' b'
      | c => c
      end
  end.

(* ===================================================================== *)
(** * Python values and types *)
(* ===================================================================== *)

(** The values that reach the parser: what a caller passes as a default,
    what a JSON or YAML file decodes to, what [argparse] stores. *)
#[local] Set Warnings "-register-all".
Inductive value :=
| VNone
| VBool (b : bool)
| VInt (n : Z)
| VFloat (f : spec_float)
| VStr (s : str)
| VList (l : list value)
| VDict (d : list (str * value)).

(** The types the parser handles as [type=] of a definition. *)
Inductive pytype := TInt | TFloat | TBool | TStr | TList | TDict | TNoneType.

Definition pytype_eqb (a b : pytype) : bool :=
  match a, b with
  | TInt, TInt | TFloat, TFloat | TBool, TBool | TStr, TStr
  | TList, TList | TDict, TDict | TNoneType, TNoneType => true
  | _, _ => false
  end.

(** [type(v)] *)
Definition type_of (v : value) : pytype :=
  match v with
  | VNone => TNoneType
  | VBool _ => TBool
  | VInt _ => TInt
  | VFloat _ => TFloat
  | VStr _ => TStr
  | VList _ => TList
  | VDict _ => TDict
  end.

(** [t.__name__] *)
Definition type_name (t : pytype) : str :=
  match t with
  | TInt => py "int"
  | TFloat => py "float"
  | TBool => py "bool"
  | TStr => py "str"
  | TList => py "list"
  | TDict => py "dict"
  | TNoneType => py "NoneType"
  end.

(** [isinstance(v, t)]; [bool] is a subclass of [int]. *)
Definition isinstance (v : value) (t : pytype) : bool :=
  match v, t with
  | VBool _, TInt => true
  | _, _ => pytype_eqb (type_of v) t
  end.

(** Truthiness, [bool(v)]. *)
Definition truthy (v : value) : bool :=
  match v with
  | VNone => false
  | VBool b => b
  | VInt n => negb (Z.eqb n 0)
  | VFloat (S754_zero _) => false
  | VFloat _ => true
  | VStr s => match s with [] => false | _ => true end
  | VList l => match l with [] => false | _ => true end
  | VDict d => match d with [] => false | _ => true end
  end.

(** The exceptions that occur: those a constructor call can raise, the
    [KeyError] of a format string, and [argparse.ArgumentError]. *)
Inductive exn :=
  ValueError | TypeError | OverflowError | KeyError | ArgumentError.

(* ===================================================================== *)
(** * The platform: collaborators outside the program *)
(* ===================================================================== *)

(** What the command-line tokenizer of [argparse] reports for an argument
    vector: the option occurrences in order, each with the option string of
    the action it resolved to and its argument if one was given, or the
    exit status with which it ended the process (2 for an unrecognised or
    ambiguous argument, 0 after printing help), or the exception that
    escaped from it (formatting the help or usage text with a malformed
    [%] specifier in a help string raises [ValueError], [TypeError] or
    [KeyError]). *)
Inductive tokens :=
| TokOk (occ : list (str * option str))
| TokExit (code : Z)
| TokRaise (e : exn).

(** What the tokenizer knows of a registered option: its option string,
    whether it takes an argument, and its help string. *)
Record option_spec := {
  spec_option_string : str;
  spec_takes_argument : bool;
  spec_help : option str
}.

Record Platform := {
  (** [ftfy.fix_text], [None] when the import of [ftfy] fails *)
  ftfy_fix_text : option (str -> str);
  (** [emoji.replace_emoji(_, replace="")], [None] when [emoji] is missing *)
  emoji_replace_emoji : option (str -> str);
  (** [unidecode.unidecode], [None] when [unidecode] is missing *)
  unidecode_unidecode : option (str -> str);
  (** [unicodedata.normalize("NFKD", _)] *)
  nfkd : str -> str;
  (** [int(s)] on a string, base 10: [None] is [ValueError] (no integer
      literal, or more digits than the interpreter converts) *)
  int_of_str : str -> option Z;
  (** [float(s)] on a string: [None] is [ValueError] *)
  float_of_str : str -> option spec_float;
  (** [repr] of a float *)
  float_repr : spec_float -> str;
  (** [repr] of a list or a dict *)
  container_repr : value -> str;
  (** [dict(l)] on a non-empty list: the dictionary, or the [TypeError] or
      [ValueError] it raises *)
  dict_of_list : list value -> value + exn;
  (** the contribution of a config file to the defaults: the pairs with a
      string key that [defaults.update(config)] applies, in order.  These
      are the pairs of a decoded mapping; the pairs before the offending
      element when the file decodes to a sequence and [update] raises
      midway (the exception is swallowed, the pairs stay); [None] when the
      file is missing, has another suffix than .json/.yaml/.yml or fails
      to decode *)
  config_mapping : str -> option (list (str * value));
  (** the tokenizer of [argparse]: argument vector to occurrences, given
      the registered options *)
  tokenize : list option_spec -> list str -> tokens
}.

(* ===================================================================== *)
(** * UnicodeEliminator *)
(* ===================================================================== *)

Definition in_range (lo hi c : N) : bool := (lo <=? c) && (c <=? hi).

(** The character class of [emoji_pattern]. *)
Definition emoji_class (c : N) : bool :=
  in_range 0x1f600 0x1f64f c ||
  in_range 0x1f300 0x1f5ff c ||
  in_range 0x1f680 0x1f6ff c ||
  in_range 0x1f1e0 0x1f1ff c ||
  in_range 0x2700 0x27bf c ||
  in_range 0x1f926 0x1f937 c ||
  in_range 0x10000 0x10ffff c ||
  in_range 0x2640 0x2642 c ||
  in_range 0x2600 0x2b55 c ||
  N.eqb c 0x200d ||
  N.eqb c 0x23cf ||
  N.eqb c 0x23e9 ||
  N.eqb c 0x231a ||
  N.eqb c 0xfe0f ||
  N.eqb c 0x3030.

(** [emoji_pattern.sub("", text)]: every character of the class goes. *)
Definition remove_emoji (s : str) : str :=
  filter (fun c => negb (emoji_class c)) s.

Definition is_ascii (c : N) : bool := c <? 128.

(** [s.encode("ascii", "ignore").decode("ascii")] *)
Definition encode_ascii_ignore (s : str) : str := filter is_ascii s.

(** Whitespace as [\s] in a [str] pattern and [str.strip] see it. *)
Definition is_space (c : N) : bool :=
  in_range 0x09 0x0d c ||
  in_range 0x1c 0x20 c ||
  N.eqb c 0x85 ||
  N.eqb c 0xa0 ||
  N.eqb c 0x1680 ||
  in_range 0x2000 0x200a c ||
  N.eqb c 0x2028 ||
  N.eqb c 0x2029 ||
  N.eqb c 0x202f ||
  N.eqb c 0x205f ||
  N.eqb c 0x3000.

(** [re.sub(r"\s+", " ", text)]: [in_run] tells that the previous character
    was whitespace, whose run has already been replaced. *)
Fixpoint collapse_ws (in_run : bool) (s : str) : str :=
  match s with
  | [] => []
  | c :: s' =>
      if is_space c
      then if in_run then collapse_ws true s' else space :: collapse_ws true s'
      else c :: collapse_ws false s'
  end.

Fixpoint lstrip (s : str) : str :=
  match s with
  | c :: s' => if is_space c then lstrip s' else s
  | [] => []
  end.

Definition rstrip (s : str) : str := rev (lstrip (rev s)).

(** [s.strip()] *)
Definition strip (s : str) : str := rstrip (lstrip s).

(** The character class of the first pattern of [sanitize_filename]: the
    characters no file name may hold, less-than, greater-than, colon,
    double quote, slash, backslash, bar, question mark and star. *)
Definition reserved_class (c : N) : bool :=
  existsb (N.eqb c) [60; 62; 58; 34; 47; 92; 124; 63; 42].

(** The class [a-zA-Z0-9._-], whose complement the second pattern of
    [sanitize_filename] replaces. *)
Definition filename_class (c : N) : bool :=
  in_range 97 122 c || in_range 65 90 c || in_range 48 57 c
  || N.eqb c 46 || N.eqb c underscore || N.eqb c hyphen.

(** [re.sub(r"_+", "_", text)]: [in_run] tells that the previous character
    was an underscore, whose run has already been replaced. *)
Fixpoint collapse_underscores (in_run : bool) (s : str) : str :=
  match s with
  | [] => []
  | c :: s' =>
      if N.eqb c underscore
      then if in_run then collapse_underscores true s'
           else underscore :: collapse_underscores true s'
      else c :: collapse_underscores false s'
  end.

Fixpoint lstrip_underscores (s : str) : str :=
  match s with
  | c :: s' => if N.eqb c underscore then lstrip_underscores s' else s
  | [] => []
  end.

(** [s.strip("_")] *)
Definition strip_underscores (s : str) : str :=
  rev (lstrip_underscores (rev (lstrip_underscores s))).

Section Eliminator.
Variable P : Platform.

(** [UnicodeEliminator.eliminate_unicode] on a string, for an instance with
    the given [aggressive] and [ascii_only] attributes. *)
Definition eliminate_unicode (aggressive ascii_only : bool) (text : str)
  : str :=
  (* Step 1: fix common encoding issues *)
  let text := match ftfy_fix_text P with
              | Some fix_text => fix_text text
              | None => text
              end in
  (* Step 2: remove emoji *)
  let text := match emoji_replace_emoji P with
              | Some replace_emoji => replace_emoji text
              | None => remove_emoji text
              end in
  (* Step 3: convert to ASCII *)
  let text := match unidecode_unidecode P, ascii_only with
              | Some unidecode, true => unidecode text
              | _, _ =>
                  if aggressive
                  then encode_ascii_ignore (nfkd P text)
                  else text
              end in
  (* Step 4: clean up extra whitespace *)
  strip (collapse_ws false text).

(** [UnicodeEliminator.sanitize_filename] *)
Definition sanitize_filename (aggressive ascii_only : bool) (filename : str)
  : str :=
  let clean_name := eliminate_unicode aggressive ascii_only filename in
  let clean_name := filter (fun c => negb (reserved_class c)) clean_name in
  let clean_name :=
    map (fun c => if filename_class c then c else underscore) clean_name in
  let clean_name :=
    strip_underscores (collapse_underscores false clean_name) in
  match clean_name with
  | [] => py "file"
  | _ => clean_name
  end.

(** The module-level instance is [UnicodeEliminator(aggressive=True,
    ascii_only=True)]; [eliminate_unicode_maximum] on a string. *)
Definition eliminate_unicode_maximum_str (text : str) : str :=
  eliminate_unicode true true text.

(** [sanitize_filename_maximum] *)
Definition sanitize_filename_maximum (filename : str) : str :=
  sanitize_filename true true filename.

End Eliminator.

(* ===================================================================== *)
(** * Constructor calls: [int(v)], [float(v)], [bool(v)], [str(v)], ... *)
(* ===================================================================== *)

Local Open Scope Z_scope.

Definition is_digit (c : N) : bool := in_range 48 57 c.

(** The digits of an integer literal after the sign: decimal digits with
    single underscores between them.  [prev_digit] tells that the previous
    character was a digit. *)
Fixpoint digits_value (acc : Z) (prev_digit : bool) (s : str) : option Z :=
  match s with
  | [] => if prev_digit then Some acc else None
  | c :: s' =>
      if is_digit c
      then digits_value (10 * acc + (Z.of_N c - 48)) true s'
      else if N.eqb c underscore && prev_digit
           then digits_value acc false s'
           else None
  end.

Fixpoint uint_digits (d : Decimal.uint) : str :=
  match d with
  | Decimal.Nil => []
  | Decimal.D0 d' => 48%N :: uint_digits d'
  | Decimal.D1 d' => 49%N :: uint_digits d'
  | Decimal.D2 d' => 50%N :: uint_digits d'
  | Decimal.D3 d' => 51%N :: uint_digits d'
  | Decimal.D4 d' => 52%N :: uint_digits d'
  | Decimal.D5 d' => 53%N :: uint_digits d'
  | Decimal.D6 d' => 54%N :: uint_digits d'
  | Decimal.D7 d' => 55%N :: uint_digits d'
  | Decimal.D8 d' => 56%N :: uint_digits d'
  | Decimal.D9 d' => 57%N :: uint_digits d'
  end.

(** [str(n)] of an integer. *)
Definition str_of_int (n : Z) : str :=
  match n with
  | Zneg p => hyphen :: uint_digits (Pos.to_uint p)
  | _ => uint_digits (N.to_uint (Z.to_N n))
  end.

(** [float(n)] of an integer: the nearest double, [OverflowError] beyond
    the range. *)
Definition float_of_int (n : Z) : spec_float + exn :=
  match binary_normalize 53 1024 n 0 false with
  | S754_infinity _ => inr OverflowError
  | f => inl f
  end.

(** [int(f)] of a float: truncation towards zero. *)
Definition int_of_float (f : spec_float) : Z + exn :=
  match f with
  | S754_zero _ => inl 0
  | S754_infinity _ => inr OverflowError
  | S754_nan => inr ValueError
  | S754_finite s m e =>
      let a := if 0 <=? e then Zpos m * 2 ^ e else Zpos m / 2 ^ (- e) in
      inl (if s then - a else a)
  end.

Section Calls.
Variable P : Platform.

(** [str(v)] *)
Definition str_of_value (v : value) : str :=
  match v with
  | VNone => py "None"
  | VBool true => py "True"
  | VBool false => py "False"
  | VInt n => str_of_int n
  | VFloat f => float_repr P f
  | VStr s => s
  | VList _ | VDict _ => container_repr P v
  end.

(** [t(v)]: the type [t] called on one argument.  It returns, or raises
    [ValueError], [TypeError] or [OverflowError]. *)
Definition call_type (t : pytype) (v : value) : value + exn :=
  match t with
  | TInt =>
      match v with
      | VInt n => inl (VInt n)
      | VBool b => inl (VInt (Z.b2z b))
      | VFloat f =>
          match int_of_float f with inl n => inl (VInt n) | inr e => inr e end
      | VStr s =>
          match int_of_str P s with
          | Some n => inl (VInt n)
          | None => inr ValueError
          end
      | VNone | VList _ | VDict _ => inr TypeError
      end
  | TFloat =>
      match v with
      | VInt n =>
          match float_of_int n with
          | inl f => inl (VFloat f)
          | inr e => inr e
          end
      | VBool b =>
          match float_of_int (Z.b2z b) with
          | inl f => inl (VFloat f)
          | inr e => inr e
          end
      | VFloat f => inl (VFloat f)
      | VStr s =>
          match float_of_str P s with
          | Some f => inl (VFloat f)
          | None => inr ValueError
          end
      | VNone | VList _ | VDict _ => inr TypeError
      end
  | TBool => inl (VBool (truthy v))
  | TStr => inl (VStr (str_of_value v))
  | TList =>
      match v with
      | VList l => inl (VList l)
      | VStr s => inl (VList (map (fun c => VStr [c]) s))
      | VDict d => inl (VList (map (fun kv => VStr (fst kv)) d))
      | VNone | VBool _ | VInt _ | VFloat _ => inr TypeError
      end
  | TDict =>
      match v with
      | VDict d => inl (VDict d)
      | VList [] => inl (VDict [])
      | VList l =>
          (* [dict] raises [TypeError] or [ValueError] *)
          match dict_of_list P l with
          | inl d => inl d
          | inr TypeError => inr TypeError
          | inr _ => inr ValueError
          end
      | VStr [] => inl (VDict [])
      | VStr _ => inr ValueError
      | VNone | VBool _ | VInt _ | VFloat _ => inr TypeError
      end
  | TNoneType => inr TypeError
  end.

End Calls.

(* ===================================================================== *)
(** * Dictionaries in insertion order *)
(* ===================================================================== *)

Section Dict.
Variable V : Type.

(** [d.get(k)] *)
Fixpoint dict_get (k : str) (d : list (str * V)) : option V :=
  match d with
  | [] => None
  | (k', v) :: d' => if str_eqb k k' then Some v else dict_get k d'
  end.

(** [d[k] = v]: an existing key keeps its place, a new one goes last. *)
Fixpoint dict_set (k : str) (v : V) (d : list (str * V)) : list (str * V) :=
  match d with
  | [] => [(k, v)]
  | (k', v') :: d' =>
      if str_eqb k k' then (k, v) :: d' else (k', v') :: dict_set k v d'
  end.

(** [d.update(e)] *)
Definition dict_update (d e : list (str * V)) : list (str * V) :=
  fold_left (fun acc kv => dict_set (fst kv) (snd kv) acc) e d.

(** [k in d] *)
Definition dict_mem (k : str) (d : list (str * V)) : bool :=
  match dict_get k d with Some _ => true | None => false end.

End Dict.

(* ===================================================================== *)
(** * difflib: [SequenceMatcher] and [get_close_matches] *)
(* ===================================================================== *)

Module Difflib.
Local Open Scope nat_scope.

Definition count (x : N) (s : str) : nat := length (filter (N.eqb x) s).

(** [bpopular] of [__chain_b], with [autojunk] on and no [isjunk]: in a
    second sequence of 200 elements or more, the elements that occur more
    often than [n // 100 + 1] times are left out of [b2j]. *)
Definition popular (b : str) (x : N) : bool :=
  (200 <=? length b) && (length b / 100 + 1 <? count x b).

(** [s[lo:hi]] *)
Definition slice (s : str) (lo hi : nat) : str := firstn (hi - lo) (skipn lo s).

Definition block := (nat * nat * nat)%type.

(** The inner loop of [find_longest_match] for one [i]: [x] is [a[i]],
    [bs] is [b[j:bhi]], [prev] is [j2len] of the previous row from [j] on
    and [diag] is its entry at [j-1].  Returns [newj2len] from [j] on and
    the best block so far. *)
Fixpoint row (pop : N -> bool) (x : N) (i : nat) (bs : str) (j : nat)
  (prev : list nat) (diag : nat) (best : block) : list nat * block :=
  match bs with
  | [] => ([], best)
  | y :: bs' =>
      let k := if N.eqb x y && negb (pop y) then S diag else 0 in
      let best' :=
        let '(_, _, bestsize) := best in
        if (0 <? k) && (bestsize <? k)
        then (i + 1 - k, j + 1 - k, k)
        else best in
      let '(r, best'') := row pop x i bs' (S j) (tl prev) (hd 0 prev) best' in
      (k :: r, best'')
  end.

(** The outer loop, over [a[i:ahi]]. *)
Fixpoint rows (pop : N -> bool) (az : str) (i : nat) (bs : str) (blo : nat)
  (prev : list nat) (best : block) : block :=
  match az with
  | [] => best
  | x :: az' =>
      let '(r, best') := row pop x i bs blo prev 0 best in
      rows pop az' (S i) bs blo r best'
  end.

(** The first [while]: extend the block to the left while the elements
    before it agree; [n] bounds the number of iterations by [besti - alo]. *)
Fixpoint extend_left (a b : str) (alo blo : nat) (n : nat) (best : block)
  : block :=
  match n with
  | 0 => best
  | S n' =>
      let '(besti, bestj, bestsize) := best in
      if (alo <? besti) && (blo <? bestj)
         && N.eqb (nth (besti - 1) a 0%N) (nth (bestj - 1) b 0%N)
      then extend_left a b alo blo n' (besti - 1, bestj - 1, bestsize + 1)
      else best
  end.

(** The second [while]: extend to the right; [n] is
    [ahi - (besti + bestsize)]. *)
Fixpoint extend_right (a b : str) (ahi bhi : nat) (n : nat) (best : block)
  : block :=
  match n with
  | 0 => best
  | S n' =>
      let '(besti, bestj, bestsize) := best in
      if (besti + bestsize <? ahi) && (bestj + bestsize <? bhi)
         && N.eqb (nth (besti + bestsize) a 0%N) (nth (bestj + bestsize) b 0%N)
      then extend_right a b ahi bhi n' (besti, bestj, bestsize + 1)
      else best
  end.

(** [SequenceMatcher.find_longest_match(alo, ahi, blo, bhi)] with no junk:
    the two last loops, which extend by junk elements, do nothing. *)
Definition find_longest_match (a b : str) (alo ahi blo bhi : nat) : block :=
  let best :=
    rows (popular b) (slice a alo ahi) alo (slice b blo bhi) blo []
         (alo, blo, 0) in
  let best := extend_left a b alo blo (fst (fst best) - alo) best in
  let '(besti, _, bestsize) := best in
  extend_right a b ahi bhi (ahi - (besti + bestsize)) best.

(** The sum of the sizes of the blocks [get_matching_blocks] collects: the
    longest match of the range, then the ranges left and right of it.
    [fuel] bounds the depth of the work list by the length of the range of
    [a]. *)
Fixpoint matches_in (fuel : nat) (a b : str) (alo ahi blo bhi : nat) : nat :=
  match fuel with
  | 0 => 0
  | S fuel' =>
      let '(i, j, k) := find_longest_match a b alo ahi blo bhi in
      if k =? 0 then 0
      else
        k
        + (if (alo <? i) && (blo <? j)
           then matches_in fuel' a b alo i blo j else 0)
        + (if (i + k <? ahi) && (j + k <? bhi)
           then matches_in fuel' a b (i + k) ahi (j + k) bhi else 0)
  end.

Definition matches (a b : str) : nat :=
  matches_in (length a) a b 0 (length a) 0 (length b).

(** A ratio [2.0 * matches / length] is kept as the fraction
    [(2 * matches, length)], and [1.0] for two empty sequences as [(1, 1)];
    comparisons are made on the fractions.  The float division is correctly
    rounded, hence monotone, and for lengths below 2^26 two different
    fractions, or a fraction and 0.6, are never rounded to the same float:
    the comparisons on floats and on fractions agree. *)
Definition fraction := (nat * nat)%type.

Definition _calculate_ratio (m length : nat) : fraction :=
  if length =? 0 then (1, 1) else (2 * m, length).

Definition ratio (a b : str) : fraction :=
  _calculate_ratio (matches a b) (length a + length b).

Fixpoint remove_one (x : N) (s : str) : str :=
  match s with
  | [] => []
  | y :: s' => if N.eqb x y then s' else y :: remove_one x s'
  end.

(** The loop of [quick_ratio]: [avail] holds what is left of [b] as a
    multiset. *)
Fixpoint quick_matches (a avail : str) : nat :=
  match a with
  | [] => 0
  | x :: a' =>
      if 0 <? count x avail
      then S (quick_matches a' (remove_one x avail))
      else quick_matches a' avail
  end.

Definition quick_ratio (a b : str) : fraction :=
  _calculate_ratio (quick_matches a b) (length a + length b).

Definition real_quick_ratio (a b : str) : fraction :=
  _calculate_ratio (Nat.min (length a) (length b)) (length a + length b).

(** [r >= 0.6] *)
Definition ge_cutoff (r : fraction) : bool := 6 * snd r <=? 10 * fst r.

Definition fraction_compare (r s : fraction) : comparison :=
  Nat.compare (fst r * snd s) (fst s * snd r).

(** Comparison of the tuples [(score, x)]. *)
Definition scored_compare (p q : fraction * str) : comparison :=
  match fraction_compare (fst p) (fst q) with
  | Eq => str_compare (snd p) (snd q)
  | c => c
  end.

Definition scored_ltb (p q : fraction * str) : bool :=
  match scored_compare p q with Lt => true | _ => false end.

(** [sorted(l, reverse=True)] on scored candidates. *)
Fixpoint insert_desc (p : fraction * str) (l : list (fraction * str))
  : list (fraction * str) :=
  match l with
  | [] => [p]
  | q :: l' => if scored_ltb p q then q :: insert_desc p l' else p :: l
  end.

Fixpoint sort_desc (l : list (fraction * str)) : list (fraction * str) :=
  match l with
  | [] => []
  | p :: l' => insert_desc p (sort_desc l')
  end.

(** [heapq.nlargest(n, l)] *)
Definition nlargest (n : nat) (l : list (fraction * str))
  : list (fraction * str) :=
  firstn n (sort_desc l).

(** The test of [get_close_matches] on a possibility [x]: the matcher has
    [x] as first and [word] as second sequence. *)
Definition close_enough (word x : str) : bool :=
  ge_cutoff (real_quick_ratio x word)
  && ge_cutoff (quick_ratio x word)
  && ge_cutoff (ratio x word).

(** [get_close_matches(word, possibilities, n=3, cutoff=0.6)] *)
Definition get_close_matches (word : str) (possibilities : list str)
  : list str :=
  let result :=
    map (fun x => (ratio x word, x))
        (filter (close_enough word) possibilities) in
  map snd (nlargest 3 result).

End Difflib.

(* ===================================================================== *)
(** * argparse: optional arguments with [store] and [store_true] actions *)
(* ===================================================================== *)

(** [argparse.Namespace]: attribute names to values. *)
Definition namespace := list (str * value).

(** [getattr(ns, name, None)] and [setattr(ns, name, v)] *)
Definition getattr (ns : namespace) (name : str) : value :=
  match dict_get name ns with Some v => v | None => VNone end.
Definition setattr (ns : namespace) (name : str) (v : value) : namespace :=
  dict_set name v ns.

Module Argparse.

(** [Store None] is a [store] action without [type=]: the argument string
    is kept as it is. *)
Inductive action_kind := Store (ty : option pytype) | StoreTrue.

Record action := {
  option_string : str;
  dest : str;
  kind : action_kind;
  default : value;
  required : bool;
  help : option str
}.

(** The attribute name [add_argument] derives from a long option string. *)
Definition dest_of (option_string : str) : str :=
  replace_char hyphen underscore (lstrip_hyphens option_string).

Definition takes_argument (a : action) : bool :=
  match kind a with Store _ => true | StoreTrue => false end.

Definition spec_of (a : action) : option_spec :=
  {| spec_option_string := option_string a;
     spec_takes_argument := takes_argument a;
     spec_help := help a |}.

(** A new parser holds the help action. *)
Definition initial_option_strings : list str := [py "-h"; py "--help"].

(** [parser.add_argument(option_string, ...)] on a parser that holds the
    option strings [registered]: [ValueError] for an option string of
    prefix characters only, from which no attribute name can be derived,
    [ArgumentError] for an option string that is registered already. *)
Definition add_argument (registered : list str) (option_string : str)
  : list str + exn :=
  match lstrip_hyphens option_string with
  | [] => inr ValueError
  | _ =>
      if existsb (str_eqb option_string) registered
      then inr ArgumentError
      else inl (registered ++ [option_string])
  end.

(** The calls of [add_argument] for the option strings in order: the
    exception of the first call that raises, if any. *)
Fixpoint add_arguments (registered : list str) (option_strings : list str)
  : option exn :=
  match option_strings with
  | [] => None
  | o :: rest =>
      match add_argument registered o with
      | inl registered' => add_arguments registered' rest
      | inr e => Some e
      end
  end.

(** Why [parser.error] ended the process (always with status 2). *)
Inductive error :=
| InvalidValue (opt arg : str)
| ExpectedOneArgument (opt : str)
| IgnoredExplicitArgument (opt arg : str)
| UnrecognizedArgument (opt : str)
| MissingRequired (names : list str).

Inductive result :=
| Parsed (ns : namespace)
| Exit (code : Z) (why : option error)
| Escaped (e : exn).

Fixpoint find_action (opt : str) (acts : list action) : option action :=
  match acts with
  | [] => None
  | a :: acts' =>
      if str_eqb opt (option_string a) then Some a else find_action opt acts'
  end.

(** The parsing state: the namespace, for each attribute the option string
    of the action whose default object it still holds, and the option
    strings of the actions seen on the command line. *)
Record state := {
  st_ns : namespace;
  st_owner : list (str * str);
  st_seen : list str
}.

Fixpoint remove_key (k : str) (d : list (str * str)) : list (str * str) :=
  match d with
  | [] => []
  | (k', v) :: d' =>
      if str_eqb k k' then remove_key k d' else (k', v) :: remove_key k d'
  end.

(** The defaults go into the namespace first; of several actions with one
    attribute the first wins. *)
Fixpoint init_defaults (acts : list action) (st : state) : state :=
  match acts with
  | [] => st
  | a :: acts' =>
      if dict_mem (dest a) (st_ns st)
      then init_defaults acts' st
      else init_defaults acts'
             {| st_ns := setattr (st_ns st) (dest a) (default a);
                st_owner := dict_set (dest a) (option_string a) (st_owner st);
                st_seen := st_seen st |}
  end.

Section Parse.
Variable P : Platform.

(** [_get_value(action, arg_string)] *)
Definition get_value (a : action) (arg : str) : value + exn :=
  match kind a with
  | Store (Some t) => call_type P t (VStr arg)
  | _ => inl (VStr arg)
  end.

Definition store (st : state) (a : action) (v : value) : state :=
  {| st_ns := setattr (st_ns st) (dest a) v;
     st_owner := remove_key (dest a) (st_owner st);
     st_seen := option_string a :: st_seen st |}.

(** The occurrences are taken from left to right. *)
Fixpoint consume (acts : list action) (occ : list (str * option str))
  (st : state) : state + result :=
  match occ with
  | [] => inl st
  | (opt, arg) :: occ' =>
      match find_action opt acts with
      | None => inr (Exit 2 (Some (UnrecognizedArgument opt)))
      | Some a =>
          match kind a, arg with
          | Store _, Some s =>
              match get_value a s with
              | inl v => consume acts occ' (store st a v)
              | inr OverflowError => inr (Escaped OverflowError)
              | inr _ =>
                  (* [ValueError] or [TypeError]: [parser.error] *)
                  inr (Exit 2 (Some (InvalidValue opt s)))
              end
          | Store _, None => inr (Exit 2 (Some (ExpectedOneArgument opt)))
          | StoreTrue, None => consume acts occ' (store st a (VBool true))
          | StoreTrue, Some s =>
              inr (Exit 2 (Some (IgnoredExplicitArgument opt s)))
          end
      end
  end.

Definition seen (st : state) (a : action) : bool :=
  existsb (str_eqb (option_string a)) (st_seen st).

(** After the command line: an action that was not seen is recorded as
    missing when required; otherwise its default, when it is a string and
    the namespace still holds that very object, is converted like an
    argument string. *)
Fixpoint finish (acts : list action) (st : state) (missing : list str)
  : result :=
  match acts with
  | [] =>
      match missing with
      | [] => Parsed (st_ns st)
      | _ => Exit 2 (Some (MissingRequired missing))
      end
  | a :: acts' =>
      if seen st a then finish acts' st missing
      else if required a
      then finish acts' st (missing ++ [option_string a])
      else
        match default a, dict_get (dest a) (st_owner st) with
        | VStr s, Some owner =>
            if str_eqb owner (option_string a)
            then
              match get_value a s with
              | inl v =>
                  finish acts'
                    {| st_ns := setattr (st_ns st) (dest a) v;
                       st_owner := st_owner st;
                       st_seen := st_seen st |} missing
              | inr OverflowError => Escaped OverflowError
              | inr _ =>
                  (* [ValueError] or [TypeError]: [parser.error] *)
                  Exit 2 (Some (InvalidValue (option_string a) s))
              end
            else finish acts' st missing
        | _, _ => finish acts' st missing
        end
  end.

(** [parser.parse_args(args)] for a parser with the actions [acts]. *)
Definition parse_args (acts : list action) (args : list str) : result :=
  match tokenize P (map spec_of acts) args with
  | TokExit code => Exit code None
  | TokRaise e => Escaped e
  | TokOk occ =>
      let st0 :=
        init_defaults acts {| st_ns := []; st_owner := []; st_seen := [] |} in
      match consume acts occ st0 with
      | inr r => r
      | inl st => finish acts st []
      end
  end.

End Parse.
End Argparse.

(* ===================================================================== *)
(** * ArgumentParser *)
(* ===================================================================== *)

(** A validator callback: it returns ([None]) or raises an exception whose
    text is the message ([Some msg]). *)
Definition validator := value -> option str.

(** The keyword arguments of [add_argument], which are also what the
    registry stores for a name.  A field is [None] when the key is absent;
    an explicit [default=None] is [Some VNone]. *)
Record kwargs := {
  kw_type : option pytype;
  kw_default : option value;
  kw_required : option bool;
  kw_help : option str;
  kw_env_var : option str;
  kw_config_key : option str;
  kw_validator : option validator
}.

(** [kwargs.get("default")] *)
Definition get_default (kw : kwargs) : value :=
  match kw_default kw with Some v => v | None => VNone end.

(** The parser object; no subcommands are registered. *)
Record ArgumentParser := {
  program_name : str;
  args_definitions : list (str * kwargs);
  config_files : list str;
  env_prefix : str;
  unicode_safe : bool
}.

(** [ArgumentParser(program_name, unicode_safe=...)] *)
Definition new_parser (name : str) (safe : bool) : ArgumentParser :=
  {| program_name := name;
     args_definitions := [];
     config_files := [];
     env_prefix := replace_char hyphen underscore (upper name);
     unicode_safe := safe |}.

Definition add_config_file (p : ArgumentParser) (path : str)
  : ArgumentParser :=
  {| program_name := program_name p;
     args_definitions := args_definitions p;
     config_files := config_files p ++ [path];
     env_prefix := env_prefix p;
     unicode_safe := unicode_safe p |}.

Definition set_env_prefix (p : ArgumentParser) (prefix : str)
  : ArgumentParser :=
  {| program_name := program_name p;
     args_definitions := args_definitions p;
     config_files := config_files p;
     env_prefix := prefix;
     unicode_safe := unicode_safe p |}.

(** [any(word in name for word in words)] *)
Definition any_in (words : list str) (name : str) : bool :=
  existsb (fun word => contains word name) words.

(** [_infer_type(name, default_value)] *)
Definition _infer_type (name : str) (default_value : value) : pytype :=
  match default_value with
  | VNone =>
      let name_lower := lower name in
      if any_in [py "count"; py "number"; py "size"; py "port"; py "timeout"]
                name_lower
      then TInt
      else if any_in [py "rate"; py "factor"; py "ratio"] name_lower
      then TFloat
      else if any_in [py "enable"; py "disable"; py "verbose"; py "quiet";
                      py "debug"] name_lower
      then TBool
      else if any_in [py "file"; py "path"; py "dir"; py "output"; py "input"]
                     name_lower
      then TStr
      else TStr
  | _ => type_of default_value
  end.

(** [_get_smart_default(arg_type)] *)
Definition _get_smart_default (arg_type : pytype) : value :=
  match arg_type with
  | TInt => VInt 0
  | TFloat => VFloat (S754_zero false)
  | TBool => VBool false
  | TStr => VStr []
  | TList => VList []
  | TDict => VDict []
  | TNoneType => VNone
  end.

Definition required_patterns : list str :=
  [py "input"; py "file"; py "source"; py "target"; py "destination";
   py "host"; py "server"; py "database"; py "username"; py "password"].

(** [_is_required_arg(name)] *)
Definition _is_required_arg (name : str) : bool :=
  any_in required_patterns (lower name).

Definition is_upper (c : N) : bool := in_range 65 90 c.
Definition is_lower (c : N) : bool := in_range 97 122 c.

(** [str.title] on the ASCII range: a letter after a letter is lowered, any
    other letter is raised. *)
Fixpoint title (after_letter : bool) (s : str) : str :=
  match s with
  | [] => []
  | c :: s' =>
      if is_upper c || is_lower c
      then (if after_letter then lower_char c else upper_char c)
             :: title true s'
      else c :: title false s'
  end.

(** How a call ends: it returns, the process exits, or an exception that
    nothing catches escapes. *)
Inductive exit_cause :=
| ValidationErrors (errors : list str)
| ArgparseExit (why : option Argparse.error).

Inductive outcome (A : Type) :=
| Returned (a : A)
| SystemExit (code : Z) (cause : exit_cause) (stdout : list str)
| Raised (e : exn).
Arguments Returned {A} a.
Arguments SystemExit {A} code cause stdout.
Arguments Raised {A} e.

Section Parser.
Variable P : Platform.

(** [eliminate_unicode_maximum]: strings are normalised, other values
    pass. *)
Definition eliminate_unicode_maximum (v : value) : value :=
  match v with
  | VStr s => VStr (eliminate_unicode_maximum_str P s)
  | _ => v
  end.

(** [_generate_help_text(name, kwargs)] *)
Definition _generate_help_text (name : str) (kw : kwargs) : str :=
  let arg_type := match kw_type kw with Some t => t | None => TStr end in
  let default := get_default kw in
  let base_name := title false (replace_char hyphen space (skipn 2 name)) in
  match arg_type with
  | TBool => py "Enable or disable " ++ lower base_name
  | TInt => py "Set " ++ lower base_name ++ py " (integer)"
  | TFloat => py "Set " ++ lower base_name ++ py " (decimal)"
  | _ =>
      let help_text := py "Specify " ++ lower base_name in
      if truthy default
      then help_text ++ py " (default: " ++ str_of_value P default ++ py ")"
      else help_text
  end.

(** [add_argument(name, **kwargs)] *)
Definition add_argument (p : ArgumentParser) (name : str) (kw : kwargs)
  : ArgumentParser :=
  (* Normalize name *)
  let name := if startswith (py "--") name then name else py "--" ++ name in
  (* Smart type detection *)
  let ty := match kw_type kw with
            | Some t => t
            | None => _infer_type name (get_default kw)
            end in
  (* Smart defaults *)
  let default := match kw_default kw with
                 | Some v => Some v
                 | None =>
                     if pytype_eqb ty TBool then None
                     else Some (_get_smart_default ty)
                 end in
  (* Smart required detection *)
  let required := match kw_required kw with
                  | Some r => r
                  | None => _is_required_arg name
                  end in
  let kw1 := {| kw_type := Some ty; kw_default := default;
                kw_required := Some required; kw_help := kw_help kw;
                kw_env_var := kw_env_var kw;
                kw_config_key := kw_config_key kw;
                kw_validator := kw_validator kw |} in
  (* Smart help *)
  let help := match kw_help kw with
              | Some h => h
              | None => _generate_help_text name kw1
              end in
  (* Store env var mapping *)
  let env_var :=
    match kw_env_var kw with
    | Some e => e
    | None =>
        env_prefix p ++ py "_"
        ++ replace_char hyphen underscore (upper (skipn 2 name))
    end in
  let stored := {| kw_type := Some ty; kw_default := default;
                   kw_required := Some required; kw_help := Some help;
                   kw_env_var := Some env_var;
                   kw_config_key := kw_config_key kw;
                   kw_validator := kw_validator kw |} in
  {| program_name := program_name p;
     args_definitions := dict_set name stored (args_definitions p);
     config_files := config_files p;
     env_prefix := env_prefix p;
     unicode_safe := unicode_safe p |}.

(** [_load_config_defaults()]: every file that decodes updates the
    defaults, the others are skipped. *)
Definition _load_config_defaults (p : ArgumentParser) : list (str * value) :=
  fold_left
    (fun defaults config_file =>
       match config_mapping P config_file with
       | Some config => dict_update defaults config
       | None => defaults
       end)
    (config_files p) [].

(** The truthy tokens of the boolean conversion of an environment value. *)
Definition truthy_tokens : list str := [py "true"; py "1"; py "yes"; py "on"].

(** The type conversion of [_load_env_defaults] on the value of an
    environment variable; [None] is the [ValueError] that skips it. *)
Definition env_convert (arg_type : pytype) (val : str) : option value :=
  match arg_type with
  | TBool => Some (VBool (existsb (str_eqb (lower val)) truthy_tokens))
  | TInt => option_map VInt (int_of_str P val)
  | TFloat => option_map VFloat (float_of_str P val)
  | _ => Some (VStr val)
  end.

(** [_load_env_defaults()] for the environment [environ]. *)
Definition _load_env_defaults (p : ArgumentParser)
  (environ : list (str * str)) : list (str * value) :=
  fold_left
    (fun defaults def =>
       let '(arg_name, arg_config) := def in
       match kw_env_var arg_config with
       | Some ((_ :: _) as env_var) =>
           match dict_get env_var environ with
           | Some val =>
               let arg_type :=
                 match kw_type arg_config with Some t => t | None => TStr end in
               match env_convert arg_type val with
               | Some v => dict_set arg_name v defaults
               | None => defaults
               end
           | None => defaults
           end
       | _ => defaults
       end)
    (args_definitions p) [].

(** The merge of the default tiers for one definition in [parse_args]. *)
Definition merged_default (config_defaults env_defaults : list (str * value))
  (arg_name : str) (arg_config : kwargs) : value :=
  let default_value := get_default arg_config in
  let default_value :=
    match dict_get arg_name config_defaults with
    | Some c => c
    | None => default_value
    end in
  match dict_get arg_name env_defaults with
  | Some e => e
  | None => default_value
  end.

(** The [parser.add_argument(arg_name, **arg_kwargs)] of [parse_args]: the
    custom keys are dropped, a [bool] type becomes a [store_true] action. *)
Definition make_action (config_defaults env_defaults : list (str * value))
  (def : str * kwargs) : Argparse.action :=
  let '(arg_name, arg_config) := def in
  {| Argparse.option_string := arg_name;
     Argparse.dest := Argparse.dest_of arg_name;
     Argparse.kind :=
       match kw_type arg_config with
       | Some TBool => Argparse.StoreTrue
       | t => Argparse.Store t
       end;
     Argparse.default :=
       merged_default config_defaults env_defaults arg_name arg_config;
     Argparse.required :=
       match kw_required arg_config with Some r => r | None => false end;
     Argparse.help := kw_help arg_config |}.

(** [_find_similar_args(arg, candidates)] *)
Definition _find_similar_args (arg : str) (candidates : list str)
  : list str :=
  let clean := fun c => if startswith (py "--") c then skipn 2 c else c in
  let arg_clean := clean arg in
  let candidates_clean := map clean candidates in
  let matches := Difflib.get_close_matches arg_clean candidates_clean in
  map (fun m => py "--" ++ m) matches.

(** What [_suggest_corrections(args)] prints, one string per [print]. *)
Definition _suggest_corrections (p : ArgumentParser) (args : list str)
  : list str :=
  let defined_args := map fst (args_definitions p) in
  [10%N :: py "Suggestions:";
   py "  - Check argument names and try --help for usage";
   py "  - Use quotes around arguments with spaces";
   py "  - Ensure required arguments are provided"]
  ++ flat_map
       (fun arg =>
          if startswith (py "--") arg
          then match _find_similar_args arg defined_args with
               | [] => []
               | suggestions =>
                   [py "  - Did you mean: " ++ join (py ", ") suggestions
                    ++ py "?"]
               end
          else [])
       args.

(** The state of the loop of [_validate_args]: the namespace, the errors
    collected, and the validator calls made (name and argument). *)
Record vstate := {
  v_ns : namespace;
  v_errors : list str;
  v_calls : list (str * value)
}.

(** [arg_name[2:].replace("-", "_")] *)
Definition attr_name_of (arg_name : str) : str :=
  replace_char hyphen underscore (skipn 2 arg_name).

(** One iteration of the loop of [_validate_args]. *)
Definition validate_step (safe : bool) (st : vstate) (def : str * kwargs)
  : vstate + exn :=
  let '(arg_name, arg_config) := def in
  let attr_name := attr_name_of arg_name in
  let val := getattr (v_ns st) attr_name in
  (* Apply Unicode elimination to string values if enabled *)
  let '(val, ns) :=
    match safe, val with
    | true, VStr _ =>
        let val := eliminate_unicode_maximum val in
        (val, setattr (v_ns st) attr_name val)
    | _, _ => (val, v_ns st)
    end in
  (* Type validation *)
  let typed : (namespace * list str) + exn :=
    match kw_type arg_config, val with
    | None, _ | _, VNone => inl (ns, v_errors st)
    | Some expected_type, _ =>
        if isinstance val expected_type then inl (ns, v_errors st)
        else
          match call_type P expected_type val with
          | inl converted => inl (setattr ns attr_name converted, v_errors st)
          | inr OverflowError => inr OverflowError
          | inr _ =>
              (* except (ValueError, TypeError) *)
              inl (ns,
                   v_errors st
                   ++ [arg_name ++ py ": Expected " ++ type_name expected_type
                       ++ py ", got " ++ type_name (type_of val)])
          end
    end in
  match typed with
  | inr e => inr e
  | inl (ns, errors) =>
      (* Custom validation *)
      match kw_validator arg_config with
      | Some validator =>
          inl {| v_ns := ns;
                 v_errors :=
                   match validator val with
                   | Some e => errors ++ [arg_name ++ py ": " ++ e]
                   | None => errors
                   end;
                 v_calls := v_calls st ++ [(arg_name, val)] |}
      | None => inl {| v_ns := ns; v_errors := errors; v_calls := v_calls st |}
      end
  end.

Fixpoint validate_loop (safe : bool) (defs : list (str * kwargs))
  (st : vstate) : vstate + exn :=
  match defs with
  | [] => inl st
  | def :: defs' =>
      match validate_step safe st def with
      | inl st' => validate_loop safe defs' st'
      | inr e => inr e
      end
  end.

(** [_validate_args(args)]: returns with the namespace updated in place, or
    prints the errors and exits with status 1. *)
Definition _validate_args (p : ArgumentParser) (args : namespace)
  : outcome namespace :=
  match validate_loop (unicode_safe p) (args_definitions p)
          {| v_ns := args; v_errors := []; v_calls := [] |} with
  | inr e => Raised e
  | inl st =>
      match v_errors st with
      | [] => Returned (v_ns st)
      | errors =>
          SystemExit 1 (ValidationErrors errors)
            (py "Argument validation errors:"
             :: map (fun error => py "  - " ++ error) errors)
      end
  end.

(** [parse_args(args)] in the environment [environ]. *)
Definition parse_args (p : ArgumentParser) (environ : list (str * str))
  (args : list str) : outcome namespace :=
  (* Apply Unicode elimination to all arguments if enabled *)
  let args :=
    if unicode_safe p then map (eliminate_unicode_maximum_str P) args
    else args in
  (* Load defaults from config and env *)
  let config_defaults := _load_config_defaults p in
  let env_defaults := _load_env_defaults p environ in
  (* Add arguments: an exception of [parser.add_argument] escapes, the
     [try] begins after the loop *)
  let actions :=
    map (make_action config_defaults env_defaults) (args_definitions p) in
  match Argparse.add_arguments Argparse.initial_option_strings
          (map Argparse.option_string actions) with
  | Some e => Raised e
  | None =>
      (* Parse with error handling *)
      let attempt :=
        match Argparse.parse_args P actions args with
        | Argparse.Exit code why => SystemExit code (ArgparseExit why) []
        | Argparse.Escaped e => Raised e
        | Argparse.Parsed parsed_args => _validate_args p parsed_args
        end in
      match attempt with
      | SystemExit code cause stdout =>
          match args with
          | [] => SystemExit code cause stdout
          | _ => SystemExit code cause (stdout ++ _suggest_corrections p args)
          end
      | r => r
      end
  end.

(** [program_name or Path(sys.argv[0]).stem] of the constructor: [stem] is
    the stem of the path of the running script. *)
Definition resolve_program_name (program_name : option str) (stem : str)
  : str :=
  match program_name with
  | Some (c :: s) => c :: s
  | _ => stem
  end.

(** [create_parser(program_name, description)] *)
Definition create_parser (program_name : option str) (stem : str)
  : ArgumentParser :=
  new_parser (resolve_program_name program_name stem) true.


End Parser.

(* ===================================================================== *)
(** * A concrete platform *)
(* ===================================================================== *)

(** The platform the examples run on: none of the optional packages is
    installed (the fallback paths of the program are taken); config files
    are given by their decoded contents; integer literals are written in
    ASCII digits; the tokenizer knows the fragment of [argparse] in which
    every option is written in full as a token of its own, followed by its
    argument as the next token, and no help string holds a [%] specifier. *)
Module Demo.

(** NFKD on ASCII and a few precomposed Latin letters. *)
Definition nfkd_char (c : N) : str :=
  if N.eqb c 0xe9 then [0x65; 0x301]%N        (* e with acute *)
  else if N.eqb c 0xe8 then [0x65; 0x300]%N   (* e with grave *)
  else if N.eqb c 0xfc then [0x75; 0x308]%N   (* u with diaeresis *)
  else if N.eqb c 0xf1 then [0x6e; 0x303]%N   (* n with tilde *)
  else if N.eqb c 0xa0 then [0x20]%N          (* no-break space *)
  else [c].

Definition nfkd_table (s : str) : str := flat_map nfkd_char s.

(** Integer literals in ASCII digits with an optional sign, of any
    length. *)
Definition parse_int (s : str) : option Z :=
  match strip s with
  | 43%N :: ds => digits_value 0 false ds
  | 45%N :: ds => option_map Z.opp (digits_value 0 false ds)
  | ds => digits_value 0 false ds
  end.

(** Decimal literals [digits] and [digits.digits] with an optional sign,
    rounded by one division. *)
Fixpoint split_point (s : str) : str * option str :=
  match s with
  | [] => ([], None)
  | c :: s' =>
      if N.eqb c 46 then ([], Some s')
      else let '(a, b) := split_point s' in (c :: a, b)
  end.

Definition parse_float (s : str) : option spec_float :=
  let '(neg, body) :=
    match strip s with
    | 45%N :: r => (true, r)
    | 43%N :: r => (false, r)
    | r => (false, r)
    end in
  let '(ip, fp) := split_point body in
  let fp := match fp with Some f => f | None => [] end in
  match digits_value 0 false (48%N :: ip ++ fp) with
  | Some n =>
      let q :=
        SFdiv 53 1024 (binary_normalize 53 1024 n 0 false)
          (binary_normalize 53 1024 (10 ^ Z.of_nat (length fp)) 0 false) in
      match ip ++ fp with
      | [] => None
      | _ => Some (if neg then SFopp q else q)
      end
  | None => None
  end.

(** Floats are printed in full: sign, integer part, point, and the exact
    decimal expansion of the fraction (Python prints the shortest expansion
    that reads back as the same float). *)
Fixpoint pad_zeros (n : nat) (s : str) : str :=
  match n with
  | O => s
  | S n' => if Nat.ltb (length s) (S n') then pad_zeros n' (48%N :: s) else s
  end.

Fixpoint strip_trailing_zeros (r : str) : str :=
  match r with
  | 48%N :: r' => strip_trailing_zeros r'
  | _ => r
  end.

Definition print_float (f : spec_float) : str :=
  match f with
  | S754_zero false => py "0.0"
  | S754_zero true => py "-0.0"
  | S754_infinity false => py "inf"
  | S754_infinity true => py "-inf"
  | S754_nan => py "nan"
  | S754_finite s m e =>
      let sign := if s then [hyphen] else [] in
      if (0 <=? e)%Z
      then sign ++ str_of_int (Zpos m * 2 ^ e) ++ py ".0"
      else
        let k := Z.to_nat (- e) in
        let scaled := (Zpos m * 5 ^ (- e))%Z in
        let ip := (scaled / 10 ^ (- e))%Z in
        let fp := (scaled mod 10 ^ (- e))%Z in
        let digits := pad_zeros k (str_of_int fp) in
        let digits := rev (strip_trailing_zeros (rev digits)) in
        sign ++ str_of_int ip ++ py "."
        ++ match digits with [] => py "0" | _ => digits end
  end.

(** [repr] of a string, in single quotes. *)
Definition str_repr (s : str) : str :=
  39%N :: flat_map (fun c => if N.eqb c 39 || N.eqb c 92 then [92%N; c]
                             else [c]) s
  ++ [39%N].

Fixpoint repr (v : value) : str :=
  match v with
  | VNone => py "None"
  | VBool true => py "True"
  | VBool false => py "False"
  | VInt n => str_of_int n
  | VFloat f => print_float f
  | VStr s => str_repr s
  | VList l => py "[" ++ join (py ", ") (map repr l) ++ py "]"
  | VDict d =>
      py "{"
      ++ join (py ", ")
           (map (fun kv => match kv with
                           | (k, x) => str_repr k ++ py ": " ++ repr x
                           end) d)
      ++ py "}"
  end.

(** [dict(l)] for a list of two-element lists with string keys. *)
Fixpoint pairs_to_dict (l : list value) : value + exn :=
  match l with
  | [] => inl (VDict [])
  | VList [VStr k; x] :: l' =>
      match pairs_to_dict l' with
      | inl (VDict d) =>
          inl (VDict ((k, x) :: filter (fun kv => negb (str_eqb k (fst kv))) d))
      | r => r
      end
  | VList [_; _] :: _ => inr TypeError
  | VList _ :: _ | VStr _ :: _ | VDict _ :: _ => inr ValueError
  | _ => inr TypeError
  end.

Definition is_help (a : str) : bool :=
  str_eqb a (py "-h") || str_eqb a (py "--help").

Fixpoint lookup_option (a : str) (opts : list option_spec) : option bool :=
  match opts with
  | [] => None
  | o :: opts' =>
      if str_eqb a (spec_option_string o) then Some (spec_takes_argument o)
      else lookup_option a opts'
  end.

Definition cons_occ (o : str * option str) (t : tokens) : tokens :=
  match t with
  | TokOk occ => TokOk (o :: occ)
  | TokExit c => TokExit c
  | TokRaise e => TokRaise e
  end.

Fixpoint tokenize_exact (opts : list option_spec) (args : list str)
  : tokens :=
  match args with
  | [] => TokOk []
  | a :: rest =>
      if is_help a then TokExit 0
      else
        match lookup_option a opts with
        | None => TokExit 2
        | Some false => cons_occ (a, None) (tokenize_exact opts rest)
        | Some true =>
            match rest with
            | [] => TokOk [(a, None)]
            | x :: rest' =>
                if startswith (py "--") x
                then cons_occ (a, None) (tokenize_exact opts rest)
                else cons_occ (a, Some x) (tokenize_exact opts rest')
            end
        end
  end.

(** The platform with the config files [files] (path and decoded
    mapping). *)
Definition platform (files : list (str * list (str * value))) : Platform :=
  {| ftfy_fix_text := None;
     emoji_replace_emoji := None;
     unidecode_unidecode := None;
     nfkd := nfkd_table;
     int_of_str := parse_int;
     float_of_str := parse_float;
     float_repr := print_float;
     container_repr := repr;
     dict_of_list := pairs_to_dict;
     config_mapping := fun path => dict_get path files;
     tokenize := tokenize_exact |}.

End Demo.

(* ===================================================================== *)
(** * Properties *)
(* ===================================================================== *)

(** ** Strings and dictionaries *)

Lemma str_eqb_eq (a b : str) : str_eqb a b = true <-> a = b.
Proof.
  revert b; induction a as [|x a IH]; intros [|y b]; simpl.
  - tauto.
  - split; discriminate.
  - split; discriminate.
  - rewrite andb_true_iff, N.eqb_eq, IH. split.
    + intros [-> ->]; reflexivity.
    + intros H; injection H; auto.
Qed.

Lemma str_eqb_refl (a : str) : str_eqb a a = true.
Proof. apply str_eqb_eq; reflexivity. Qed.

Lemma str_eqb_neq (a b : str) : str_eqb a b = false <-> a <> b.
Proof.
  destruct (str_eqb a b) eqn:E.
  - apply str_eqb_eq in E. split; [discriminate | contradiction].
  - split; [|reflexivity]. intros _ H. apply str_eqb_eq in H. congruence.
Qed.

Lemma str_eqb_sym (a b : str) : str_eqb a b = str_eqb b a.
Proof.
  destruct (str_eqb a b) eqn:E; symmetry.
  - apply str_eqb_eq in E. subst. apply str_eqb_refl.
  - apply str_eqb_neq. apply str_eqb_neq in E. congruence.
Qed.

Section DictFacts.
Variable V : Type.
Implicit Types (d : list (str * V)) (k : str) (v : V).

Lemma dict_get_set_same k v d : dict_get k (dict_set k v d) = Some v.
Proof.
  induction d as [|[k' v'] d IH]; simpl.
  - rewrite str_eqb_refl; reflexivity.
  - destruct (str_eqb k k') eqn:E; simpl.
    + rewrite str_eqb_refl; reflexivity.
    + rewrite E; exact IH.
Qed.

Lemma dict_get_set_other k k' v d :
  k <> k' -> dict_get k (dict_set k' v d) = dict_get k d.
Proof.
  intros Hne. induction d as [|[k0 v0] d IH]; simpl.
  - apply str_eqb_neq in Hne. rewrite Hne. reflexivity.
  - destruct (str_eqb k' k0) eqn:E; simpl.
    + apply str_eqb_eq in E; subst k0.
      apply str_eqb_neq in Hne. rewrite Hne. reflexivity.
    + destruct (str_eqb k k0); [reflexivity | exact IH].
Qed.

Lemma dict_get_In k v d : dict_get k d = Some v -> In (k, v) d.
Proof.
  induction d as [|[k' v'] d IH]; simpl; [discriminate|].
  destruct (str_eqb k k') eqn:E.
  - apply str_eqb_eq in E; subst. intros H; injection H as ->. now left.
  - intros H; right; auto.
Qed.

Lemma dict_get_None_notin k d :
  dict_get k d = None -> ~ In k (map fst d).
Proof.
  induction d as [|[k' v'] d IH]; simpl; [tauto|].
  destruct (str_eqb k k') eqn:E; [discriminate|].
  apply str_eqb_neq in E. intros H [H1 | H1]; [congruence | now apply IH].
Qed.


End DictFacts.

Lemma getattr_setattr_same ns a v : getattr (setattr ns a v) a = v.
Proof. unfold getattr, setattr. now rewrite dict_get_set_same. Qed.

Lemma getattr_setattr_other ns a b v :
  b <> a -> getattr (setattr ns a v) b = getattr ns b.
Proof. intros H. unfold getattr, setattr. now rewrite dict_get_set_other. Qed.

(** ** Substrings *)

Lemma contains_cons_other (p : str) (x c : N) (s : str) :
  x <> c -> contains (x :: p) (c :: s) = contains (x :: p) s.
Proof.
  intros Hne. simpl. apply N.eqb_neq in Hne. rewrite Hne. simpl.
  destruct s; reflexivity.
Qed.

Lemma contains_dashes (p : str) (x : N) (s : str) :
  x <> hyphen ->
  contains (x :: p) (hyphen :: hyphen :: s) = contains (x :: p) s.
Proof. intros H. now rewrite !contains_cons_other. Qed.

Lemma startswith_iff (p s : str) :
  startswith p s = true <-> exists r, s = p ++ r.
Proof.
  revert s; induction p as [|x p IH]; intros s; simpl.
  - split; [intros _; now exists s | reflexivity].
  - destruct s as [|y s].
    + split; [discriminate | intros [r H]; discriminate].
    + rewrite andb_true_iff, N.eqb_eq, IH. split.
      * intros [-> [r ->]]. now exists r.
      * intros [r H]. injection H as -> ->. split; [reflexivity | now exists r].
Qed.

Lemma contains_iff (p s : str) :
  contains p s = true <-> exists l r, s = l ++ p ++ r.
Proof.
  induction s as [|y s IH].
  - simpl. rewrite orb_false_r, startswith_iff. split.
    + intros [r H]. exists [], r. exact H.
    + intros [l [r H]]. destruct l; [now exists r|discriminate].
  - change (contains p (y :: s))
      with (startswith p (y :: s) || contains p s).
    rewrite orb_true_iff, startswith_iff, IH. split.
    + intros [[r H] | [l [r H]]].
      * exists [], r. exact H.
      * exists (y :: l), r. simpl. now rewrite H.
    + intros [[|z l] [r H]].
      * left. now exists r.
      * right. injection H as -> ->. now exists l, r.
Qed.

Lemma contains_infix (p l s r : str) :
  contains p (l ++ s ++ r) = false -> contains p s = false.
Proof.
  intros H. destruct (contains p s) eqn:E; [|reflexivity].
  apply contains_iff in E. destruct E as [l' [r' ->]].
  assert (contains p (l ++ (l' ++ p ++ r') ++ r) = true) as H'.
  { apply contains_iff. exists (l ++ l'), (r' ++ r).
    now rewrite <- !app_assoc. }
  congruence.
Qed.

(** ** Type inference (C3) *)






(** ** Boolean coercion of environment values *)

(** The conversion of an environment token for a [bool] definition is
    [true] exactly when the lower-cased token is one of the four truthy
    tokens, and [false] for every other token. *)
Lemma boolean_coercion (P : Platform) (token : str) :
  (exists b : bool,
      env_convert P TBool token = Some (VBool b)
      /\ (b = true
          <-> In (lower token) [py "true"; py "1"; py "yes"; py "on"]))
  /\ env_convert P TBool (py "TRUE") = Some (VBool true)
  /\ env_convert P TBool (py "1") = Some (VBool true)
  /\ env_convert P TBool (py "yes") = Some (VBool true)
  /\ env_convert P TBool (py "On") = Some (VBool true)
  /\ env_convert P TBool (py "false") = Some (VBool false)
  /\ env_convert P TBool (py "") = Some (VBool false)
  /\ env_convert P TBool (py "nope") = Some (VBool false)
  /\ forall (prog name help : str) (c : N) (env_var : str)
            (required safe : bool) (files : list str),
      _load_env_defaults P
        {| program_name := prog;
           args_definitions :=
             [(name,
               {| kw_type := Some TBool; kw_default := None;
                  kw_required := Some required; kw_help := Some help;
                  kw_env_var := Some (c :: env_var); kw_config_key := None;
                  kw_validator := None |})];
           config_files := files;
           env_prefix := prog;
           unicode_safe := safe |}
        [(c :: env_var, token)]
      = [(name,
          VBool (existsb (str_eqb (lower token))
                   [py "true"; py "1"; py "yes"; py "on"]))].
Proof.
  split; [|repeat split; try reflexivity].
  - eexists; split; [reflexivity|].
    unfold truthy_tokens. rewrite existsb_exists. split.
    + intros [x [Hin Heq]]. apply str_eqb_eq in Heq. subst x. exact Hin.
    + intros Hin. exists (lower token).
      split; [exact Hin | apply str_eqb_refl].
  - intros prog name help c env_var required safe files.
    unfold _load_env_defaults. cbn [args_definitions fold_left kw_env_var].
    cbn [dict_get]. rewrite str_eqb_refl. reflexivity.
Qed.

(** The fallback conversion of [_validate_args] is another path: a string
    that reaches it for a [bool] definition is converted by truthiness. *)
Lemma validation_fallback_is_truthiness (P : Platform) :
  call_type P TBool (VStr (py "false")) = inl (VBool true)
  /\ call_type P TBool (VStr (py "")) = inl (VBool false).
Proof. split; reflexivity. Qed.

(** ** Automatic required detection (C10) *)

(** The name [add_argument] stores a definition under. *)
Definition canonical_name (name : str) : str :=
  if startswith (py "--") name then name else py "--" ++ name.

(** [add_argument] called without any keyword argument. *)
Definition no_kwargs : kwargs :=
  {| kw_type := None; kw_default := None; kw_required := None;
     kw_help := None; kw_env_var := None; kw_config_key := None;
     kw_validator := None |}.

Lemma existsb_contains_dashes (patterns : list str) (s : str) :
  Forall (fun pat => exists x r, pat = x :: r /\ x <> hyphen) patterns ->
  existsb (fun pat => contains pat (hyphen :: hyphen :: s)) patterns
  = existsb (fun pat => contains pat s) patterns.
Proof.
  induction 1 as [|pat l [x [r [-> Hx]]] _ IH]; [reflexivity|].
  change (contains (x :: r) (hyphen :: hyphen :: s)
          || existsb (fun pat => contains pat (hyphen :: hyphen :: s)) l
          = contains (x :: r) s || existsb (fun pat => contains pat s) l).
  rewrite IH, contains_dashes by exact Hx. reflexivity.
Qed.

Lemma required_patterns_no_hyphen :
  Forall (fun pat => exists x r, pat = x :: r /\ x <> hyphen)
         required_patterns.
Proof.
  unfold required_patterns.
  repeat (constructor;
          [eexists; eexists; split; [reflexivity | discriminate]|]).
  constructor.
Qed.

Lemma is_required_arg_canonical (name : str) :
  _is_required_arg (canonical_name name)
  = existsb (fun pat => contains pat (lower name)) required_patterns.
Proof.
  unfold _is_required_arg, any_in, canonical_name.
  destruct (startswith (py "--") name); [reflexivity|].
  change (lower (py "--" ++ name)) with (hyphen :: hyphen :: lower name).
  apply existsb_contains_dashes, required_patterns_no_hyphen.
Qed.

Lemma add_argument_stored (P : Platform) (p : ArgumentParser) (name : str)
  (kw : kwargs) :
  exists stored,
    dict_get (canonical_name name)
             (args_definitions (add_argument P p name kw)) = Some stored
    /\ kw_type stored
       = Some (match kw_type kw with
               | Some t => t
               | None => _infer_type (canonical_name name) (get_default kw)
               end)
    /\ kw_default stored
       = match kw_default kw with
         | Some v => Some v
         | None =>
             match kw_type stored with
             | Some TBool => None
             | Some t => Some (_get_smart_default t)
             | None => None
             end
         end
    /\ kw_required stored
       = Some (match kw_required kw with
               | Some r => r
               | None => _is_required_arg (canonical_name name)
               end)
    /\ kw_validator stored = kw_validator kw.
Proof.
  unfold add_argument. fold (canonical_name name).
  eexists. split; [apply dict_get_set_same|]. cbn [kw_type kw_default
    kw_required kw_validator].
  repeat split.
  destruct (kw_default kw); [reflexivity|].
  destruct (match kw_type kw with
            | Some t => t
            | None => _infer_type (canonical_name name) (get_default kw)
            end); reflexivity.
Qed.

(** C10: when [add_argument] is called without [required], the stored
    definition is required exactly when the flag name, with its ASCII
    capitals lowered, contains one of the ten patterns as a contiguous
    substring; upper case in the name does not matter, and a name without
    any of the patterns is stored as not required. *)
Theorem auto_required_detection (P : Platform) (p : ArgumentParser)
  (name : str) (kw : kwargs) :
  kw_required kw = None ->
  exists stored required,
    dict_get (canonical_name name)
             (args_definitions (add_argument P p name kw)) = Some stored
    /\ kw_required stored = Some required
    /\ (required = true <->
        exists pattern before after,
          In pattern
             [py "input"; py "file"; py "source"; py "target";
              py "destination"; py "host"; py "server"; py "database";
              py "username"; py "password"]
          /\ map (fun c => if ((65 <=? c) && (c <=? 90))%N
                           then (c + 32)%N else c) name
             = before ++ pattern ++ after).
Proof.
  intros Hreq.
  destruct (add_argument_stored P p name kw) as [stored [Hget [_ [_ [Hr _]]]]].
  exists stored. eexists. split; [exact Hget|].
  rewrite Hr, Hreq, is_required_arg_canonical. split; [reflexivity|].
  rewrite existsb_exists. split.
  - intros [pattern [Hin Hc]]. apply contains_iff in Hc.
    destruct Hc as [before [after Hc]]. exists pattern, before, after.
    split; [exact Hin | exact Hc].
  - intros [pattern [before [after [Hin Hc]]]]. exists pattern.
    split; [exact Hin|]. apply contains_iff. exists before, after. exact Hc.
Qed.

(** [Input-File] holds a pattern under its capitals and is stored as
    required; [output] holds none and is stored as not required. *)
Lemma auto_required_detection_witness :
  kw_required no_kwargs = None
  /\ (exists stored,
         dict_get (py "--Input-File")
           (args_definitions
              (add_argument (Demo.platform []) (new_parser (py "tool") true)
                 (py "Input-File") no_kwargs)) = Some stored
         /\ kw_required stored = Some true)
  /\ (exists stored,
         dict_get (py "--output")
           (args_definitions
              (add_argument (Demo.platform []) (new_parser (py "tool") true)
                 (py "output") no_kwargs)) = Some stored
         /\ kw_required stored = Some false).
Proof.
  split; [reflexivity|]. split.
  - destruct (auto_required_detection (Demo.platform [])
                (new_parser (py "tool") true) (py "Input-File") no_kwargs
                eq_refl) as [stored [required [Hget [Hreq Hiff]]]].
    exists stored. split; [exact Hget|]. rewrite Hreq. f_equal.
    apply Hiff. exists (py "input"), [], (py "-file").
    split; [left; reflexivity | reflexivity].
  - destruct (auto_required_detection (Demo.platform [])
                (new_parser (py "tool") true) (py "output") no_kwargs
                eq_refl) as [stored [required [Hget [Hreq Hiff]]]].
    exists stored. split; [exact Hget|]. rewrite Hreq. f_equal.
    destruct required; [exfalso | reflexivity].
    destruct (proj1 Hiff eq_refl) as [pattern [before [after [Hin Hc]]]].
    assert (contains pattern (py "output") = true) as Hcontains.
    { apply contains_iff. exists before, after. exact Hc. }
    repeat (destruct Hin as [<- | Hin]; [vm_compute in Hcontains;
                                         discriminate|]).
    destruct Hin.
Defined.

(** ** Validation ends the process (C4) *)

Lemma validate_step_raises (P : Platform) (safe : bool) (st : vstate)
  (def : str * kwargs) (e : exn) :
  validate_step P safe st def = inr e -> e = OverflowError.
Proof.
  unfold validate_step. destruct def as [arg_name arg_config].
  destruct (match safe, getattr (v_ns st) (attr_name_of arg_name) with
            | true, VStr _ => _ | _, _ => _ end) as [val ns].
  destruct (kw_type arg_config) as [t|]; [|destruct (kw_validator arg_config); discriminate].
  destruct val; try (destruct (kw_validator arg_config); discriminate);
    (destruct (isinstance _ t);
     [destruct (kw_validator arg_config); discriminate|]);
    (destruct (call_type P t _) as [v|[]];
     try (destruct (kw_validator arg_config); discriminate);
     intros H; injection H as <-; reflexivity).
Qed.





(** ** The text normaliser is idempotent (C9) *)

(** A string is tidy when its only whitespace is single spaces;
    [prev_space] tells that the character before it was whitespace. *)
Fixpoint tidy (prev_space : bool) (s : str) : bool :=
  match s with
  | [] => true
  | c :: s' =>
      if is_space c
      then N.eqb c space && negb prev_space && tidy true s'
      else tidy false s'
  end.

Lemma collapse_ws_tidy (b : bool) (s : str) : tidy b (collapse_ws b s) = true.
Proof.
  revert b; induction s as [|c s IH]; intros b; simpl; [reflexivity|].
  destruct (is_space c) eqn:E.
  - destruct b; [apply IH|]. simpl. apply IH.
  - simpl. rewrite E. apply IH.
Qed.

Lemma collapse_ws_fixes_tidy (b : bool) (s : str) :
  tidy b s = true -> collapse_ws b s = s.
Proof.
  revert b; induction s as [|c s IH]; intros b; simpl; [reflexivity|].
  destruct (is_space c) eqn:E.
  - rewrite !andb_true_iff, N.eqb_eq, negb_true_iff.
    intros [[-> ->] H]. now rewrite IH.
  - intros H. now rewrite IH.
Qed.

Lemma tidy_weaken (b : bool) (s : str) : tidy b s = true -> tidy false s = true.
Proof.
  destruct s as [|c s]; simpl; [reflexivity|].
  destruct (is_space c); [|tauto].
  destruct (N.eqb c space), b, (tidy true s); simpl; auto.
Qed.

Lemma tidy_suffix (b : bool) (l s : str) :
  tidy b (l ++ s) = true -> tidy false s = true.
Proof.
  revert b; induction l as [|c l IH]; intros b; simpl.
  - apply tidy_weaken.
  - destruct (is_space c).
    + rewrite !andb_true_iff. intros [_ H]. eapply IH; eassumption.
    + apply IH.
Qed.

Lemma tidy_prefix (b : bool) (s r : str) :
  tidy b (s ++ r) = true -> tidy b s = true.
Proof.
  revert b; induction s as [|c s IH]; intros b; simpl; [reflexivity|].
  destruct (is_space c).
  - rewrite !andb_true_iff. intros [H1 H2]. split; [exact H1|].
    eapply IH; eassumption.
  - apply IH.
Qed.

Lemma lstrip_suffix (s : str) : exists l, s = l ++ lstrip s.
Proof.
  induction s as [|c s [l IH]]; simpl.
  - exists []. reflexivity.
  - destruct (is_space c).
    + exists (c :: l). simpl. now rewrite <- IH.
    + exists []. reflexivity.
Qed.

Lemma rstrip_prefix (s : str) : exists r, s = rstrip s ++ r.
Proof.
  unfold rstrip. destruct (lstrip_suffix (rev s)) as [l H].
  exists (rev l). rewrite <- rev_app_distr, <- H. now rewrite rev_involutive.
Qed.

Lemma lstrip_head (s : str) (c : N) (r : str) :
  lstrip s = c :: r -> is_space c = false.
Proof.
  induction s as [|x s IH]; simpl; [discriminate|].
  destruct (is_space x) eqn:E; [exact IH|].
  intros H; injection H as -> _. exact E.
Qed.

Lemma lstrip_idempotent (s : str) : lstrip (lstrip s) = lstrip s.
Proof.
  destruct (lstrip s) as [|c r] eqn:E; [reflexivity|].
  simpl. now rewrite (lstrip_head _ E).
Qed.

Lemma lstrip_app_nonspace (l : str) (c : N) (r : str) :
  is_space c = false -> lstrip (l ++ c :: r) = lstrip l ++ c :: r.
Proof.
  intros Hc. induction l as [|x l IH]; simpl.
  - now rewrite Hc.
  - destruct (is_space x); [exact IH | reflexivity].
Qed.

Lemma rstrip_cons_nonspace (c : N) (r : str) :
  is_space c = false -> rstrip (c :: r) = c :: rstrip r.
Proof.
  intros Hc. unfold rstrip. simpl rev.
  rewrite lstrip_app_nonspace by exact Hc.
  now rewrite rev_app_distr.
Qed.

Lemma rstrip_idempotent (s : str) : rstrip (rstrip s) = rstrip s.
Proof. unfold rstrip. now rewrite rev_involutive, lstrip_idempotent. Qed.

Lemma strip_idempotent (s : str) : strip (strip s) = strip s.
Proof.
  unfold strip. destruct (lstrip s) as [|c r] eqn:E; [reflexivity|].
  pose proof (lstrip_head _ E) as Hc.
  rewrite (rstrip_cons_nonspace c r Hc). simpl lstrip. rewrite Hc.
  rewrite <- (rstrip_cons_nonspace c r Hc). apply rstrip_idempotent.
Qed.

(** Whitespace normalisation, step 4 of [eliminate_unicode]. *)
Definition normalize_ws (s : str) : str := strip (collapse_ws false s).

Lemma normalize_ws_idempotent (s : str) :
  normalize_ws (normalize_ws s) = normalize_ws s.
Proof.
  unfold normalize_ws.
  assert (tidy false (strip (collapse_ws false s)) = true) as Ht.
  { unfold strip.
    destruct (lstrip_suffix (collapse_ws false s)) as [l Hl].
    destruct (rstrip_prefix (lstrip (collapse_ws false s))) as [r Hr].
    pose proof (collapse_ws_tidy false s) as H.
    rewrite Hl in H. apply tidy_suffix in H.
    rewrite Hr in H. eapply tidy_prefix; exact H. }
  rewrite (collapse_ws_fixes_tidy _ _ Ht). apply strip_idempotent.
Qed.

Lemma forallb_collapse_ws (f : N -> bool) (b : bool) (s : str) :
  f space = true ->
  forallb f s = true -> forallb f (collapse_ws b s) = true.
Proof.
  intros Hf. revert b; induction s as [|c s IH]; intros b; simpl;
    [reflexivity|].
  rewrite andb_true_iff. intros [Hc Hs].
  destruct (is_space c); [destruct b|].
  - now apply IH.
  - change (f space && forallb f (collapse_ws true s) = true).
    rewrite Hf. now apply IH.
  - simpl. rewrite Hc. now apply IH.
Qed.

Lemma forallb_strip (f : N -> bool) (s : str) :
  forallb f s = true -> forallb f (strip s) = true.
Proof.
  unfold strip. intros H.
  destruct (lstrip_suffix s) as [l Hl].
  destruct (rstrip_prefix (lstrip s)) as [r Hr].
  rewrite Hl, forallb_app, andb_true_iff in H. destruct H as [_ H].
  rewrite Hr, forallb_app, andb_true_iff in H. tauto.
Qed.

Lemma ascii_not_emoji (c : N) : is_ascii c = true -> emoji_class c = false.
Proof.
  unfold is_ascii. rewrite N.ltb_lt. intros H.
  unfold emoji_class, in_range.
  repeat match goal with
         | |- context [N.leb ?a c] =>
             replace (N.leb a c) with false by (symmetry; apply N.leb_gt; lia)
         | |- context [N.eqb c ?k] =>
             replace (N.eqb c k) with false by (symmetry; apply N.eqb_neq; lia)
         end.
  reflexivity.
Qed.

Lemma filter_all (f : N -> bool) (s : str) :
  forallb f s = true -> filter f s = s.
Proof.
  induction s as [|c s IH]; simpl; [reflexivity|].
  rewrite andb_true_iff. intros [-> H]. now rewrite IH.
Qed.

Lemma forallb_filter_self (f : N -> bool) (s : str) :
  forallb f (filter f s) = true.
Proof.
  induction s as [|c s IH]; simpl; [reflexivity|].
  destruct (f c) eqn:E; simpl; [rewrite E|]; exact IH.
Qed.

Lemma remove_emoji_ascii (s : str) :
  forallb is_ascii s = true -> remove_emoji s = s.
Proof.
  intros H. apply filter_all. rewrite forallb_forall in *.
  intros c Hc. now rewrite ascii_not_emoji by auto.
Qed.

(** Clean text: ASCII that whitespace normalisation leaves as it is. *)
Definition clean (s : str) : Prop :=
  forallb is_ascii s = true /\ normalize_ws s = s.

(** What the proof asks of the collaborators: NFKD leaves ASCII text as it
    is, [unidecode] returns ASCII text, and each package that is installed
    leaves clean text as it is. *)
Definition well_behaved (P : Platform) : Prop :=
  (forall s, forallb is_ascii s = true -> nfkd P s = s)
  /\ (forall f, ftfy_fix_text P = Some f -> forall s, clean s -> f s = s)
  /\ (forall f, emoji_replace_emoji P = Some f ->
                forall s, clean s -> f s = s)
  /\ (forall f, unidecode_unidecode P = Some f ->
                forall s, forallb is_ascii (f s) = true
                          /\ (clean s -> f s = s)).

(** None of the optional packages is installed. *)
Definition no_packages (P : Platform) : Prop :=
  ftfy_fix_text P = None /\ emoji_replace_emoji P = None
  /\ unidecode_unidecode P = None.

Section Idempotence.
Variable P : Platform.
Hypothesis HP : well_behaved P.
Variable ascii_only : bool.

Lemma eliminate_unicode_clean (s : str) :
  clean (eliminate_unicode P true ascii_only s).
Proof.
  destruct HP as [_ [_ [_ Huni]]].
  unfold eliminate_unicode. fold normalize_ws. split.
  - apply forallb_strip, forallb_collapse_ws; [reflexivity|].
    destruct (unidecode_unidecode P) as [f|] eqn:E.
    + destruct ascii_only.
      * apply (Huni f eq_refl).
      * apply forallb_filter_self.
    + apply forallb_filter_self.
  - apply normalize_ws_idempotent.
Qed.

Lemma eliminate_unicode_fixes_clean (s : str) :
  clean s -> eliminate_unicode P true ascii_only s = s.
Proof.
  destruct HP as [Hnfkd [Hftfy [Hemoji Huni]]].
  intros Hs. pose proof Hs as [Ha Hn].
  unfold eliminate_unicode. fold normalize_ws.
  assert (match ftfy_fix_text P with Some f => f s | None => s end = s)
    as ->.
  { destruct (ftfy_fix_text P) as [f|] eqn:E; [|reflexivity].
    now apply (Hftfy f). }
  assert (match emoji_replace_emoji P with
          | Some f => f s
          | None => remove_emoji s
          end = s) as ->.
  { destruct (emoji_replace_emoji P) as [f|] eqn:E.
    - now apply (Hemoji f).
    - now apply remove_emoji_ascii. }
  assert (encode_ascii_ignore (nfkd P s) = s) as Hfallback.
  { rewrite Hnfkd by exact Ha. now apply filter_all. }
  destruct (unidecode_unidecode P) as [f|] eqn:E.
  - destruct ascii_only.
    + rewrite (proj2 (Huni f eq_refl s) Hs). exact Hn.
    + rewrite Hfallback. exact Hn.
  - rewrite Hfallback. exact Hn.
Qed.

(** Without the packages and with [aggressive=False], the text is only
    freed of emoji and of surplus whitespace. *)
Lemma eliminate_unicode_gentle (s : str) :
  no_packages P ->
  eliminate_unicode P false ascii_only s = normalize_ws (remove_emoji s).
Proof.
  intros [H1 [H2 H3]]. unfold eliminate_unicode. rewrite H1, H2, H3.
  reflexivity.
Qed.

Lemma eliminate_unicode_gentle_idempotent (s : str) :
  no_packages P ->
  eliminate_unicode P false ascii_only
    (eliminate_unicode P false ascii_only s)
  = eliminate_unicode P false ascii_only s.
Proof.
  intros Hno. rewrite !eliminate_unicode_gentle by exact Hno.
  assert (remove_emoji (normalize_ws (remove_emoji s))
          = normalize_ws (remove_emoji s)) as ->.
  { apply filter_all. unfold normalize_ws.
    apply forallb_strip, forallb_collapse_ws; [reflexivity|].
    unfold remove_emoji. apply forallb_filter_self. }
  apply normalize_ws_idempotent.
Qed.

End Idempotence.

(** [ftfy.fix_text] replaces HTML entities by the characters they name;
    here its effect on the entity of the ampersand. *)
Fixpoint unescape_amp (s : str) : str :=
  match s with
  | [] => []
  | c :: s' =>
      if startswith (py "&amp;") s
      then match s' with
           | _ :: _ :: _ :: _ :: s'' => c :: unescape_amp s''
           | _ => c :: unescape_amp s'
           end
      else c :: unescape_amp s'
  end.

(** A platform on which [ftfy] is installed. *)
Definition ftfy_platform : Platform :=
  {| ftfy_fix_text := Some unescape_amp;
     emoji_replace_emoji := None;
     unidecode_unidecode := None;
     nfkd := Demo.nfkd_table;
     int_of_str := Demo.parse_int;
     float_of_str := Demo.parse_float;
     float_repr := Demo.print_float;
     container_repr := Demo.repr;
     dict_of_list := Demo.pairs_to_dict;
     config_mapping := fun _ => None;
     tokenize := Demo.tokenize_exact |}.

(** C9 as stated fails where [ftfy] is installed: an ampersand, the letter
    a with a combining acute accent, and the letters m, p and a semicolon
    normalise to the entity of the ampersand, once the accent is dropped;
    the entity normalises to the ampersand. *)
Lemma ftfy_breaks_idempotence :
  eliminate_unicode ftfy_platform true true [38; 97; 0x301; 109; 112; 59]%N
  = py "&amp;"
  /\ eliminate_unicode ftfy_platform true true (py "&amp;") = py "&"
  /\ eliminate_unicode ftfy_platform true true
       (eliminate_unicode ftfy_platform true true
          [38; 97; 0x301; 109; 112; 59]%N)
     <> eliminate_unicode ftfy_platform true true
          [38; 97; 0x301; 109; 112; 59]%N.
Proof. repeat split; try (vm_compute; reflexivity). vm_compute. discriminate. Qed.

(** C9, amended: normalising a normalised string gives the same string
    when none of the optional packages is installed, for any instance; and
    for an instance with [aggressive=True] (the constructor default and the
    module-level instance the parser uses) when every installed package
    leaves clean text (ASCII text with normalised whitespace) as it is,
    [unidecode] returns ASCII text, and NFKD leaves ASCII text as it is. *)
Theorem eliminate_unicode_idempotent (P : Platform) :
  well_behaved P ->
  forall (aggressive ascii_only : bool) (s : str),
    aggressive = true \/ no_packages P ->
    eliminate_unicode P aggressive ascii_only
      (eliminate_unicode P aggressive ascii_only s)
    = eliminate_unicode P aggressive ascii_only s.
Proof.
  intros HP aggressive ascii_only s Hcase.
  destruct aggressive.
  - apply eliminate_unicode_fixes_clean; [exact HP|].
    apply eliminate_unicode_clean; exact HP.
  - destruct Hcase as [Hc | Hno]; [discriminate|].
    now apply eliminate_unicode_gentle_idempotent.
Qed.

Lemma demo_nfkd_ascii (s : str) :
  forallb is_ascii s = true -> Demo.nfkd_table s = s.
Proof.
  induction s as [|c s IH]; simpl; [reflexivity|].
  rewrite andb_true_iff. intros [Hc Hs].
  unfold Demo.nfkd_table in *. simpl. rewrite (IH Hs).
  unfold is_ascii in Hc. apply N.ltb_lt in Hc. unfold Demo.nfkd_char.
  repeat match goal with
         | |- context [N.eqb c ?k] =>
             replace (N.eqb c k) with false by (symmetry; apply N.eqb_neq; lia)
         end.
  reflexivity.
Qed.

Lemma demo_well_behaved (files : list (str * list (str * value))) :
  well_behaved (Demo.platform files).
Proof.
  repeat split; try (simpl; discriminate).
  intros s Hs. simpl. now apply demo_nfkd_ascii.
Qed.

(** A platform on which [emoji] and [unidecode] are installed: the one
    removes the emoji of the pattern, the other transliterates the letters
    of the table and drops what is left outside ASCII. *)
Definition packages_platform : Platform :=
  {| ftfy_fix_text := None;
     emoji_replace_emoji := Some remove_emoji;
     unidecode_unidecode :=
       Some (fun s => encode_ascii_ignore (Demo.nfkd_table s));
     nfkd := Demo.nfkd_table;
     int_of_str := Demo.parse_int;
     float_of_str := Demo.parse_float;
     float_repr := Demo.print_float;
     container_repr := Demo.repr;
     dict_of_list := Demo.pairs_to_dict;
     config_mapping := fun _ => None;
     tokenize := Demo.tokenize_exact |}.

Lemma packages_well_behaved : well_behaved packages_platform.
Proof.
  split; [intros s Hs; now apply demo_nfkd_ascii|].
  split; [intros f Hf; discriminate|].
  split.
  - intros f [= <-] s [Ha _]. now apply remove_emoji_ascii.
  - intros f [= <-] s. split.
    + apply forallb_filter_self.
    + intros [Ha _]. rewrite demo_nfkd_ascii by exact Ha.
      now apply filter_all.
Qed.

(** With the two packages, and without any package: an emoji, accented
    letters and surplus whitespace normalise to [ete x], which normalises
    to itself. *)
Lemma eliminate_unicode_idempotent_witness :
  well_behaved packages_platform
  /\ eliminate_unicode packages_platform true true
       [0x1f600; 32; 9; 0xe9; 116; 0xe9; 32; 32; 0x2600; 120; 10]%N
     = py "ete x"
  /\ eliminate_unicode packages_platform true true
       (eliminate_unicode packages_platform true true
          [0x1f600; 32; 9; 0xe9; 116; 0xe9; 32; 32; 0x2600; 120; 10]%N)
     = eliminate_unicode packages_platform true true
         [0x1f600; 32; 9; 0xe9; 116; 0xe9; 32; 32; 0x2600; 120; 10]%N
  /\ no_packages (Demo.platform [])
  /\ eliminate_unicode (Demo.platform []) false false
       (eliminate_unicode (Demo.platform []) false false
          [0x1f600; 32; 9; 0xe9; 116; 0xe9; 32; 32; 0x2600; 120; 10]%N)
     = eliminate_unicode (Demo.platform []) false false
         [0x1f600; 32; 9; 0xe9; 116; 0xe9; 32; 32; 0x2600; 120; 10]%N.
Proof.
  split; [apply packages_well_behaved|].
  split; [vm_compute; reflexivity|].
  split.
  - apply (@eliminate_unicode_idempotent packages_platform
             packages_well_behaved true true).
    left. reflexivity.
  - split; [repeat split|].
    apply (@eliminate_unicode_idempotent (Demo.platform [])
             (demo_well_behaved []) false false).
    right. repeat split.
Defined.

(** ** difflib: the work list terminates within the fuel *)

Unset Implicit Arguments.

Module DifflibFacts.
Import Difflib.
Local Open Scope nat_scope.

(** A block lies in the range of [a] searched so far. *)
Definition in_range_a (alo n : nat) (best : block) : Prop :=
  let '(besti, _, bestsize) := best in alo <= besti /\ besti + bestsize <= n.

Lemma row_bounds (pop : N -> bool) (x : N) (alo i : nat) (bs : str) :
  alo <= i ->
  forall (j : nat) (prev : list nat) (diag : nat) (best : block),
    diag <= i - alo ->
    Forall (fun k => k <= i - alo) prev ->
    in_range_a alo (S i) best ->
    Forall (fun k => k <= S i - alo) (fst (row pop x i bs j prev diag best))
    /\ in_range_a alo (S i) (snd (row pop x i bs j prev diag best)).
Proof.
  intros Hi. induction bs as [|y bs IH]; intros j prev diag best Hd Hp Hb.
  - simpl. auto.
  - simpl.
    set (k := if N.eqb x y && negb (pop y) then S diag else 0).
    assert (k <= S i - alo) as Hk.
    { subst k. destruct (N.eqb x y && negb (pop y)); lia. }
    set (best' := let '(_, _, bestsize) := best in
                  if (0 <? k) && (bestsize <? k)
                  then (i + 1 - k, j + 1 - k, k) else best).
    assert (in_range_a alo (S i) best') as Hb'.
    { subst best'. destruct best as [[bi bj] bk].
      destruct ((0 <? k) && (bk <? k)); [|exact Hb].
      simpl. lia. }
    assert (hd 0 prev <= i - alo) as Hh.
    { destruct prev; simpl; [lia|]. now inversion Hp. }
    assert (Forall (fun k => k <= i - alo) (tl prev)) as Ht.
    { destruct prev; simpl; [constructor|]. now inversion Hp. }
    specialize (IH (S j) (tl prev) (hd 0 prev) best' Hh Ht Hb').
    destruct (row pop x i bs (S j) (tl prev) (hd 0 prev) best') as [r b''].
    simpl in *. destruct IH as [IH1 IH2]. split; [|exact IH2].
    constructor; assumption.
Qed.

Lemma rows_bounds (pop : N -> bool) (alo : nat) (bs : str) (blo : nat)
  (az : str) :
  forall (i : nat) (prev : list nat) (best : block),
    alo <= i ->
    Forall (fun k => k <= i - alo) prev ->
    in_range_a alo i best ->
    in_range_a alo (i + length az) (rows pop az i bs blo prev best).
Proof.
  induction az as [|x az IH]; intros i prev best Hi Hp Hb; simpl.
  - now rewrite Nat.add_0_r.
  - assert (in_range_a alo (S i) best) as Hb'.
    { destruct best as [[bi bj] bk]. simpl in *. lia. }
    assert (0 <= i - alo) as H0 by lia.
    destruct (row_bounds pop x alo i bs Hi blo prev 0 best H0 Hp Hb') as [H1 H2].
    destruct (row pop x i bs blo prev 0 best) as [r best'].
    simpl in *. replace (i + S (length az)) with (S i + length az) by lia.
    apply IH; [lia | exact H1 | exact H2].
Qed.

Lemma extend_left_bounds (a b : str) (alo blo ahi n : nat) (best : block) :
  in_range_a alo ahi best ->
  in_range_a alo ahi (extend_left a b alo blo n best).
Proof.
  revert best; induction n as [|n IH]; intros [[bi bj] bk] Hb; simpl;
    [exact Hb|].
  destruct (alo <? bi) eqn:E1; simpl; [|exact Hb].
  destruct (blo <? bj); simpl; [|exact Hb].
  destruct (N.eqb _ _); [|exact Hb].
  apply IH. apply Nat.ltb_lt in E1. simpl in *. lia.
Qed.

Lemma extend_right_bounds (a b : str) (alo ahi bhi n : nat) (best : block) :
  in_range_a alo ahi best ->
  in_range_a alo ahi (extend_right a b ahi bhi n best).
Proof.
  revert best; induction n as [|n IH]; intros [[bi bj] bk] Hb; simpl;
    [exact Hb|].
  destruct (bi + bk <? ahi) eqn:E1; simpl; [|exact Hb].
  destruct (bj + bk <? bhi); simpl; [|exact Hb].
  destruct (N.eqb _ _); [|exact Hb].
  apply IH. apply Nat.ltb_lt in E1. simpl in *. lia.
Qed.

Lemma slice_length (s : str) (lo hi : nat) : length (slice s lo hi) <= hi - lo.
Proof. unfold slice. rewrite length_firstn. lia. Qed.

(** The block [find_longest_match] returns lies within [alo, ahi). *)
Lemma find_longest_match_bounds (a b : str) (alo ahi blo bhi : nat) :
  alo <= ahi ->
  in_range_a alo ahi (find_longest_match a b alo ahi blo bhi).
Proof.
  intros H. unfold find_longest_match.
  assert (in_range_a alo ahi
            (rows (popular b) (slice a alo ahi) alo (slice b blo bhi) blo []
                  (alo, blo, 0))) as H1.
  { pose proof (rows_bounds (popular b) alo (slice b blo bhi) blo
                  (slice a alo ahi) alo [] (alo, blo, 0)
                  (le_n _) (Forall_nil _)) as H1.
    pose proof (slice_length a alo ahi) as H2.
    destruct (rows _ _ _ _ _ _ _) as [[bi bj] bk].
    simpl in *. lia. }
  set (best1 := rows _ _ _ _ _ _ _) in *.
  pose proof (extend_left_bounds a b alo blo ahi (fst (fst best1) - alo) _ H1) as H2.
  set (best2 := extend_left _ _ _ _ _ _) in *.
  destruct best2 as [[bi bj] bk] eqn:E.
  apply extend_right_bounds. exact H2.
Qed.

(** More fuel than the length of the range of [a] changes nothing: the
    recursion of [matches_in] never stops for lack of fuel. *)
Lemma matches_in_fuel (a b : str) (f1 : nat) :
  forall (f2 alo ahi blo bhi : nat),
    alo <= ahi -> ahi - alo <= f1 -> ahi - alo <= f2 ->
    matches_in f1 a b alo ahi blo bhi = matches_in f2 a b alo ahi blo bhi.
Proof.
  induction f1 as [|f1 IH]; intros f2 alo ahi blo bhi Hle H1 H2.
  - destruct f2 as [|f2]; [reflexivity|]. simpl.
    pose proof (find_longest_match_bounds a b alo ahi blo bhi Hle) as Hb.
    destruct (find_longest_match a b alo ahi blo bhi) as [[i j] k].
    simpl in Hb. assert (k = 0) as -> by lia. reflexivity.
  - destruct f2 as [|f2]; simpl.
    + pose proof (find_longest_match_bounds a b alo ahi blo bhi Hle) as Hb.
      destruct (find_longest_match a b alo ahi blo bhi) as [[i j] k].
      simpl in Hb. assert (k = 0) as -> by lia. reflexivity.
    + pose proof (find_longest_match_bounds a b alo ahi blo bhi Hle) as Hb.
      destruct (find_longest_match a b alo ahi blo bhi) as [[i j] k].
      simpl in Hb. destruct (k =? 0) eqn:Ek; [reflexivity|].
      apply Nat.eqb_neq in Ek.
      rewrite (IH f2 alo i blo j) by lia.
      rewrite (IH f2 (i + k) ahi (j + k) bhi) by lia.
      reflexivity.
Qed.

Lemma matches_fuel_enough (a b : str) (extra : nat) :
  matches_in (length a + extra) a b 0 (length a) 0 (length b) = matches a b.
Proof. unfold matches. apply matches_in_fuel; lia. Qed.

End DifflibFacts.

(** ** difflib: the blocks are common to both sequences *)

Module DifflibBlocks.
Import Difflib.
Local Open Scope nat_scope.

Lemma slice_cons (s : str) (lo hi : nat) (x : N) (rest : str) :
  slice s lo hi = x :: rest ->
  x = nth lo s 0%N /\ rest = slice s (S lo) hi /\ lo < hi.
Proof.
  unfold slice. destruct (hi - lo) as [|n] eqn:En; [discriminate|].
  destruct (skipn lo s) as [|y l] eqn:E; [discriminate|].
  rewrite firstn_cons. intros [= <- <-]. repeat split.
  - pose proof (nth_skipn lo s 0 0%N) as H. rewrite E in H. simpl in H.
    now rewrite Nat.add_0_r in H.
  - replace (hi - S lo) with n by lia.
    replace (skipn (S lo) s) with (skipn 1 (skipn lo s))
      by (rewrite skipn_skipn; reflexivity).
    rewrite E. reflexivity.
  - lia.
Qed.

Section Valid.
Variables (a b : str) (alo ahi blo bhi : nat).

(** [k] elements before position [ie] of [a] and before position [je] of
    [b] agree, within the ranges. *)
Definition ends_at (ie je k : nat) : Prop :=
  k <= ie - alo /\ k <= je - blo
  /\ forall u, u < k -> nth (ie - k + u) a 0%N = nth (je - k + u) b 0%N.

(** A block within the ranges whose elements agree. *)
Definition valid_block (best : block) : Prop :=
  let '(i, j, k) := best in
  alo <= i /\ i + k <= ahi /\ blo <= j /\ j + k <= bhi
  /\ forall u, u < k -> nth (i + u) a 0%N = nth (j + u) b 0%N.

Lemma ends_at_zero (ie je : nat) : ends_at ie je 0.
Proof. unfold ends_at. repeat split; intros; lia. Qed.

Lemma ends_at_block (ie je k : nat) :
  alo <= ie -> ie <= ahi -> blo <= je -> je <= bhi ->
  ends_at ie je k -> valid_block (ie - k, je - k, k).
Proof.
  intros H1 H2 H3 H4 [Ha [Hb He]]. unfold valid_block.
  repeat split; try lia. exact He.
Qed.

Lemma row_valid (pop : N -> bool) (i : nat) :
  alo <= i -> i < ahi ->
  forall (bs : str) (j : nat) (prev : list nat) (diag : nat) (best : block),
    bs = slice b j bhi -> blo <= j -> j <= bhi ->
    ends_at i j diag ->
    (forall t, ends_at i (j + 1 + t) (nth t prev 0)) ->
    valid_block best ->
    (forall t,
        ends_at (i + 1) (j + 1 + t)
          (nth t (fst (row pop (nth i a 0%N) i bs j prev diag best)) 0))
    /\ valid_block (snd (row pop (nth i a 0%N) i bs j prev diag best)).
Proof.
  intros Hi Hi'. induction bs as [|y bs IH];
    intros j prev diag best Hbs Hj Hj' Hd Hp Hb.
  - simpl. split; [|exact Hb]. intros t. destruct t; apply ends_at_zero.
  - symmetry in Hbs. apply slice_cons in Hbs. destruct Hbs as [Hy [Hbs Hlt]].
    simpl.
    set (k := if N.eqb (nth i a 0%N) y && negb (pop y) then S diag else 0).
    assert (ends_at (i + 1) (j + 1) k) as Hk.
    { subst k. destruct (N.eqb (nth i a 0%N) y && negb (pop y)) eqn:E;
        [|apply ends_at_zero].
      apply andb_true_iff in E. destruct E as [E _]. apply N.eqb_eq in E.
      destruct Hd as [Hd1 [Hd2 Hd3]]. repeat split; try lia.
      intros u Hu. destruct (Nat.eq_dec u diag) as [-> | Hne].
      - replace (i + 1 - S diag + diag) with i by lia.
        replace (j + 1 - S diag + diag) with j by lia. congruence.
      - replace (i + 1 - S diag + u) with (i - diag + u) by lia.
        replace (j + 1 - S diag + u) with (j - diag + u) by lia.
        apply Hd3. lia. }
    set (best' := let '(_, _, bestsize) := best in
                  if (0 <? k) && (bestsize <? k)
                  then (i + 1 - k, j + 1 - k, k) else best).
    assert (valid_block best') as Hb'.
    { subst best'. destruct best as [[bi bj] bk].
      destruct ((0 <? k) && (bk <? k)); [|exact Hb].
      apply ends_at_block; try lia. exact Hk. }
    assert (ends_at i (S j) (hd 0 prev)) as Hh.
    { specialize (Hp 0). replace (j + 1 + 0) with (S j) in Hp by lia.
      destruct prev; exact Hp. }
    assert (forall t, ends_at i (S j + 1 + t) (nth t (tl prev) 0)) as Ht.
    { intros t. specialize (Hp (S t)).
      replace (j + 1 + S t) with (S j + 1 + t) in Hp by lia.
      destruct prev; [destruct t|]; exact Hp. }
    specialize (IH (S j) (tl prev) (hd 0 prev) best' Hbs
                  (Nat.le_trans _ _ _ Hj (Nat.le_succ_diag_r j)) Hlt
                  Hh Ht Hb').
    destruct (row pop (nth i a 0%N) i bs (S j) (tl prev) (hd 0 prev) best')
      as [r b''].
    simpl in *. destruct IH as [IH1 IH2]. split; [|exact IH2].
    intros [|t].
    + replace (j + 1 + 0) with (j + 1) by lia. exact Hk.
    + replace (j + 1 + S t) with (S (j + 1 + t)) by lia. apply IH1.
Qed.

Lemma rows_valid (pop : N -> bool) (bs : str) :
  bs = slice b blo bhi -> blo <= bhi ->
  forall (az : str) (i : nat) (prev : list nat) (best : block),
    az = slice a i ahi -> alo <= i -> i <= ahi ->
    (forall t, ends_at i (blo + 1 + t) (nth t prev 0)) ->
    valid_block best ->
    valid_block (rows pop az i bs blo prev best).
Proof.
  intros Hbs Hb. induction az as [|x az IH];
    intros i prev best Haz Hi Hi' Hp Hbest; simpl; [exact Hbest|].
  symmetry in Haz. apply slice_cons in Haz. destruct Haz as [-> [Haz Hlt]].
  pose proof (row_valid pop i Hi Hlt bs blo prev 0 best Hbs (le_n _) Hb
                (ends_at_zero _ _) Hp Hbest) as [H1 H2].
  destruct (row pop (nth i a 0%N) i bs blo prev 0 best) as [r best'].
  simpl in *. apply IH; try assumption; try lia.
  intros t. replace (S i) with (i + 1) by lia. apply H1.
Qed.

Lemma extend_left_valid (n : nat) (best : block) :
  valid_block best -> valid_block (extend_left a b alo blo n best).
Proof.
  revert best; induction n as [|n IH]; intros [[bi bj] bk] Hb; simpl;
    [exact Hb|].
  destruct (alo <? bi) eqn:E1; simpl; [|exact Hb].
  destruct (blo <? bj) eqn:E2; simpl; [|exact Hb].
  destruct (N.eqb _ _) eqn:E3; [|exact Hb].
  apply IH. apply Nat.ltb_lt in E1, E2. apply N.eqb_eq in E3.
  destruct Hb as [H1 [H2 [H3 [H4 H5]]]]. unfold valid_block.
  repeat split; try lia.
  intros u Hu. destruct u as [|u].
  - now rewrite !Nat.add_0_r.
  - replace (bi - 1 + S u) with (bi + u) by lia.
    replace (bj - 1 + S u) with (bj + u) by lia. apply H5. lia.
Qed.

Lemma extend_right_valid (n : nat) (best : block) :
  valid_block best -> valid_block (extend_right a b ahi bhi n best).
Proof.
  revert best; induction n as [|n IH]; intros [[bi bj] bk] Hb; simpl;
    [exact Hb|].
  destruct (bi + bk <? ahi) eqn:E1; simpl; [|exact Hb].
  destruct (bj + bk <? bhi) eqn:E2; simpl; [|exact Hb].
  destruct (N.eqb _ _) eqn:E3; [|exact Hb].
  apply IH. apply Nat.ltb_lt in E1, E2. apply N.eqb_eq in E3.
  destruct Hb as [H1 [H2 [H3 [H4 H5]]]]. unfold valid_block.
  repeat split; try lia.
  intros u Hu. destruct (Nat.eq_dec u bk) as [-> | Hne]; [exact E3|].
  apply H5. lia.
Qed.

(** The block [find_longest_match] returns lies within both ranges and
    its elements agree. *)
Lemma find_longest_match_valid :
  alo <= ahi -> blo <= bhi ->
  valid_block (find_longest_match a b alo ahi blo bhi).
Proof.
  intros Ha Hb. unfold find_longest_match.
  assert (valid_block
            (rows (popular b) (slice a alo ahi) alo (slice b blo bhi) blo []
                  (alo, blo, 0))) as H1.
  { apply rows_valid; try reflexivity; try lia.
    - intros t. destruct t; apply ends_at_zero.
    - unfold valid_block. repeat split; intros; lia. }
  set (best1 := rows _ _ _ _ _ _ _) in *.
  pose proof (extend_left_valid (fst (fst best1) - alo) _ H1) as H2.
  set (best2 := extend_left _ _ _ _ _ _) in *.
  destruct best2 as [[bi bj] bk] eqn:E.
  now apply extend_right_valid.
Qed.

End Valid.
End DifflibBlocks.

(** ** difflib: the two quick ratios are upper bounds of the ratio *)

Module DifflibBounds.
Import Difflib DifflibBlocks.
Local Open Scope nat_scope.

Lemma count_app (x : N) (l1 l2 : str) :
  count x (l1 ++ l2) = count x l1 + count x l2.
Proof. unfold count. now rewrite filter_app, length_app. Qed.

Lemma count_cons (x y : N) (l : str) :
  count x (y :: l) = (if N.eqb x y then 1 else 0) + count x l.
Proof. unfold count. simpl. now destruct (N.eqb x y). Qed.

Lemma firstn_add (n m : nat) (l : str) :
  firstn (n + m) l = firstn n l ++ firstn m (skipn n l).
Proof.
  revert l; induction n as [|n IH]; intros l; [reflexivity|].
  destruct l as [|x l]; simpl.
  - now destruct m.
  - now rewrite IH.
Qed.

Lemma slice_split (s : str) (lo mid hi : nat) :
  lo <= mid -> mid <= hi -> slice s lo hi = slice s lo mid ++ slice s mid hi.
Proof.
  intros H1 H2. unfold slice.
  replace (hi - lo) with ((mid - lo) + (hi - mid)) by lia.
  rewrite firstn_add, skipn_skipn.
  now replace (mid - lo + lo) with mid by lia.
Qed.

Lemma slice_length_exact (s : str) (lo hi : nat) :
  lo <= hi -> hi <= length s -> length (slice s lo hi) = hi - lo.
Proof.
  intros H1 H2. unfold slice. rewrite length_firstn, length_skipn. lia.
Qed.

Lemma slice_nth (s : str) (lo hi u : nat) :
  u < hi - lo -> nth u (slice s lo hi) 0%N = nth (lo + u) s 0%N.
Proof.
  intros Hu. unfold slice. rewrite nth_firstn.
  apply Nat.ltb_lt in Hu. rewrite Hu. apply nth_skipn.
Qed.

Lemma slice_all (s : str) : slice s 0 (length s) = s.
Proof. unfold slice. rewrite Nat.sub_0_r. simpl. apply firstn_all. Qed.

(** The elements of the blocks that [matches_in] counts. *)
Fixpoint blocks_in (fuel : nat) (a b : str) (alo ahi blo bhi : nat) : str :=
  match fuel with
  | 0 => []
  | S fuel' =>
      let '(i, j, k) := find_longest_match a b alo ahi blo bhi in
      if k =? 0 then []
      else
        slice a i (i + k)
        ++ (if (alo <? i) && (blo <? j)
            then blocks_in fuel' a b alo i blo j else [])
        ++ (if (i + k <? ahi) && (j + k <? bhi)
            then blocks_in fuel' a b (i + k) ahi (j + k) bhi else [])
  end.

Section Bounds.
Variables a b : str.

Lemma blocks_in_length (fuel : nat) :
  forall alo ahi blo bhi,
    alo <= ahi -> ahi <= length a -> blo <= bhi -> bhi <= length b ->
    length (blocks_in fuel a b alo ahi blo bhi)
    = matches_in fuel a b alo ahi blo bhi.
Proof.
  induction fuel as [|fuel IH]; intros alo ahi blo bhi H1 H2 H3 H4;
    [reflexivity|].
  simpl.
  pose proof (find_longest_match_valid a b alo ahi blo bhi H1 H3) as Hv.
  destruct (find_longest_match a b alo ahi blo bhi) as [[i j] k].
  destruct Hv as [V1 [V2 [V3 [V4 V5]]]].
  destruct (k =? 0); [reflexivity|].
  rewrite !length_app, slice_length_exact by lia.
  replace (i + k - i) with k by lia.
  destruct ((alo <? i) && (blo <? j));
    destruct ((i + k <? ahi) && (j + k <? bhi));
    rewrite ?IH by lia; simpl; lia.
Qed.

Lemma matches_in_le (fuel : nat) :
  forall alo ahi blo bhi,
    alo <= ahi -> blo <= bhi ->
    matches_in fuel a b alo ahi blo bhi <= Nat.min (ahi - alo) (bhi - blo).
Proof.
  induction fuel as [|fuel IH]; intros alo ahi blo bhi H1 H3; simpl;
    [lia|].
  pose proof (find_longest_match_valid a b alo ahi blo bhi H1 H3) as Hv.
  destruct (find_longest_match a b alo ahi blo bhi) as [[i j] k].
  destruct Hv as [V1 [V2 [V3 [V4 V5]]]].
  destruct (k =? 0); [lia|].
  assert (matches_in fuel a b alo i blo j <= Nat.min (i - alo) (j - blo))
    as Hl by (apply IH; lia).
  assert (matches_in fuel a b (i + k) ahi (j + k) bhi
          <= Nat.min (ahi - (i + k)) (bhi - (j + k)))
    as Hr by (apply IH; lia).
  destruct ((alo <? i) && (blo <? j));
    destruct ((i + k <? ahi) && (j + k <? bhi)); lia.
Qed.

(** The blocks are disjoint parts of each range: no element occurs more
    often in them than in the range of [a] or of [b]. *)
Lemma blocks_in_count (fuel : nat) :
  forall alo ahi blo bhi,
    alo <= ahi -> ahi <= length a -> blo <= bhi -> bhi <= length b ->
    forall x,
      count x (blocks_in fuel a b alo ahi blo bhi)
      <= count x (slice a alo ahi)
      /\ count x (blocks_in fuel a b alo ahi blo bhi)
         <= count x (slice b blo bhi).
Proof.
  induction fuel as [|fuel IH]; intros alo ahi blo bhi H1 H2 H3 H4 x.
  - simpl. unfold count at 1 3. simpl. lia.
  - simpl.
    pose proof (find_longest_match_valid a b alo ahi blo bhi H1 H3) as Hv.
    destruct (find_longest_match a b alo ahi blo bhi) as [[i j] k].
    destruct Hv as [V1 [V2 [V3 [V4 V5]]]].
    destruct (k =? 0); [unfold count at 1 3; simpl; lia|].
    assert (slice a i (i + k) = slice b j (j + k)) as Heq.
    { apply (nth_ext _ _ 0%N 0%N).
      - rewrite !slice_length_exact by lia. lia.
      - intros u Hu. rewrite slice_length_exact in Hu by lia.
        rewrite !slice_nth by lia. apply V5. lia. }
    rewrite (slice_split a alo i ahi) by lia.
    rewrite (slice_split a i (i + k) ahi) by lia.
    rewrite (slice_split b blo j bhi) by lia.
    rewrite (slice_split b j (j + k) bhi) by lia.
    rewrite !count_app, <- Heq.
    pose proof (IH alo i blo j V1 ltac:(lia) V3 ltac:(lia) x) as [Hl1 Hl2].
    pose proof (IH (i + k) ahi (j + k) bhi V2 H2 V4 H4 x) as [Hr1 Hr2].
    assert (count x [] = 0) as Hnil by reflexivity.
    destruct ((alo <? i) && (blo <? j));
      destruct ((i + k <? ahi) && (j + k <? bhi));
      rewrite ?Hnil; lia.
Qed.

End Bounds.

Lemma count_remove_one (x y : N) (s : str) :
  count x (remove_one y s)
  = if N.eqb x y then count x s - 1 else count x s.
Proof.
  induction s as [|z s IH]; simpl.
  - unfold count. simpl. now destruct (N.eqb x y).
  - destruct (N.eqb y z) eqn:Eyz.
    + apply N.eqb_eq in Eyz. subst z. rewrite count_cons.
      destruct (N.eqb x y); simpl; lia.
    + rewrite !count_cons, IH. destruct (N.eqb x y) eqn:Exy.
      * apply N.eqb_eq in Exy. subst y. rewrite Eyz. simpl. lia.
      * lia.
Qed.

Lemma length_remove_one (y : N) (s : str) :
  length s <= S (length (remove_one y s)).
Proof.
  induction s as [|z s IH]; simpl; [lia|].
  destruct (N.eqb y z); simpl; lia.
Qed.

Lemma count_zero_nil (c : str) : (forall x, count x c <= 0) -> c = [].
Proof.
  destruct c as [|y c]; [reflexivity|]. intros H. specialize (H y).
  rewrite count_cons, N.eqb_refl in H. lia.
Qed.

(** [quick_matches] is at least the size of any multiset contained in both
    sequences. *)
Lemma quick_matches_common (a : str) :
  forall b c : str,
    (forall x, count x c <= count x a) ->
    (forall x, count x c <= count x b) ->
    length c <= quick_matches a b.
Proof.
  induction a as [|y a IH]; intros b c Ha Hb.
  - rewrite (count_zero_nil c); [simpl; lia|].
    intros x. specialize (Ha x). unfold count in Ha at 2. simpl in Ha. lia.
  - simpl. destruct (0 <? count y b) eqn:E.
    + apply Nat.ltb_lt in E.
      pose proof (length_remove_one y c) as Hlen.
      assert (length (remove_one y c) <= quick_matches a (remove_one y b)).
      { apply IH; intros x; rewrite !count_remove_one;
          [specialize (Ha x); rewrite count_cons in Ha
          |specialize (Hb x)];
          destruct (N.eqb x y) eqn:Exy; lia. }
      lia.
    + apply Nat.ltb_ge in E. apply IH; [|exact Hb].
      intros x. specialize (Ha x). rewrite count_cons in Ha.
      destruct (N.eqb x y) eqn:Exy; [|lia].
      apply N.eqb_eq in Exy. subst x. specialize (Hb y). lia.
Qed.

Lemma matches_le_quick (a b : str) : matches a b <= quick_matches a b.
Proof.
  unfold matches.
  rewrite <- (blocks_in_length a b (length a) 0 (length a) 0 (length b))
    by lia.
  apply quick_matches_common; intros x;
    pose proof (blocks_in_count a b (length a) 0 (length a) 0 (length b)
                  (Nat.le_0_l _) (le_n _) (Nat.le_0_l _) (le_n _) x)
      as [H1 H2]; rewrite !slice_all in *; assumption.
Qed.

Lemma matches_le_min (a b : str) :
  matches a b <= Nat.min (length a) (length b).
Proof.
  unfold matches.
  pose proof (matches_in_le a b (length a) 0 (length a) 0 (length b)
                (Nat.le_0_l _) (Nat.le_0_l _)) as H.
  now rewrite !Nat.sub_0_r in H.
Qed.

(** The two cheaper tests of [get_close_matches] never reject what the
    ratio accepts: the test is the test on the ratio. *)
Lemma close_enough_ratio (word x : str) :
  close_enough word x = ge_cutoff (ratio x word).
Proof.
  unfold close_enough, real_quick_ratio, quick_ratio, ratio, _calculate_ratio.
  pose proof (matches_le_quick x word) as H1.
  pose proof (matches_le_min x word) as H2.
  destruct (length x + length word =? 0); [reflexivity|].
  unfold ge_cutoff. cbn [fst snd].
  destruct (6 * (length x + length word) <=? 10 * (2 * matches x word))
    eqn:E; [|now rewrite andb_false_r].
  apply Nat.leb_le in E.
  rewrite andb_true_r, andb_true_iff, !Nat.leb_le. lia.
Qed.

End DifflibBounds.

(** ** Suggestions (C8) *)

Module SuggestFacts.
Import Difflib.
Local Open Scope nat_scope.

(** [r >= s] on fractions with positive denominators. *)
Definition fraction_ge (r s : fraction) : Prop :=
  fst s * snd r <= fst r * snd s.

Definition positive (p : fraction * str) : Prop := 0 < snd (fst p).

Definition score_ge (p q : fraction * str) : Prop :=
  fraction_ge (fst p) (fst q).

Lemma fraction_ge_trans (r s t : fraction) :
  0 < snd s -> fraction_ge r s -> fraction_ge s t -> fraction_ge r t.
Proof.
  unfold fraction_ge. destruct r as [n1 d1], s as [n2 d2], t as [n3 d3].
  simpl. intros Hd H1 H2.
  apply (Nat.mul_le_mono_pos_r _ _ d2 Hd).
  transitivity (n2 * d3 * d1).
  - replace (n3 * d1 * d2) with (n3 * d2 * d1) by ring.
    apply Nat.mul_le_mono_r. exact H2.
  - replace (n2 * d3 * d1) with (n2 * d1 * d3) by ring.
    replace (n1 * d3 * d2) with (n1 * d2 * d3) by ring.
    apply Nat.mul_le_mono_r. exact H1.
Qed.

Lemma scored_ltb_true_ge (p q : fraction * str) :
  scored_ltb p q = true -> score_ge q p.
Proof.
  unfold scored_ltb, scored_compare, fraction_compare, score_ge, fraction_ge.
  destruct (Nat.compare_spec (fst (fst p) * snd (fst q))
              (fst (fst q) * snd (fst p))); try discriminate; lia.
Qed.

Lemma scored_ltb_false_ge (p q : fraction * str) :
  scored_ltb p q = false -> score_ge p q.
Proof.
  unfold scored_ltb, scored_compare, fraction_compare, score_ge, fraction_ge.
  destruct (Nat.compare_spec (fst (fst p) * snd (fst q))
              (fst (fst q) * snd (fst p))); try discriminate; lia.
Qed.

Lemma insert_desc_In (p x : fraction * str) (l : list (fraction * str)) :
  In x (insert_desc p l) <-> x = p \/ In x l.
Proof.
  induction l as [|q l IH]; simpl.
  - intuition.
  - destruct (scored_ltb p q); simpl; rewrite ?IH; intuition.
Qed.

Lemma sort_desc_In (x : fraction * str) (l : list (fraction * str)) :
  In x (sort_desc l) <-> In x l.
Proof.
  induction l as [|p l IH]; simpl; [tauto|].
  rewrite insert_desc_In, IH. intuition.
Qed.

Lemma insert_desc_length (p : fraction * str) (l : list (fraction * str)) :
  length (insert_desc p l) = S (length l).
Proof.
  induction l as [|q l IH]; simpl; [reflexivity|].
  destruct (scored_ltb p q); simpl; [now rewrite IH | reflexivity].
Qed.

Lemma insert_desc_sorted (p : fraction * str) (l : list (fraction * str)) :
  Forall positive l ->
  StronglySorted score_ge l -> StronglySorted score_ge (insert_desc p l).
Proof.
  induction l as [|q l IH]; intros Hpos Hs; simpl.
  - constructor; constructor.
  - inversion Hs as [|? ? Hs' Hq]; subst.
    inversion Hpos as [|? ? Hq0 Hpos']; subst.
    destruct (scored_ltb p q) eqn:E.
    + constructor; [now apply IH|].
      apply Forall_forall. intros x Hx. apply insert_desc_In in Hx.
      destruct Hx as [-> | Hx].
      * now apply scored_ltb_true_ge.
      * rewrite Forall_forall in Hq. now apply Hq.
    + constructor; [exact Hs|].
      apply scored_ltb_false_ge in E.
      constructor; [exact E|].
      rewrite Forall_forall in *. intros x Hx.
      apply (fraction_ge_trans _ (fst q) _ Hq0 E). now apply Hq.
Qed.

Lemma sort_desc_sorted (l : list (fraction * str)) :
  Forall positive l -> StronglySorted score_ge (sort_desc l).
Proof.
  induction l as [|p l IH]; intros Hpos; simpl; [constructor|].
  inversion Hpos; subst.
  apply insert_desc_sorted; [|now apply IH].
  apply Forall_forall. intros x Hx. rewrite sort_desc_In in Hx.
  match goal with H : Forall positive l |- _ =>
    rewrite Forall_forall in H; exact (H x Hx) end.
Qed.

Lemma sorted_app_inv (A : Type) (R : A -> A -> Prop) (l1 l2 : list A) :
  StronglySorted R (l1 ++ l2) ->
  StronglySorted R l1 /\ (forall x y, In x l1 -> In y l2 -> R x y).
Proof.
  induction l1 as [|a l1 IH]; simpl; intros H.
  - split; [constructor | contradiction].
  - inversion H as [|? ? Hs Ha]; subst. destruct (IH Hs) as [H1 H2].
    rewrite Forall_forall in Ha. split.
    + constructor; [exact H1|]. apply Forall_forall. intros x Hx.
      apply Ha, in_or_app. now left.
    + intros x y [-> | Hx] Hy.
      * apply Ha, in_or_app. now right.
      * now apply H2.
Qed.

Lemma ratio_positive (a b : str) : 0 < snd (ratio a b).
Proof.
  unfold ratio, _calculate_ratio.
  destruct (length a + length b =? 0) eqn:E; simpl; [lia|].
  apply Nat.eqb_neq in E. lia.
Qed.

(** The candidates [get_close_matches] scores, sorted, before the cut. *)
Definition ranked (word : str) (possibilities : list str)
  : list (fraction * str) :=
  sort_desc (map (fun x => (ratio x word, x))
                 (filter (close_enough word) possibilities)).

Lemma ranked_In (word : str) (possibilities : list str)
  (p : fraction * str) :
  In p (ranked word possibilities)
  <-> fst p = ratio (snd p) word /\ In (snd p) possibilities
      /\ close_enough word (snd p) = true.
Proof.
  unfold ranked. rewrite sort_desc_In, in_map_iff. split.
  - intros [x [<- Hx]]. apply filter_In in Hx. simpl. tauto.
  - intros [H1 [H2 H3]]. exists (snd p). split.
    + rewrite <- H1. now destruct p.
    + apply filter_In. tauto.
Qed.

Lemma ranked_sorted (word : str) (possibilities : list str) :
  StronglySorted score_ge (ranked word possibilities).
Proof.
  apply sort_desc_sorted. apply Forall_forall. intros p Hp.
  apply in_map_iff in Hp. destruct Hp as [x [<- _]].
  apply ratio_positive.
Qed.

Lemma sorted_map_snd (word : str) (l : list (fraction * str)) :
  Forall (fun p => fst p = ratio (snd p) word) l ->
  StronglySorted score_ge l ->
  StronglySorted (fun x y => fraction_ge (ratio x word) (ratio y word))
                 (map snd l).
Proof.
  induction l as [|p l IH]; intros Hf Hs; simpl; [constructor|].
  inversion Hf as [|? ? Hp Hf']; subst.
  inversion Hs as [|? ? Hs' Hp']; subst.
  constructor; [now apply IH|].
  rewrite Forall_forall in *. intros y Hy.
  apply in_map_iff in Hy. destruct Hy as [q [<- Hq]].
  rewrite <- Hp, <- (Hf' q Hq). now apply Hp'.
Qed.

(** What [get_close_matches] returns: at most three of the possibilities
    that pass the cutoff, best first, and no possibility that passes the
    tests is left out for a worse one. *)
Lemma get_close_matches_spec (word : str) (possibilities : list str) :
  let similarity := fun x => ratio x word in
  let result := get_close_matches word possibilities in
  length result <= 3
  /\ Forall (fun x => In x possibilities
                      /\ ge_cutoff (similarity x) = true) result
  /\ StronglySorted (fun x y => fraction_ge (similarity x) (similarity y))
                    result
  /\ (forall x, In x possibilities -> close_enough word x = true ->
                In x result
                \/ (length result = 3
                    /\ Forall (fun y => fraction_ge (similarity y)
                                                    (similarity x)) result)).
Proof.
  intros similarity result. subst result similarity.
  unfold get_close_matches, nlargest. fold (ranked word possibilities).
  pose proof (ranked_sorted word possibilities) as Hs.
  rewrite <- (firstn_skipn 3 (ranked word possibilities)) in Hs.
  apply sorted_app_inv in Hs. destruct Hs as [Hs Hcut].
  assert (forall p, In p (firstn 3 (ranked word possibilities)) ->
                    In p (ranked word possibilities)) as Hin.
  { intros p Hp. rewrite <- (firstn_skipn 3 (ranked word possibilities)).
    apply in_or_app. now left. }
  assert (Forall (fun p => fst p = ratio (snd p) word)
                 (firstn 3 (ranked word possibilities))) as Hsc.
  { apply Forall_forall. intros p Hp. apply Hin, ranked_In in Hp. tauto. }
  repeat split.
  - rewrite length_map, length_firstn. lia.
  - apply Forall_forall. intros x Hx. apply in_map_iff in Hx.
    destruct Hx as [p [<- Hp]]. apply Hin, ranked_In in Hp.
    destruct Hp as [_ [H1 H2]]. split; [exact H1|].
    unfold close_enough in H2. rewrite !andb_true_iff in H2. tauto.
  - now apply sorted_map_snd.
  - intros x Hx Hc.
    assert (In (ratio x word, x) (ranked word possibilities)) as Hr.
    { apply ranked_In. simpl. tauto. }
    rewrite <- (firstn_skipn 3 (ranked word possibilities)) in Hr.
    apply in_app_or in Hr. destruct Hr as [Hr | Hr].
    + left. apply in_map_iff. exists (ratio x word, x). tauto.
    + right. split.
      * rewrite length_map, length_firstn.
        assert (length (skipn 3 (ranked word possibilities)) <> 0) as Hl.
        { destruct (skipn 3 (ranked word possibilities));
            [contradiction | discriminate]. }
        rewrite length_skipn in Hl. lia.
      * apply Forall_forall. intros y Hy. apply in_map_iff in Hy.
        destruct Hy as [q [<- Hq]].
        specialize (Hcut q (ratio x word, x) Hq Hr).
        rewrite Forall_forall in Hsc. unfold score_ge in Hcut.
        rewrite (Hsc q Hq) in Hcut. exact Hcut.
Qed.

End SuggestFacts.

(** The leading flag marker is stripped for the comparison. *)
Definition strip_marker (c : str) : str :=
  if startswith (py "--") c then skipn 2 c else c.

(** C8: the suggestions are the candidates with the marker stripped and put
    back; each has a similarity ratio to the unknown name of at least 0.6
    (as a fraction [(n, d)]: [6 * d <= 10 * n]); there are at most three;
    they come by descending similarity; a candidate whose ratio is at least
    0.6 is only left out when three at least as similar are returned; and
    for the known names input, output, verbose and the unknown flag --inut
    the result is exactly [--input]. *)
Theorem find_similar_args_spec (arg : str) (candidates : list str) :
  let word := strip_marker arg in
  let similarity := fun c => Difflib.ratio c word in
  (exists kept : list str,
      _find_similar_args arg candidates = map (fun c => py "--" ++ c) kept
      /\ (length kept <= 3)%nat
      /\ Forall (fun c => In c (map strip_marker candidates)
                          /\ (6 * snd (similarity c)
                              <= 10 * fst (similarity c))%nat) kept
      /\ StronglySorted
           (fun c d => SuggestFacts.fraction_ge (similarity c) (similarity d))
           kept
      /\ (forall c, In c (map strip_marker candidates) ->
                    (6 * snd (similarity c) <= 10 * fst (similarity c))%nat ->
                    In c kept
                    \/ (length kept = 3%nat
                        /\ Forall (fun d => SuggestFacts.fraction_ge
                                              (similarity d) (similarity c))
                                  kept)))
  /\ _find_similar_args (py "--inut")
       [py "--input"; py "--output"; py "--verbose"] = [py "--input"]
  /\ _find_similar_args (py "--inut")
       [py "input"; py "output"; py "verbose"] = [py "--input"].
Proof.
  intros word similarity. split; [|split; vm_compute; reflexivity].
  exists (Difflib.get_close_matches word (map strip_marker candidates)).
  destruct (SuggestFacts.get_close_matches_spec word
              (map strip_marker candidates)) as [H1 [H2 [H3 H4]]].
  repeat split; try assumption.
  - apply Forall_forall. intros c Hc. rewrite Forall_forall in H2.
    destruct (H2 c Hc) as [Hin Hge]. split; [exact Hin|].
    unfold Difflib.ge_cutoff in Hge. apply Nat.leb_le in Hge. exact Hge.
  - intros c Hc Hge. apply H4; [exact Hc|].
    rewrite DifflibBounds.close_enough_ratio.
    unfold Difflib.ge_cutoff. apply Nat.leb_le. exact Hge.
Qed.

(** ** The validation loop, definition by definition *)

(** A definition with its [required] field replaced. *)
Definition set_required (r : option bool) (cfg : kwargs) : kwargs :=
  {| kw_type := kw_type cfg; kw_default := kw_default cfg;
     kw_required := r; kw_help := kw_help cfg;
     kw_env_var := kw_env_var cfg; kw_config_key := kw_config_key cfg;
     kw_validator := kw_validator cfg |}.

Section ValidationFacts.
Variable P : Platform.
Variable safe : bool.

(** A definition validated on its own: the loop body run on a namespace
    that holds only its attribute, with the value [v0]. *)
Definition validated_alone (def : str * kwargs) (v0 : value) : vstate + exn :=
  validate_step P safe
    {| v_ns := [(attr_name_of (fst def), v0)]; v_errors := []; v_calls := [] |}
    def.

Definition errors_alone (def : str * kwargs) (v0 : value) : list str :=
  match validated_alone def v0 with inl s => v_errors s | inr _ => [] end.

Definition calls_alone (def : str * kwargs) (v0 : value)
  : list (str * value) :=
  match validated_alone def v0 with inl s => v_calls s | inr _ => [] end.

Definition value_alone (def : str * kwargs) (v0 : value) : value :=
  match validated_alone def v0 with
  | inl s => getattr (v_ns s) (attr_name_of (fst def))
  | inr _ => v0
  end.

Lemma getattr_singleton (a : str) (v : value) : getattr [(a, v)] a = v.
Proof. unfold getattr. simpl. now rewrite str_eqb_refl. Qed.

(** The loop body reads and writes the attribute of its definition only,
    and appends to the errors and the calls what the definition yields on
    its own. *)
Lemma validate_step_frame (st : vstate) (def : str * kwargs) :
  let a := attr_name_of (fst def) in
  match validate_step P safe st def,
        validated_alone def (getattr (v_ns st) a) with
  | inl st1, inl s1 =>
      v_errors st1 = v_errors st ++ v_errors s1
      /\ v_calls st1 = v_calls st ++ v_calls s1
      /\ getattr (v_ns st1) a = getattr (v_ns s1) a
      /\ (forall b, b <> a -> getattr (v_ns st1) b = getattr (v_ns st) b)
  | inr e, inr e' => e = e'
  | _, _ => False
  end.
Proof.
  destruct def as [name cfg]. unfold validated_alone, validate_step.
  cbn [fst v_ns v_errors v_calls]. rewrite getattr_singleton.
  set (a := attr_name_of name). set (v0 := getattr (v_ns st) a).
  cbv zeta.
  destruct safe; destruct v0 eqn:Ev0; cbn [eliminate_unicode_maximum];
    destruct (kw_type cfg) as [t|];
    try (destruct (isinstance _ t));
    try (destruct (call_type P t _) as [cv|[]]);
    destruct (kw_validator cfg) as [check|];
    try (destruct (check _));
    cbn [v_ns v_errors v_calls app];
    rewrite ?app_nil_r, ?getattr_setattr_same;
    repeat split; try reflexivity;
    try (rewrite <- app_assoc; reflexivity);
    try (intros other Hother;
         rewrite ?getattr_setattr_other by exact Hother; reflexivity);
    try (unfold getattr at 2; simpl; rewrite str_eqb_refl; exact Ev0);
    try (rewrite getattr_singleton; exact Ev0).
Qed.

Definition attr_of (def : str * kwargs) : str := attr_name_of (fst def).

Lemma flat_map_ext_in (A B : Type) (f g : A -> list B) (l : list A) :
  (forall x, In x l -> f x = g x) -> flat_map f l = flat_map g l.
Proof.
  induction l as [|x l IH]; intros H; simpl; [reflexivity|].
  rewrite (H x (or_introl eq_refl)), IH; [reflexivity|].
  intros y Hy. apply H. now right.
Qed.

(** With pairwise distinct attribute names, the loop is the definitions
    validated one by one on the namespace it starts from: no definition is
    skipped, and none sees the failures of another. *)
Lemma validate_loop_frame (defs : list (str * kwargs)) :
  forall st : vstate,
    NoDup (map attr_of defs) ->
    match validate_loop P safe defs st with
    | inl st' =>
        v_errors st'
        = v_errors st
          ++ flat_map (fun d => errors_alone d (getattr (v_ns st) (attr_of d)))
                      defs
        /\ v_calls st'
           = v_calls st
             ++ flat_map (fun d => calls_alone d (getattr (v_ns st) (attr_of d)))
                         defs
        /\ (forall d, In d defs ->
                      validated_alone d (getattr (v_ns st) (attr_of d))
                      <> inr OverflowError
                      /\ getattr (v_ns st') (attr_of d)
                         = value_alone d (getattr (v_ns st) (attr_of d)))
        /\ (forall b, ~ In b (map attr_of defs) ->
                      getattr (v_ns st') b = getattr (v_ns st) b)
    | inr e =>
        exists d, In d defs
                  /\ validated_alone d (getattr (v_ns st) (attr_of d)) = inr e
    end.
Proof.
  induction defs as [|def defs IH]; intros st Hnd.
  - simpl. rewrite !app_nil_r. repeat split; tauto.
  - simpl validate_loop. inversion Hnd as [|? ? Hnotin Hnd']; subst.
    pose proof (validate_step_frame st def) as Hstep. cbv zeta in Hstep.
    fold (attr_of def) in Hstep.
    destruct (validate_step P safe st def) as [st1|e] eqn:E1;
      destruct (validated_alone def (getattr (v_ns st) (attr_of def)))
        as [s1|e'] eqn:E2; try contradiction.
    + destruct Hstep as [He [Hc [Hv Ho]]].
      assert (forall d, In d defs ->
                getattr (v_ns st1) (attr_of d) = getattr (v_ns st) (attr_of d))
        as Hsame.
      { intros d Hd. apply Ho. intros Heq. apply Hnotin. rewrite <- Heq.
        now apply in_map. }
      specialize (IH st1 Hnd').
      destruct (validate_loop P safe defs st1) as [st'|e].
      * destruct IH as [IHe [IHc [IHv IHo]]]. repeat split.
        -- rewrite IHe, He. simpl. unfold errors_alone at 2. rewrite E2.
           rewrite <- app_assoc. f_equal. f_equal.
           apply flat_map_ext_in. intros d Hd. now rewrite Hsame.
        -- rewrite IHc, Hc. simpl. unfold calls_alone at 2. rewrite E2.
           rewrite <- app_assoc. f_equal. f_equal.
           apply flat_map_ext_in. intros d Hd. now rewrite Hsame.
        -- destruct H as [<- | Hd]; [congruence|].
           rewrite <- (Hsame d Hd). now apply IHv.
        -- destruct H as [<- | Hd].
           ++ rewrite (IHo _ Hnotin). unfold value_alone. now rewrite E2.
           ++ rewrite <- (Hsame d Hd). now apply IHv.
        -- intros b Hb. simpl in Hb. rewrite IHo by tauto.
           apply Ho. intros Heq. apply Hb. now left.
      * destruct IH as [d [Hd Hr]]. exists d. split; [now right|].
        now rewrite <- (Hsame d Hd).
    + exists def. split; [now left|]. now rewrite E2, Hstep.
Qed.

(** The validator of a definition is called once, with the value of the
    attribute after text normalisation and before conversion. *)
Lemma calls_alone_spec (def : str * kwargs) (v0 : value) :
  match validated_alone def v0 with
  | inl _ =>
      calls_alone def v0
      = match kw_validator (snd def) with
        | Some _ =>
            [(fst def, if safe then eliminate_unicode_maximum P v0 else v0)]
        | None => []
        end
  | inr _ => True
  end.
Proof.
  destruct def as [name cfg]. unfold calls_alone, validated_alone.
  unfold validate_step. cbn [fst snd v_ns v_errors v_calls].
  rewrite getattr_singleton. cbv zeta.
  destruct safe; destruct v0; cbn [eliminate_unicode_maximum];
    destruct (kw_type cfg) as [t|];
    try (destruct (isinstance _ t));
    try (destruct (call_type P t _) as [cv|[]]);
    destruct (kw_validator cfg) as [check|];
    try (destruct (check _));
    try exact I; reflexivity.
Qed.

(** In a validation that runs to its end, the validators are called once
    each, in declaration order. *)
Lemma validate_loop_calls (defs : list (str * kwargs)) (st st' : vstate) :
  NoDup (map attr_of defs) ->
  validate_loop P safe defs st = inl st' ->
  v_calls st'
  = v_calls st
    ++ flat_map
         (fun d =>
            match kw_validator (snd d) with
            | Some _ =>
                [(fst d,
                  if safe
                  then eliminate_unicode_maximum P
                         (getattr (v_ns st) (attr_of d))
                  else getattr (v_ns st) (attr_of d))]
            | None => []
            end) defs.
Proof.
  intros Hnd Hloop. pose proof (validate_loop_frame defs st Hnd) as H.
  rewrite Hloop in H. destruct H as [_ [Hc [Hv _]]]. rewrite Hc. f_equal.
  apply flat_map_ext_in. intros d Hd.
  pose proof (calls_alone_spec d (getattr (v_ns st) (attr_of d))) as Hs.
  destruct (validated_alone d (getattr (v_ns st) (attr_of d))) as [s|e] eqn:E;
    [exact Hs|].
  destruct (Hv d Hd) as [Hno _]. exfalso. apply Hno.
  pose proof E as E'. unfold validated_alone in E'.
  apply validate_step_raises in E'. now subst e.
Qed.


(** The [required] field plays no part in the validation of a
    definition. *)
Lemma validated_alone_required (name : str) (cfg : kwargs) (r : option bool)
  (v0 : value) :
  validated_alone (name, set_required r cfg) v0
  = validated_alone (name, cfg) v0.
Proof. reflexivity. Qed.

End ValidationFacts.

(** ** The validation report *)

(** A registry with a required [input] and an [int]-typed [count] whose
    config value is a list, in both declaration orders. *)
Definition config_platform : Platform :=
  Demo.platform [(py "tool.json", [(py "--count", VList [VInt 1])])].

Definition int_kwargs : kwargs :=
  {| kw_type := Some TInt; kw_default := None; kw_required := None;
     kw_help := None; kw_env_var := None; kw_config_key := None;
     kw_validator := None |}.

Definition tool_parser : ArgumentParser :=
  add_config_file (new_parser (py "tool") true) (py "tool.json").

Definition input_count_parser : ArgumentParser :=
  add_argument config_platform
    (add_argument config_platform tool_parser (py "input") no_kwargs)
    (py "count") int_kwargs.

Definition count_input_parser : ArgumentParser :=
  add_argument config_platform
    (add_argument config_platform tool_parser (py "count") int_kwargs)
    (py "input") no_kwargs.





(** ** The validator and the coerced value (C7) *)

(** A [level] of type [str] with the integer default 5, and a validator
    that accepts strings only. *)
Definition strings_only : validator :=
  fun v => match v with VStr _ => None | _ => Some (py "not a string") end.

Definition level_parser : ArgumentParser :=
  add_argument (Demo.platform []) (new_parser (py "tool") true) (py "level")
    {| kw_type := Some TStr; kw_default := Some (VInt 5);
       kw_required := None; kw_help := None; kw_env_var := None;
       kw_config_key := None; kw_validator := Some strings_only |}.

(** C7 on the code: the validator is called once per definition, but with
    the value as it was before the conversion.  For [level], the namespace
    ends with the coerced string "5" while the validator was called with
    the integer 5 and rejected it, so the parse exits.  In general, a
    validation that runs to its end over distinct attribute names calls
    each validator once, in declaration order, with the value of the
    attribute as the parse left it, normalised when it is a string. *)
Theorem validator_receives_unconverted_value :
  validate_loop (Demo.platform []) true (args_definitions level_parser)
    {| v_ns := [(py "level", VInt 5)]; v_errors := []; v_calls := [] |}
  = inl {| v_ns := [(py "level", VStr (py "5"))];
           v_errors := [py "--level: not a string"];
           v_calls := [(py "--level", VInt 5)] |}
  /\ parse_args (Demo.platform []) level_parser [] []
     = SystemExit 1 (ValidationErrors [py "--level: not a string"])
         [py "Argument validation errors:";
          py "  - --level: not a string"]
  /\ forall (P : Platform) (p : ArgumentParser) (args : namespace)
            (st : vstate),
      NoDup (map attr_of (args_definitions p)) ->
      validate_loop P (unicode_safe p) (args_definitions p)
        {| v_ns := args; v_errors := []; v_calls := [] |} = inl st ->
      v_calls st
      = flat_map
          (fun d =>
             match kw_validator (snd d) with
             | Some _ =>
                 [(fst d,
                   if unicode_safe p
                   then eliminate_unicode_maximum P (getattr args (attr_of d))
                   else getattr args (attr_of d))]
             | None => []
             end) (args_definitions p).
Proof.
  split; [vm_compute; reflexivity|].
  split; [vm_compute; reflexivity|].
  intros P p args st Hnd Hloop.
  exact (validate_loop_calls P (unicode_safe p) (args_definitions p)
           {| v_ns := args; v_errors := []; v_calls := [] |} st Hnd Hloop).
Qed.

(** ** argparse: what the namespace holds for an action *)

Module ArgparseFacts.
Import Argparse.

Section Facts.
Variable P : Platform.

Lemma call_type_str_no_overflow (t : pytype) (s : str) :
  call_type P t (VStr s) <> inr OverflowError.
Proof.
  destruct t; simpl; try discriminate.
  - destruct (int_of_str P s); discriminate.
  - destruct (float_of_str P s); discriminate.
  - destruct s; discriminate.
Qed.

(** A conversion raises nothing but [ValueError], [TypeError] and
    [OverflowError]: the branches that catch every exception but
    [OverflowError] are the clauses for [ValueError] and [TypeError]. *)
Lemma call_type_errors (t : pytype) (v : value) (e : exn) :
  call_type P t v = inr e ->
  e = ValueError \/ e = TypeError \/ e = OverflowError.
Proof.
  destruct t, v; cbn [call_type]; try discriminate;
    try (intros [= <-]; auto).
  - destruct f; cbn [int_of_float]; try discriminate; intros [= <-]; auto.
  - destruct (int_of_str P s); [discriminate | intros [= <-]; auto].
  - destruct b; discriminate.
  - unfold float_of_int.
    destruct (binary_normalize 53 1024 n 0 false); try discriminate.
    intros [= <-]. auto.
  - destruct (float_of_str P s); [discriminate | intros [= <-]; auto].
  - destruct s; [discriminate | intros [= <-]; auto].
  - destruct l as [|x l]; [discriminate|].
    destruct (dict_of_list P (x :: l)) as [d|[]]; try discriminate;
      intros [= <-]; auto.
Qed.

Lemma call_type_str_instance (t : pytype) (s : str) (v : value) :
  call_type P t (VStr s) = inl v -> isinstance v t = true.
Proof.
  destruct t; simpl.
  - destruct (int_of_str P s); [|discriminate]. now intros [= <-].
  - destruct (float_of_str P s); [|discriminate]. now intros [= <-].
  - now intros [= <-].
  - now intros [= <-].
  - now intros [= <-].
  - destruct s; [|discriminate]. now intros [= <-].
  - discriminate.
Qed.

Lemma get_value_no_overflow (a : action) (s : str) :
  get_value P a s <> inr OverflowError.
Proof.
  unfold get_value. destruct (kind a) as [[t|]|]; try discriminate.
  apply call_type_str_no_overflow.
Qed.

(** The value the command line gives an action: the converted argument of
    a [store] action, [True] for a [store_true] action. *)
Definition cli_value (a : action) (arg : option str) : option value :=
  match kind a, arg with
  | Store _, Some s =>
      match get_value P a s with inl v => Some v | inr _ => None end
  | StoreTrue, None => Some (VBool true)
  | _, _ => None
  end.

Lemma find_action_some (o : str) (acts : list action) (a : action) :
  find_action o acts = Some a -> In a acts /\ option_string a = o.
Proof.
  induction acts as [|x acts IH]; simpl; [discriminate|].
  destruct (str_eqb o (option_string x)) eqn:E.
  - intros [= <-]. apply str_eqb_eq in E. auto.
  - intros H. destruct (IH H). auto.
Qed.

Lemma find_action_In (acts : list action) (a : action) :
  NoDup (map option_string acts) -> In a acts ->
  find_action (option_string a) acts = Some a.
Proof.
  induction acts as [|x acts IH]; simpl; [contradiction|].
  intros Hnd [-> | Hin].
  - now rewrite str_eqb_refl.
  - inversion Hnd as [|? ? Hx Hnd']; subst.
    destruct (str_eqb (option_string a) (option_string x)) eqn:E.
    + apply str_eqb_eq in E. exfalso. apply Hx. rewrite <- E.
      now apply in_map.
    + now apply IH.
Qed.

Lemma dict_get_remove_key_other (d k : str) (owners : list (str * str)) :
  d <> k -> dict_get d (remove_key k owners) = dict_get d owners.
Proof.
  intros Hne. induction owners as [|[k' v] owners IH]; simpl; [reflexivity|].
  destruct (str_eqb k k') eqn:E.
  - apply str_eqb_eq in E; subst k'. apply str_eqb_neq in Hne.
    now rewrite Hne.
  - simpl. now rewrite IH.
Qed.

Lemma consume_app (acts : list action) (l1 l2 : list (str * option str))
  (st : state) :
  consume P acts (l1 ++ l2) st
  = match consume P acts l1 st with
    | inl st1 => consume P acts l2 st1
    | inr r => inr r
    end.
Proof.
  revert st; induction l1 as [|[o arg] l1 IH]; intros st; simpl;
    [reflexivity|].
  destruct (find_action o acts) as [a|]; [|reflexivity].
  destruct (kind a), arg; try reflexivity; try apply IH.
  destruct (get_value P a s) as [v|[]]; try reflexivity. apply IH.
Qed.

(** Every way [consume] stops is an exit with status 2, for another reason
    than a missing argument. *)
Lemma consume_exit (acts : list action) (occ : list (str * option str)) :
  forall (st : state) (r : result),
    consume P acts occ st = inr r ->
    exists why, r = Exit 2 (Some why)
                /\ forall names, why <> MissingRequired names.
Proof.
  induction occ as [|[o arg] occ IH]; intros st r; simpl; [discriminate|].
  destruct (find_action o acts) as [a|];
    [|intros [= <-]; eexists; split; [reflexivity | discriminate]].
  destruct (kind a), arg;
    try (intros [= <-]; eexists; split; [reflexivity | discriminate]);
    try apply IH.
  pose proof (get_value_no_overflow a s) as Hno.
  destruct (get_value P a s) as [v|[]]; try apply IH;
    try (intros [= <-]; eexists; split; [reflexivity | discriminate]).
  congruence.
Qed.

(** Occurrences of other actions leave an attribute, its owner and whether
    an action was seen as they are. *)
Lemma consume_other (acts : list action) (d o0 : str)
  (occ : list (str * option str)) :
  forall st st' : state,
    (forall o arg a, In (o, arg) occ -> find_action o acts = Some a ->
                     dest a <> d /\ o <> o0) ->
    consume P acts occ st = inl st' ->
    getattr (st_ns st') d = getattr (st_ns st) d
    /\ dict_get d (st_owner st') = dict_get d (st_owner st)
    /\ existsb (str_eqb o0) (st_seen st') = existsb (str_eqb o0) (st_seen st).
Proof.
  induction occ as [|[o arg] occ IH]; intros st st' Hocc; simpl.
  - intros [= <-]. auto.
  - destruct (find_action o acts) as [a|] eqn:Ef; [|discriminate].
    destruct (Hocc o arg a (or_introl eq_refl) Ef) as [Hd Ho].
    assert (forall o arg a, In (o, arg) occ -> find_action o acts = Some a ->
                            dest a <> d /\ o <> o0) as Hocc'.
    { intros o' arg' a' Hin. apply (Hocc o' arg' a'). now right. }
    assert (forall v, consume P acts occ (store st a v) = inl st' ->
              getattr (st_ns st') d = getattr (st_ns st) d
              /\ dict_get d (st_owner st') = dict_get d (st_owner st)
              /\ existsb (str_eqb o0) (st_seen st')
                 = existsb (str_eqb o0) (st_seen st)) as Hstore.
    { intros v Hc. destruct (IH _ _ Hocc' Hc) as [H1 [H2 H3]].
      rewrite H1, H2, H3. unfold store. cbn [st_ns st_owner st_seen].
      rewrite getattr_setattr_other by congruence.
      rewrite dict_get_remove_key_other by congruence.
      simpl. destruct (find_action_some _ _ _ Ef) as [_ Hopt].
      rewrite Hopt. replace (str_eqb o0 o) with false; [auto|].
      symmetry. apply str_eqb_neq. congruence. }
    destruct (kind a), arg; try discriminate.
    + destruct (get_value P a s) as [v|[]]; try discriminate. apply Hstore.
    + apply Hstore.
Qed.

Lemma consume_seen_mono (acts : list action) (o0 : str)
  (occ : list (str * option str)) :
  forall st st' : state,
    consume P acts occ st = inl st' ->
    existsb (str_eqb o0) (st_seen st) = true ->
    existsb (str_eqb o0) (st_seen st') = true.
Proof.
  induction occ as [|[o arg] occ IH]; intros st st'; simpl.
  - now intros [= <-].
  - destruct (find_action o acts) as [a|]; [|discriminate].
    assert (forall v, existsb (str_eqb o0) (st_seen st) = true ->
              existsb (str_eqb o0) (st_seen (store st a v)) = true) as Hs.
    { intros v H. simpl. rewrite H. apply orb_true_r. }
    destruct (kind a), arg; try discriminate.
    + destruct (get_value P a s) as [v|[]]; try discriminate.
      intros Hc H. eapply IH; eauto.
    + intros Hc H. eapply IH; eauto.
Qed.

(** The last occurrence of an option decides its attribute. *)
Lemma consume_last_occurrence (acts : list action) (a0 : action)
  (before after : list (str * option str)) (arg : option str)
  (st st' : state) :
  find_action (option_string a0) acts = Some a0 ->
  (forall a, In a acts -> dest a = dest a0 -> a = a0) ->
  ~ In (option_string a0) (map fst after) ->
  consume P acts (before ++ (option_string a0, arg) :: after) st = inl st' ->
  exists v, cli_value a0 arg = Some v
            /\ getattr (st_ns st') (dest a0) = v
            /\ seen st' a0 = true.
Proof.
  intros Hfind Huniq Hafter. rewrite consume_app.
  destruct (consume P acts before st) as [st1|]; [|discriminate].
  simpl. rewrite Hfind. unfold cli_value.
  assert (forall v, consume P acts after (store st1 a0 v) = inl st' ->
            getattr (st_ns st') (dest a0) = v /\ seen st' a0 = true) as Hrest.
  { intros v Hc. split.
    - destruct (consume_other acts (dest a0) (option_string a0) after
                  (store st1 a0 v) st') as [H1 _]; [|exact Hc|].
      + intros o arg' a Hin Hf.
        destruct (find_action_some _ _ _ Hf) as [Ha Ho].
        assert (o <> option_string a0) as Hne.
        { intros ->. apply Hafter.
          change (option_string a0) with (fst (option_string a0, arg')).
          now apply in_map. }
        split; [|exact Hne].
        intros Hd. apply Hne. rewrite <- Ho.
        now rewrite (Huniq a Ha Hd).
      + rewrite H1. apply getattr_setattr_same.
    - unfold seen. eapply consume_seen_mono; [exact Hc|].
      simpl. now rewrite str_eqb_refl. }
  destruct (kind a0), arg; try discriminate.
  - destruct (get_value P a0 s) as [v|[]]; try discriminate.
    intros Hc. exists v. split; [reflexivity|]. now apply Hrest.
  - intros Hc. exists (VBool true). split; [reflexivity|]. now apply Hrest.
Qed.

Lemma dict_mem_true (V : Type) (k : str) (d : list (str * V)) :
  dict_mem k d = true <-> exists v, dict_get k d = Some v.
Proof.
  unfold dict_mem. destruct (dict_get k d) as [v|].
  - split; [eauto | reflexivity].
  - split; [discriminate | intros [v H]; discriminate].
Qed.

Lemma init_defaults_seen (acts : list action) :
  forall st, st_seen (init_defaults acts st) = st_seen st.
Proof.
  induction acts as [|a acts IH]; intros st; simpl; [reflexivity|].
  destruct (dict_mem (dest a) (st_ns st)); rewrite IH; reflexivity.
Qed.

(** An attribute that is set is left alone by the defaults. *)
Lemma init_defaults_keep (acts : list action) (d : str) :
  forall st,
    dict_mem d (st_ns st) = true ->
    dict_get d (st_ns (init_defaults acts st)) = dict_get d (st_ns st)
    /\ dict_get d (st_owner (init_defaults acts st))
       = dict_get d (st_owner st).
Proof.
  induction acts as [|a acts IH]; intros st Hmem; simpl; [auto|].
  destruct (dict_mem (dest a) (st_ns st)) eqn:E; [now apply IH|].
  assert (d <> dest a) as Hne by (intros ->; congruence).
  destruct (IH {| st_ns := setattr (st_ns st) (dest a) (default a);
                  st_owner := dict_set (dest a) (option_string a)
                                (st_owner st);
                  st_seen := st_seen st |}) as [H1 H2].
  - cbn [st_ns]. unfold dict_mem, setattr in *.
    now rewrite dict_get_set_other.
  - rewrite H1, H2. cbn [st_ns st_owner]. unfold setattr.
    now rewrite !dict_get_set_other.
Qed.

(** The first action of an attribute puts its default there and owns it. *)
Lemma init_defaults_get (acts : list action) (a0 : action) :
  forall st,
    (forall a, In a acts -> dest a = dest a0 -> a = a0) ->
    In a0 acts ->
    dict_mem (dest a0) (st_ns st) = false ->
    dict_get (dest a0) (st_ns (init_defaults acts st)) = Some (default a0)
    /\ dict_get (dest a0) (st_owner (init_defaults acts st))
       = Some (option_string a0).
Proof.
  induction acts as [|a acts IH]; intros st Huniq Hin Hmem; simpl;
    [contradiction|].
  destruct (str_eqb (dest a) (dest a0)) eqn:Ed.
  - apply str_eqb_eq in Ed.
    assert (a = a0) as -> by (apply Huniq; [now left | exact Ed]).
    rewrite Hmem.
    destruct (init_defaults_keep acts (dest a0)
                {| st_ns := setattr (st_ns st) (dest a0) (default a0);
                   st_owner := dict_set (dest a0) (option_string a0)
                                 (st_owner st);
                   st_seen := st_seen st |}) as [H1 H2].
    + cbn [st_ns]. apply dict_mem_true. eexists. unfold setattr.
      apply dict_get_set_same.
    + rewrite H1, H2. cbn [st_ns st_owner]. unfold setattr.
      now rewrite !dict_get_set_same.
  - apply str_eqb_neq in Ed.
    assert (In a0 acts) as Hin'.
    { destruct Hin as [-> | Hin]; [congruence | exact Hin]. }
    assert (forall a, In a acts -> dest a = dest a0 -> a = a0) as Huniq'.
    { intros x Hx. apply Huniq. now right. }
    destruct (dict_mem (dest a) (st_ns st)); [now apply IH|].
    apply IH; try assumption. cbn [st_ns]. unfold dict_mem, setattr in *.
    rewrite dict_get_set_other by congruence. exact Hmem.
Qed.

(** [finish] leaves the attribute of the actions that were seen. *)
Lemma finish_untouched (acts : list action) (d : str) :
  forall (st : state) (missing : list str) (ns : namespace),
    (forall a, In a acts -> dest a = d -> seen st a = true) ->
    finish P acts st missing = Parsed ns ->
    getattr ns d = getattr (st_ns st) d.
Proof.
  induction acts as [|a acts IH]; intros st missing ns Hseen; simpl.
  - destruct missing; [|discriminate]. now intros [= <-].
  - assert (forall x, In x acts -> dest x = d -> seen st x = true) as Hseen'.
    { intros x Hx. apply Hseen. now right. }
    destruct (seen st a) eqn:Es; [now apply IH|].
    destruct (required a); [now apply IH|].
    assert (dest a <> d) as Hne.
    { intros Hd. rewrite (Hseen a (or_introl eq_refl) Hd) in Es.
      discriminate. }
    destruct (default a); try (now apply IH).
    destruct (dict_get (dest a) (st_owner st)); [|now apply IH].
    destruct (str_eqb s0 (option_string a)); [|now apply IH].
    destruct (get_value P a s) as [v|[]]; try discriminate.
    intros Hf. apply IH in Hf; [|exact Hseen'].
    rewrite Hf. cbn [st_ns]. apply getattr_setattr_other. congruence.
Qed.

(** What the namespace holds for an action that was not seen and is not
    required: its default, converted when it is a string the namespace
    still owns. *)
Definition resolved_default (a : action) (st : state) : value :=
  match default a, dict_get (dest a) (st_owner st) with
  | VStr s, Some owner =>
      if str_eqb owner (option_string a)
      then match get_value P a s with
           | inl v => v
           | inr _ => getattr (st_ns st) (dest a)
           end
      else getattr (st_ns st) (dest a)
  | _, _ => getattr (st_ns st) (dest a)
  end.

Lemma finish_unseen_default (acts : list action) (a0 : action) :
  forall (st : state) (missing : list str) (ns : namespace),
    NoDup (map dest acts) ->
    In a0 acts ->
    seen st a0 = false ->
    required a0 = false ->
    finish P acts st missing = Parsed ns ->
    getattr ns (dest a0) = resolved_default a0 st.
Proof.
  induction acts as [|a acts IH]; intros st missing ns Hnd Hin Hs Hr;
    [contradiction|].
  inversion Hnd as [|? ? Hnotin Hnd']; subst.
  destruct Hin as [-> | Hin].
  - simpl. rewrite Hs, Hr. unfold resolved_default.
    assert (forall st1 m, finish P acts st1 m = Parsed ns ->
              getattr ns (dest a0) = getattr (st_ns st1) (dest a0)) as Hrest.
    { intros st1 m. apply finish_untouched. intros x Hx Hd.
      exfalso. apply Hnotin. rewrite <- Hd. now apply in_map. }
    destruct (default a0); try (now apply Hrest).
    destruct (dict_get (dest a0) (st_owner st)); [|now apply Hrest].
    destruct (str_eqb s0 (option_string a0)); [|now apply Hrest].
    destruct (get_value P a0 s) as [v|[]]; try discriminate.
    intros Hf. apply Hrest in Hf. rewrite Hf. cbn [st_ns].
    apply getattr_setattr_same.
  - assert (dest a <> dest a0) as Hne.
    { intros Hd. apply Hnotin. rewrite Hd. now apply in_map. }
    simpl. destruct (seen st a); [now apply IH|].
    destruct (required a); [now apply IH|].
    destruct (default a); try (now apply IH).
    destruct (dict_get (dest a) (st_owner st)); [|now apply IH].
    destruct (str_eqb s0 (option_string a)); [|now apply IH].
    destruct (get_value P a s) as [v|[]]; try discriminate.
    intros Hf. apply IH in Hf; try assumption.
    rewrite Hf. unfold resolved_default. cbn [st_ns st_owner].
    now rewrite getattr_setattr_other by congruence.
Qed.

(** With a required action that was not seen, [finish] exits. *)
Lemma finish_exit (acts : list action) :
  forall (st : state) (missing : list str),
    (missing <> []
     \/ exists a, In a acts /\ seen st a = false /\ required a = true) ->
    exists why, finish P acts st missing = Exit 2 (Some why).
Proof.
  induction acts as [|a acts IH]; intros st missing H; simpl.
  - destruct H as [H | [a [[] _]]].
    destruct missing; [congruence|]. eexists. reflexivity.
  - destruct (seen st a) eqn:Es.
    + apply IH. destruct H as [H | [x [[-> | Hx] [H1 H2]]]]; [now left| |].
      * congruence.
      * right. eauto.
    + destruct (required a) eqn:Er.
      * apply IH. left. destruct missing; discriminate.
      * assert (missing <> []
                \/ exists x, In x acts /\ seen st x = false
                             /\ required x = true) as H'.
        { destruct H as [H | [x [[-> | Hx] [H1 H2]]]]; [now left| |].
          - congruence.
          - right. eauto. }
        destruct (default a); try (now apply IH).
        destruct (dict_get (dest a) (st_owner st)); [|now apply IH].
        destruct (str_eqb s0 (option_string a)); [|now apply IH].
        pose proof (get_value_no_overflow a s) as Hno.
        destruct (get_value P a s) as [v|[]];
          try (eexists; reflexivity); [|congruence].
        apply IH. exact H'.
Qed.

Lemma finish_missing_names (acts : list action) :
  forall (st : state) (missing names : list str) (code : Z),
    finish P acts st missing = Exit code (Some (MissingRequired names)) ->
    (forall x, In x missing -> In x names)
    /\ (forall a, In a acts -> seen st a = false -> required a = true ->
                  In (option_string a) names).
Proof.
  induction acts as [|a acts IH]; intros st missing names code; simpl.
  - destruct missing; [discriminate|]. intros [= _ <-].
    split; [auto | contradiction].
  - destruct (seen st a) eqn:Es.
    + intros Hf. destruct (IH _ _ _ _ Hf) as [H1 H2]. split; [exact H1|].
      intros x [-> | Hx]; [congruence | now apply H2].
    + destruct (required a) eqn:Er.
      * intros Hf. destruct (IH _ _ _ _ Hf) as [H1 H2]. split.
        -- intros x Hx. apply H1, in_or_app. now left.
        -- intros x [-> | Hx] Hsx Hrx.
           ++ apply H1, in_or_app. right. now left.
           ++ now apply H2.
      * assert (forall st1,
                  seen st1 = seen st ->
                  finish P acts st1 missing
                  = Exit code (Some (MissingRequired names)) ->
                  (forall x, In x missing -> In x names)
                  /\ (forall x, In x (a :: acts) -> seen st x = false ->
                                required x = true ->
                                In (option_string x) names)) as Hrest.
        { intros st1 Hsame Hf. destruct (IH _ _ _ _ Hf) as [H1 H2].
          split; [exact H1|].
          intros x [-> | Hx]; [congruence|]. rewrite <- Hsame.
          now apply H2. }
        destruct (default a); try (now apply Hrest).
        destruct (dict_get (dest a) (st_owner st)); [|now apply Hrest].
        destruct (str_eqb s0 (option_string a)); [|now apply Hrest].
        destruct (get_value P a s) as [v|[]]; try discriminate.
        now apply Hrest.
Qed.

End Facts.
End ArgparseFacts.

(** ** From the registry to the namespace *)

(** A registry name as [add_argument] stores it for a flag that does not
    itself start with a hyphen: two hyphens, then no third. *)
Definition plain (name : str) : Prop :=
  startswith (py "--") name = true /\ startswith (py "---") name = false.

(** The registries the theorems below speak of: plain names, and no two
    names with the same attribute. *)
Definition registry_ok (p : ArgumentParser) : Prop :=
  Forall plain (map fst (args_definitions p))
  /\ NoDup (map attr_of (args_definitions p)).

(** What the tokenizer is told about the registry: each option string,
    whether it takes an argument, and its help string. *)
Definition option_specs (p : ArgumentParser) : list option_spec :=
  map (fun def =>
         {| spec_option_string := fst def;
            spec_takes_argument :=
              match kw_type (snd def) with
              | Some TBool => false
              | _ => true
              end;
            spec_help := kw_help (snd def) |})
      (args_definitions p).

(** The registries [argparse] accepts: every [parser.add_argument] of
    [parse_args] returns. *)
Definition accepted (p : ArgumentParser) : Prop :=
  Argparse.add_arguments Argparse.initial_option_strings
    (map fst (args_definitions p)) = None.

(** The argument vector as the tokenizer gets it. *)
Definition normalized_args (P : Platform) (p : ArgumentParser)
  (args : list str) : list str :=
  if unicode_safe p then map (eliminate_unicode_maximum_str P) args else args.

(** The value the command line supplies for a definition: the converted
    argument, or [True] for a flag of type [bool]. *)
Definition command_line_value (P : Platform) (cfg : kwargs)
  (arg : option str) : option value :=
  match kw_type cfg, arg with
  | Some TBool, None => Some (VBool true)
  | Some TBool, Some _ => None
  | Some t, Some s =>
      match call_type P t (VStr s) with inl v => Some v | inr _ => None end
  | None, Some s => Some (VStr s)
  | _, None => None
  end.

(** The default as [argparse] stores it when the flag is absent: a string
    default goes through the type of a [store] action. *)
Definition stored_default (P : Platform) (cfg : kwargs) (d : value) : value :=
  match d, kw_type cfg with
  | VStr _, Some TBool => d
  | VStr _, Some t =>
      match call_type P t d with inl v => v | inr _ => d end
  | _, _ => d
  end.

Section ParserFacts.
Variable P : Platform.
Variable p : ArgumentParser.
Variable environ : list (str * str).

Definition actions_of : list Argparse.action :=
  map (make_action (_load_config_defaults P p)
         (_load_env_defaults P p environ))
      (args_definitions p).

Lemma plain_dest (name : str) :
  plain name -> Argparse.dest_of name = attr_name_of name.
Proof.
  intros [H1 H2]. unfold Argparse.dest_of, attr_name_of. f_equal.
  destruct name as [|c1 [|c2 rest]]; try discriminate.
  { change (N.eqb 45 c1 && false = true) in H1.
    rewrite andb_false_r in H1. discriminate. }
  change (N.eqb 45 c1 && (N.eqb 45 c2 && true) = true) in H1.
  rewrite !andb_true_iff, !N.eqb_eq in H1.
  destruct H1 as [<- [<- _]].
  destruct rest as [|c3 rest]; [reflexivity|].
  change (true && (true && (N.eqb 45 c3 && true)) = false) in H2.
  change (lstrip_hyphens (45%N :: 45%N :: c3 :: rest))
    with (if N.eqb c3 45 then lstrip_hyphens rest else c3 :: rest).
  rewrite N.eqb_sym. destruct (N.eqb 45 c3); [discriminate | reflexivity].
Qed.

Hypothesis Hok : registry_ok p.

Lemma actions_dest : map Argparse.dest actions_of
                     = map attr_of (args_definitions p).
Proof.
  destruct Hok as [Hplain _]. unfold actions_of. rewrite map_map.
  apply map_ext_in. intros [name cfg] Hin. simpl.
  apply plain_dest. rewrite Forall_forall in Hplain. apply Hplain.
  change name with (fst (name, cfg)). now apply in_map.
Qed.

Lemma actions_option_string :
  map Argparse.option_string actions_of = map fst (args_definitions p).
Proof.
  unfold actions_of. rewrite map_map. apply map_ext. now intros [name cfg].
Qed.

Lemma actions_specs : map Argparse.spec_of actions_of = option_specs p.
Proof.
  unfold actions_of, option_specs. rewrite map_map. apply map_ext.
  intros [name cfg]. unfold Argparse.spec_of, Argparse.takes_argument. simpl.
  destruct (kw_type cfg) as [[]|]; reflexivity.
Qed.

Lemma actions_nodup_dest : NoDup (map Argparse.dest actions_of).
Proof. rewrite actions_dest. apply Hok. Qed.

Lemma actions_nodup_option_string :
  NoDup (map Argparse.option_string actions_of).
Proof.
  rewrite actions_option_string. destruct Hok as [_ Hnd].
  unfold attr_of in Hnd. rewrite <- map_map in Hnd.
  now apply NoDup_map_inv in Hnd.
Qed.

Lemma nodup_map_injective (A B : Type) (f : A -> B) (l : list A) (x y : A) :
  NoDup (map f l) -> In x l -> In y l -> f x = f y -> x = y.
Proof.
  induction l as [|z l IH]; simpl; [contradiction|].
  intros Hnd Hx Hy Hf. inversion Hnd as [|? ? Hz Hnd']; subst.
  destruct Hx as [-> | Hx], Hy as [-> | Hy]; auto.
  - exfalso. apply Hz. rewrite Hf. now apply in_map.
  - exfalso. apply Hz. rewrite <- Hf. now apply in_map.
Qed.

Variable name : str.
Variable cfg : kwargs.
Hypothesis Hin : In (name, cfg) (args_definitions p).

Definition action_of : Argparse.action :=
  make_action (_load_config_defaults P p) (_load_env_defaults P p environ)
    (name, cfg).

Lemma action_of_In : In action_of actions_of.
Proof. unfold actions_of, action_of. now apply in_map. Qed.

Lemma action_of_dest : Argparse.dest action_of = attr_name_of name.
Proof.
  simpl. apply plain_dest. destruct Hok as [Hplain _].
  rewrite Forall_forall in Hplain. apply Hplain.
  change name with (fst (name, cfg)). now apply in_map.
Qed.

Lemma action_of_unique (a : Argparse.action) :
  In a actions_of -> Argparse.dest a = Argparse.dest action_of ->
  a = action_of.
Proof.
  intros Ha Hd.
  exact (nodup_map_injective _ _ Argparse.dest actions_of a action_of
           actions_nodup_dest Ha action_of_In Hd).
Qed.

Lemma action_of_found :
  Argparse.find_action name actions_of = Some action_of.
Proof.
  change name with (Argparse.option_string action_of).
  apply ArgparseFacts.find_action_In.
  - apply actions_nodup_option_string.
  - apply action_of_In.
Qed.

Lemma cli_value_action (arg : option str) :
  ArgparseFacts.cli_value P action_of arg = command_line_value P cfg arg.
Proof.
  unfold ArgparseFacts.cli_value, command_line_value, Argparse.get_value.
  simpl. destruct (kw_type cfg) as [[]|], arg; reflexivity.
Qed.

(** A parse that returns went through [argparse] and the validation. *)
Lemma parse_args_returned (args : list str) (ns : namespace) :
  parse_args P p environ args = Returned ns ->
  exists ns0,
    Argparse.parse_args P actions_of (normalized_args P p args)
    = Argparse.Parsed ns0
    /\ _validate_args P p ns0 = Returned ns.
Proof.
  unfold parse_args. cbv zeta. fold (normalized_args P p args).
  fold actions_of. rewrite actions_option_string.
  destruct (Argparse.add_arguments _ _); [discriminate|].
  destruct (Argparse.parse_args P actions_of (normalized_args P p args))
    as [ns0|code why|e].
  - destruct (_validate_args P p ns0) as [ns'|code cause out|e] eqn:E.
    + intros [= <-]. exists ns0. auto.
    + destruct (normalized_args P p args); discriminate.
    + discriminate.
  - destruct (normalized_args P p args); discriminate.
  - discriminate.
Qed.

(** A registry that [argparse] refuses: the exception escapes. *)
Lemma parse_args_rejected (args : list str) (e : exn) :
  Argparse.add_arguments Argparse.initial_option_strings
    (map fst (args_definitions p)) = Some e ->
  parse_args P p environ args = Raised e.
Proof.
  intros H. unfold parse_args. cbv zeta. fold actions_of.
  rewrite actions_option_string, H. reflexivity.
Qed.

(** After a validation that returns, the attribute of a definition holds
    what the definition validated on its own gives. *)
Lemma validate_args_value (ns0 ns : namespace) :
  _validate_args P p ns0 = Returned ns ->
  getattr ns (attr_name_of name)
  = value_alone P (unicode_safe p) (name, cfg)
      (getattr ns0 (attr_name_of name)).
Proof.
  unfold _validate_args. destruct Hok as [_ Hnd].
  pose proof (validate_loop_frame P (unicode_safe p) (args_definitions p)
                {| v_ns := ns0; v_errors := []; v_calls := [] |} Hnd) as Hl.
  destruct (validate_loop P (unicode_safe p) (args_definitions p) _)
    as [st|e]; [|discriminate].
  destruct (v_errors st); [|discriminate].
  intros [= <-]. destruct Hl as [_ [_ [Hv _]]].
  exact (proj2 (Hv (name, cfg) Hin)).
Qed.

End ParserFacts.

Section NamespaceFacts.
Variable P : Platform.
Variable p : ArgumentParser.
Variable environ : list (str * str).
Hypothesis Hok : registry_ok p.
Variable name : str.
Variable cfg : kwargs.
Hypothesis Hin : In (name, cfg) (args_definitions p).
Variable args : list str.

Let acts := actions_of P p environ.
Let a0 := action_of P p environ name cfg.

(** The flag on the command line: [argparse] stores its value. *)
Lemma argparse_command_line (before after : list (str * option str))
  (arg : option str) (ns0 : namespace) :
  tokenize P (option_specs p) (normalized_args P p args)
  = TokOk (before ++ (name, arg) :: after) ->
  ~ In name (map fst after) ->
  Argparse.parse_args P acts (normalized_args P p args)
  = Argparse.Parsed ns0 ->
  exists v, command_line_value P cfg arg = Some v
            /\ getattr ns0 (attr_name_of name) = v.
Proof.
  intros Htok Hafter. unfold Argparse.parse_args. subst acts.
  rewrite (actions_specs P p environ), Htok.
  destruct (Argparse.consume P (actions_of P p environ) _ _) as [st|r] eqn:Ec;
    [|intros ->; destruct (ArgparseFacts.consume_exit P _ _ _ _ Ec)
                   as [why [Hw _]]; discriminate].
  intros Hf.
  destruct (ArgparseFacts.consume_last_occurrence P
              (actions_of P p environ) a0 before after arg _ st
              (action_of_found P p environ Hok name cfg Hin)
              (action_of_unique P p environ Hok name cfg Hin)
              Hafter Ec) as [v [Hv [Hget Hseen]]].
  exists v. split.
  - rewrite <- (cli_value_action P p environ name cfg). exact Hv.
  - rewrite <- (action_of_dest P p environ Hok name cfg Hin).
    rewrite <- Hget.
    apply (ArgparseFacts.finish_untouched P (actions_of P p environ)
             (Argparse.dest a0) st [] ns0); [|exact Hf].
    intros a Ha Hd.
    now rewrite (action_of_unique P p environ Hok name cfg Hin a Ha Hd).
Qed.

Lemma no_occurrence (occ : list (str * option str)) :
  ~ In name (map fst occ) ->
  forall o arg a, In (o, arg) occ ->
                  Argparse.find_action o (actions_of P p environ) = Some a ->
                  Argparse.dest a <> Argparse.dest a0 /\ o <> name.
Proof.
  intros Hocc o arg a Ho Hf.
  assert (o <> name) as Hne.
  { intros ->. apply Hocc. change name with (fst (name, arg)).
    now apply in_map. }
  split; [|exact Hne].
  destruct (ArgparseFacts.find_action_some _ _ _ Hf) as [Ha Hopt].
  intros Hd. apply Hne. rewrite <- Hopt.
  now rewrite (action_of_unique P p environ Hok name cfg Hin a Ha Hd).
Qed.

(** The state after the command line when the flag does not occur: the
    attribute holds the merged default, which the action still owns, and
    the action was not seen. *)
Lemma consume_without_flag (occ : list (str * option str))
  (st : Argparse.state) :
  ~ In name (map fst occ) ->
  Argparse.consume P (actions_of P p environ) occ
    (Argparse.init_defaults (actions_of P p environ)
       {| Argparse.st_ns := []; Argparse.st_owner := [];
          Argparse.st_seen := [] |}) = inl st ->
  getattr (Argparse.st_ns st) (Argparse.dest a0) = Argparse.default a0
  /\ dict_get (Argparse.dest a0) (Argparse.st_owner st) = Some name
  /\ Argparse.seen st a0 = false.
Proof.
  intros Hocc Hc.
  destruct (ArgparseFacts.consume_other P (actions_of P p environ)
              (Argparse.dest a0) name occ _ st (no_occurrence occ Hocc) Hc)
    as [H1 [H2 H3]].
  destruct (ArgparseFacts.init_defaults_get (actions_of P p environ) a0
              {| Argparse.st_ns := []; Argparse.st_owner := [];
                 Argparse.st_seen := [] |}
              (action_of_unique P p environ Hok name cfg Hin)
              (action_of_In P p environ name cfg Hin) eq_refl)
    as [H4 H5].
  unfold getattr in *. rewrite H1, H2, H4, H5.
  repeat split. unfold Argparse.seen.
  change (Argparse.option_string a0) with name. rewrite H3.
  now rewrite ArgparseFacts.init_defaults_seen.
Qed.

(** The flag absent and not required: the namespace gets the merged
    default as [argparse] stores it. *)
Lemma argparse_default (occ : list (str * option str)) (ns0 : namespace) :
  tokenize P (option_specs p) (normalized_args P p args) = TokOk occ ->
  ~ In name (map fst occ) ->
  Argparse.required a0 = false ->
  Argparse.parse_args P acts (normalized_args P p args)
  = Argparse.Parsed ns0 ->
  getattr ns0 (attr_name_of name)
  = stored_default P cfg (Argparse.default a0).
Proof.
  intros Htok Hocc Hreq. unfold Argparse.parse_args. subst acts.
  rewrite (actions_specs P p environ), Htok.
  destruct (Argparse.consume P (actions_of P p environ) _ _) as [st|r] eqn:Ec;
    [|intros ->; destruct (ArgparseFacts.consume_exit P _ _ _ _ Ec)
                   as [why [Hw _]]; discriminate].
  intros Hf.
  destruct (consume_without_flag occ st Hocc Ec) as [Hns [Hown Hseen]].
  rewrite <- (action_of_dest P p environ Hok name cfg Hin). fold a0.
  rewrite (ArgparseFacts.finish_unseen_default P (actions_of P p environ) a0
             st [] ns0 (actions_nodup_dest P p environ Hok)
             (action_of_In P p environ name cfg Hin) Hseen Hreq Hf).
  unfold ArgparseFacts.resolved_default. rewrite Hown, Hns.
  change (Argparse.option_string a0) with name. rewrite str_eqb_refl.
  unfold stored_default, Argparse.get_value.
  change (Argparse.kind a0)
    with (match kw_type cfg with
          | Some TBool => Argparse.StoreTrue
          | t => Argparse.Store t
          end).
  destruct (Argparse.default a0); try reflexivity.
  destruct (kw_type cfg) as [[]|]; try reflexivity;
    match goal with |- context [call_type P ?t ?v] =>
      destruct (call_type P t v); reflexivity end.
Qed.

(** The flag absent and required: the parse exits with status 2, and when
    [argparse] reports missing arguments the flag is one of them. *)
Lemma argparse_required (occ : list (str * option str)) :
  tokenize P (option_specs p) (normalized_args P p args) = TokOk occ ->
  ~ In name (map fst occ) ->
  Argparse.required a0 = true ->
  exists why,
    Argparse.parse_args P acts (normalized_args P p args)
    = Argparse.Exit 2 (Some why)
    /\ forall names, why = Argparse.MissingRequired names -> In name names.
Proof.
  intros Htok Hocc Hreq. unfold Argparse.parse_args. subst acts.
  rewrite (actions_specs P p environ), Htok.
  destruct (Argparse.consume P (actions_of P p environ) _ _) as [st|r] eqn:Ec.
  - destruct (consume_without_flag occ st Hocc Ec) as [_ [_ Hseen]].
    destruct (ArgparseFacts.finish_exit P (actions_of P p environ) st [])
      as [why Hw].
    { right. exists a0. split; [|auto].
      apply (action_of_In P p environ name cfg Hin). }
    exists why. split; [exact Hw|]. intros names ->.
    destruct (ArgparseFacts.finish_missing_names P _ _ _ _ _ Hw) as [_ Hn].
    apply (Hn a0 (action_of_In P p environ name cfg Hin) Hseen Hreq).
  - destruct (ArgparseFacts.consume_exit P _ _ _ _ Ec) as [why [-> Hw]].
    exists why. split; [reflexivity|]. intros names Hn.
    now destruct (Hw names).
Qed.

(** An exit of [argparse] is the exit of [parse_args], once the
    registration went through. *)
Lemma parse_args_exit (code : Z) (why : option Argparse.error) :
  accepted p ->
  Argparse.parse_args P acts (normalized_args P p args)
  = Argparse.Exit code why ->
  exists stdout,
    parse_args P p environ args = SystemExit code (ArgparseExit why) stdout.
Proof.
  intros Hreg H. unfold parse_args. cbv zeta.
  fold (normalized_args P p args). fold (actions_of P p environ).
  rewrite (actions_option_string P p environ). unfold accepted in Hreg.
  rewrite Hreg. fold acts. rewrite H.
  destruct (normalized_args P p args); eexists; reflexivity.
Qed.

End NamespaceFacts.

(** ** The precedence chain (C1) *)

(** The last occurrence of a flag among the occurrences the tokenizer
    reports, with its argument. *)
Fixpoint last_occurrence (name : str) (occ : list (str * option str))
  : option (option str) :=
  match occ with
  | [] => None
  | (o, arg) :: occ' =>
      match last_occurrence name occ' with
      | Some later => Some later
      | None => if str_eqb o name then Some arg else None
      end
  end.

Lemma last_occurrence_none (name : str) (occ : list (str * option str)) :
  last_occurrence name occ = None -> ~ In name (map fst occ).
Proof.
  induction occ as [|[o arg] occ IH]; simpl; [tauto|].
  destruct (last_occurrence name occ); [discriminate|].
  destruct (str_eqb o name) eqn:E; [discriminate|].
  apply str_eqb_neq in E. intros _ [H | H]; [congruence | now apply IH].
Qed.

Lemma last_occurrence_some (name : str) (occ : list (str * option str))
  (arg : option str) :
  last_occurrence name occ = Some arg ->
  exists before after,
    occ = before ++ (name, arg) :: after /\ ~ In name (map fst after).
Proof.
  induction occ as [|[o a] occ IH]; simpl; [discriminate|].
  destruct (last_occurrence name occ) as [later|] eqn:E.
  - intros [= ->]. destruct (IH eq_refl) as [before [after [-> H]]].
    exists ((o, a) :: before), after. auto.
  - destruct (str_eqb o name) eqn:Eo; [|discriminate].
    apply str_eqb_eq in Eo. subst o. intros [= ->].
    exists [], occ. split; [reflexivity|]. now apply last_occurrence_none.
Qed.

Lemma value_alone_instance (P : Platform) (safe : bool) (name : str)
  (cfg : kwargs) (v : value) :
  match kw_type cfg with
  | Some t => isinstance v t = true \/ v = VNone
  | None => True
  end ->
  value_alone P safe (name, cfg) v
  = (if safe then eliminate_unicode_maximum P v else v)
  /\ (kw_validator cfg = None -> errors_alone P safe (name, cfg) v = []).
Proof.
  unfold value_alone, errors_alone, validated_alone, validate_step.
  cbn [fst v_ns v_errors v_calls]. rewrite getattr_singleton. cbv zeta.
  intros H.
  destruct safe; destruct v; cbn [eliminate_unicode_maximum];
    destruct (kw_type cfg) as [[]|];
    try (destruct H as [H | H]; discriminate);
    cbn [isinstance type_of pytype_eqb];
    destruct (kw_validator cfg) as [check|];
    try (destruct (check _));
    cbn [v_ns v_errors];
    rewrite ?getattr_setattr_same, ?getattr_singleton;
    (split; [reflexivity | intros; try discriminate; reflexivity]).
Qed.

Lemma command_line_value_instance (P : Platform) (cfg : kwargs)
  (arg : option str) (v : value) :
  command_line_value P cfg arg = Some v ->
  match kw_type cfg with
  | Some t => isinstance v t = true \/ v = VNone
  | None => True
  end.
Proof.
  unfold command_line_value.
  destruct (kw_type cfg) as [t|]; [|trivial].
  assert (forall s, match call_type P t (VStr s) with
                    | inl v0 => Some v0
                    | inr _ => None
                    end = Some v -> isinstance v t = true \/ v = VNone)
    as Hcall.
  { intros s. destruct (call_type P t (VStr s)) as [v0|] eqn:E;
      [|discriminate].
    intros [= <-]. left.
    now apply (ArgparseFacts.call_type_str_instance P t s). }
  destruct t, arg; try discriminate; try apply Hcall.
  intros [= <-]. now left.
Qed.

(** The value of a definition after a parse that returned, by tier. *)
Lemma parse_args_value (P : Platform) (p : ArgumentParser)
  (environ : list (str * str)) (args : list str)
  (occ : list (str * option str)) (name : str) (cfg : kwargs)
  (ns : namespace) :
  registry_ok p ->
  In (name, cfg) (args_definitions p) ->
  tokenize P (option_specs p) (normalized_args P p args) = TokOk occ ->
  parse_args P p environ args = Returned ns ->
  exists v,
    getattr ns (attr_name_of name)
    = value_alone P (unicode_safe p) (name, cfg) v
    /\ match last_occurrence name occ with
       | Some arg => command_line_value P cfg arg = Some v
       | None =>
           v = stored_default P cfg
                 (match dict_get name (_load_env_defaults P p environ) with
                  | Some e => e
                  | None =>
                      match dict_get name (_load_config_defaults P p) with
                      | Some c => c
                      | None => get_default cfg
                      end
                  end)
       end.
Proof.
  intros Hok Hin Htok Hret.
  destruct (parse_args_returned P p environ args ns Hret) as [ns0 [Hap Hval]].
  rewrite (validate_args_value P p Hok name cfg Hin ns0 ns Hval).
  destruct (last_occurrence name occ) as [arg|] eqn:El.
  - destruct (last_occurrence_some name occ arg El)
      as [before [after [-> Hafter]]].
    destruct (argparse_command_line P p environ Hok name cfg Hin args
                before after arg ns0 Htok Hafter Hap) as [v [Hv Hget]].
    exists v. rewrite Hget. auto.
  - apply last_occurrence_none in El.
    destruct (Argparse.required (action_of P p environ name cfg)) eqn:Er.
    + destruct (argparse_required P p environ Hok name cfg Hin args occ
                  Htok El Er) as [why [Hw _]].
      rewrite Hw in Hap. discriminate.
    + eexists. split; [|reflexivity].
      rewrite (argparse_default P p environ Hok name cfg Hin args occ ns0
                 Htok El Er Hap).
      unfold action_of, make_action, merged_default. cbn [Argparse.default].
      destruct (dict_get name (_load_env_defaults P p environ));
        destruct (dict_get name (_load_config_defaults P p)); reflexivity.
Qed.

(** C1: for a definition of a registry with plain, distinct names, after a
    parse that returns: when the flag occurs on the command line, the
    value is the one its last occurrence supplies (converted by the type of
    the definition, normalised when it is a string), whatever the
    environment, the config files and the declared default hold; when it
    does not occur, the value comes from the environment value if there is
    one, else from the config value if there is one, else from the declared
    default. *)
Theorem precedence_chain (P : Platform) (p : ArgumentParser)
  (environ : list (str * str)) (args : list str)
  (occ : list (str * option str)) (name : str) (cfg : kwargs)
  (ns : namespace) :
  registry_ok p ->
  In (name, cfg) (args_definitions p) ->
  tokenize P (option_specs p) (normalized_args P p args) = TokOk occ ->
  parse_args P p environ args = Returned ns ->
  match last_occurrence name occ with
  | Some arg =>
      exists v,
        command_line_value P cfg arg = Some v
        /\ getattr ns (attr_name_of name)
           = (if unicode_safe p then eliminate_unicode_maximum P v else v)
  | None =>
      getattr ns (attr_name_of name)
      = value_alone P (unicode_safe p) (name, cfg)
          (stored_default P cfg
             (match dict_get name (_load_env_defaults P p environ) with
              | Some e => e
              | None =>
                  match dict_get name (_load_config_defaults P p) with
                  | Some c => c
                  | None => get_default cfg
                  end
              end))
  end.
Proof.
  intros Hok Hin Htok Hret.
  destruct (parse_args_value P p environ args occ name cfg ns Hok Hin Htok
              Hret) as [v [Hget Hv]].
  destruct (last_occurrence name occ) as [arg|].
  - exists v. split; [exact Hv|]. rewrite Hget.
    apply value_alone_instance.
    now apply (command_line_value_instance P cfg arg).
  - now rewrite Hget, Hv.
Qed.

(** The four tiers at once: declared default 1, config value 5,
    environment value 7, command-line value 9. *)
Definition tiers_platform : Platform :=
  Demo.platform [(py "tool.json", [(py "--count", VInt 5)])].

Definition tiers_parser : ArgumentParser :=
  add_argument tiers_platform tool_parser (py "count")
    {| kw_type := Some TInt; kw_default := Some (VInt 1);
       kw_required := None; kw_help := None; kw_env_var := None;
       kw_config_key := None; kw_validator := None |}.

Definition tiers_cfg : kwargs :=
  match dict_get (py "--count") (args_definitions tiers_parser) with
  | Some cfg => cfg
  | None => no_kwargs
  end.

Lemma precedence_chain_witness :
  get_default tiers_cfg = VInt 1
  /\ dict_get (py "--count") (_load_config_defaults tiers_platform tiers_parser)
     = Some (VInt 5)
  /\ dict_get (py "--count")
       (_load_env_defaults tiers_platform tiers_parser
          [(py "TOOL_COUNT", py "7")]) = Some (VInt 7)
  /\ parse_args tiers_platform tiers_parser [(py "TOOL_COUNT", py "7")]
       [py "--count"; py "9"] = Returned [(py "count", VInt 9)]
  /\ exists v,
      command_line_value tiers_platform tiers_cfg (Some (py "9")) = Some v
      /\ getattr [(py "count", VInt 9)] (attr_name_of (py "--count"))
         = (if unicode_safe tiers_parser
            then eliminate_unicode_maximum tiers_platform v else v).
Proof.
  repeat (split; [vm_compute; reflexivity|]).
  assert (registry_ok tiers_parser) as Hok.
  { split.
    - repeat constructor; vm_compute; reflexivity.
    - vm_compute. repeat constructor. intros []. }
  assert (In (py "--count", tiers_cfg) (args_definitions tiers_parser)) as Hin.
  { vm_compute. left. reflexivity. }
  exact (precedence_chain tiers_platform tiers_parser
           [(py "TOOL_COUNT", py "7")] [py "--count"; py "9"]
           [(py "--count", Some (py "9"))] (py "--count") tiers_cfg
           [(py "count", VInt 9)] Hok Hin eq_refl eq_refl).
Defined.

(** ** Definitions without a value from any tier (C5) *)

(** The zero values in the words of the specification. *)
Definition zero_value (t : pytype) : value :=
  match t with
  | TInt => VInt 0
  | TFloat => VFloat (S754_zero false)
  | TBool => VBool false
  | TStr => VStr []
  | _ => VNone
  end.

(** A [verbose] and a [count] added without any keyword: Boolean and
    Integer by their names, not required. *)
Definition bare_verbose_parser : ArgumentParser :=
  add_argument (Demo.platform []) (new_parser (py "tool") true)
    (py "verbose") no_kwargs.

Definition bare_count_parser : ArgumentParser :=
  add_argument (Demo.platform []) (new_parser (py "tool") true) (py "count")
    no_kwargs.

Lemma absent_flag (name : str) (occ : list (str * option str)) :
  ~ In name (map fst occ) -> last_occurrence name occ = None.
Proof.
  intros Hocc. destruct (last_occurrence name occ) as [arg|] eqn:El;
    [|reflexivity].
  exfalso. destruct (last_occurrence_some name occ arg El)
    as [before [after [-> _]]].
  apply Hocc. rewrite map_app. apply in_or_app. right. now left.
Qed.

(** C5 on the code: the table of [_get_smart_default] gives [False] for
    [bool], but [add_argument] does not consult it for a [bool] definition,
    and [parse_args] hands the missing default to [argparse] as an explicit
    [None].  So [verbose] added without a default and left out everywhere
    resolves to [None], where [count] resolves to 0; and so does every
    definition of type [bool] added without a default, when no tier
    supplies a value and the parse returns. *)
Theorem boolean_without_default_resolves_to_none :
  _get_smart_default TBool = VBool false
  /\ option_map kw_default
       (dict_get (py "--verbose") (args_definitions bare_verbose_parser))
     = Some None
  /\ parse_args (Demo.platform []) bare_verbose_parser [] []
     = Returned [(py "verbose", VNone)]
  /\ parse_args (Demo.platform []) bare_count_parser [] []
     = Returned [(py "count", VInt 0)]
  /\ VNone <> zero_value TBool
  /\ forall (P : Platform) (p : ArgumentParser) (name : str) (kw : kwargs)
            (environ : list (str * str)) (args : list str)
            (occ : list (str * option str)) (ns : namespace),
      kw_default kw = None ->
      match kw_type kw with
      | Some t => t
      | None => _infer_type (canonical_name name) VNone
      end = TBool ->
      let p' := add_argument P p name kw in
      let flag := canonical_name name in
      registry_ok p' ->
      tokenize P (option_specs p') (normalized_args P p' args) = TokOk occ ->
      ~ In flag (map fst occ) ->
      dict_get flag (_load_config_defaults P p') = None ->
      dict_get flag (_load_env_defaults P p' environ) = None ->
      parse_args P p' environ args = Returned ns ->
      (exists cfg,
          dict_get flag (args_definitions p') = Some cfg
          /\ kw_type cfg = Some TBool
          /\ kw_default cfg = None)
      /\ getattr ns (attr_name_of flag) = VNone.
Proof.
  split; [reflexivity|].
  split; [vm_compute; reflexivity|].
  split; [vm_compute; reflexivity|].
  split; [vm_compute; reflexivity|].
  split; [discriminate|].
  intros P p name kw environ args occ ns Hnodef Hbool p' flag Hok Htok Hocc
    Hconfig Henv Hret.
  destruct (add_argument_stored P p name kw)
    as [cfg [Hget [Hty [Hdef _]]]].
  fold p' flag in Hget.
  assert (kw_type cfg = Some TBool) as Hty'.
  { rewrite Hty. unfold get_default. rewrite Hnodef. now rewrite Hbool. }
  assert (kw_default cfg = None) as Hd.
  { rewrite Hdef, Hnodef, Hty'. reflexivity. }
  split; [exists cfg; auto|].
  pose proof (@dict_get_In _ _ _ _ Hget) as Hin.
  destruct (parse_args_value P p' environ args occ flag cfg ns Hok Hin
              Htok Hret) as [v [Hns Hv]].
  rewrite (absent_flag flag occ Hocc), Henv, Hconfig in Hv.
  unfold get_default in Hv. rewrite Hd in Hv. cbn [stored_default] in Hv.
  subst v. rewrite Hns.
  destruct (value_alone_instance P (unicode_safe p') flag cfg VNone) as [-> _].
  - rewrite Hty'. now right.
  - now destruct (unicode_safe p').
Qed.

Lemma boolean_without_default_resolves_to_none_witness :
  registry_ok bare_verbose_parser
  /\ parse_args (Demo.platform []) bare_verbose_parser [] []
     = Returned [(py "verbose", VNone)]
  /\ (exists cfg,
         dict_get (py "--verbose") (args_definitions bare_verbose_parser)
         = Some cfg
         /\ kw_type cfg = Some TBool
         /\ kw_default cfg = None)
  /\ getattr [(py "verbose", VNone)] (py "verbose") = VNone.
Proof.
  assert (registry_ok bare_verbose_parser) as Hok.
  { split.
    - repeat constructor; vm_compute; reflexivity.
    - vm_compute. repeat constructor. intros []. }
  split; [exact Hok|].
  split; [vm_compute; reflexivity|].
  destruct boolean_without_default_resolves_to_none
    as [_ [_ [_ [_ [_ H]]]]].
  apply (H (Demo.platform []) (new_parser (py "tool") true) (py "verbose")
           no_kwargs [] [] [] [(py "verbose", VNone)] eq_refl eq_refl Hok
           eq_refl).
  - intros [].
  - reflexivity.
  - reflexivity.
  - vm_compute. reflexivity.
Defined.

(** ** Boolean values by tier (C6) *)

(** A [verbose] of type [bool], and a config file that holds the string
    false for it. *)
Definition flag_kwargs : kwargs :=
  {| kw_type := Some TBool; kw_default := None; kw_required := None;
     kw_help := None; kw_env_var := None; kw_config_key := None;
     kw_validator := None |}.

Definition flag_parser : ArgumentParser :=
  add_argument (Demo.platform []) (new_parser (py "tool") true)
    (py "verbose") flag_kwargs.

Definition flag_platform : Platform :=
  Demo.platform [(py "tool.json", [(py "--verbose", VStr (py "false"))])].

Definition flag_config_parser : ArgumentParser :=
  add_argument flag_platform
    (add_config_file (new_parser (py "tool") true) (py "tool.json"))
    (py "verbose") flag_kwargs.

(** C6 on the code: the rule of the four truthy tokens is the rule of the
    environment tier only.  A flag that is absent everywhere is [None], a
    third state; and the token false is [False] from the environment but
    [True] from a config file, because a string that reaches the
    validation pass for a [bool] definition is converted by [bool], that
    is by being non-empty.  In general, when the merged default of a
    [bool] definition is a string and the flag is absent, a parse that
    returns holds [True] exactly when the string, normalised if the parser
    is Unicode-safe, is not empty. *)
Theorem boolean_value_depends_on_tier :
  parse_args (Demo.platform []) flag_parser [] []
  = Returned [(py "verbose", VNone)]
  /\ parse_args (Demo.platform []) flag_parser
       [(py "TOOL_VERBOSE", py "false")] []
     = Returned [(py "verbose", VBool false)]
  /\ parse_args flag_platform flag_config_parser [] []
     = Returned [(py "verbose", VBool true)]
  /\ forall (P : Platform) (p : ArgumentParser)
            (environ : list (str * str)) (args : list str)
            (occ : list (str * option str)) (name : str) (cfg : kwargs)
            (ns : namespace) (s : str),
      registry_ok p ->
      In (name, cfg) (args_definitions p) ->
      kw_type cfg = Some TBool ->
      tokenize P (option_specs p) (normalized_args P p args) = TokOk occ ->
      ~ In name (map fst occ) ->
      match dict_get name (_load_env_defaults P p environ) with
      | Some e => e
      | None =>
          match dict_get name (_load_config_defaults P p) with
          | Some c => c
          | None => get_default cfg
          end
      end = VStr s ->
      parse_args P p environ args = Returned ns ->
      getattr ns (attr_name_of name)
      = VBool (match (if unicode_safe p
                      then eliminate_unicode_maximum_str P s else s) with
               | [] => false
               | _ :: _ => true
               end).
Proof.
  split; [vm_compute; reflexivity|].
  split; [vm_compute; reflexivity|].
  split; [vm_compute; reflexivity|].
  intros P p environ args occ name cfg ns s Hok Hin Hty Htok Hocc Hmerged
    Hret.
  destruct (parse_args_value P p environ args occ name cfg ns Hok Hin Htok
              Hret) as [v [Hns Hv]].
  rewrite (absent_flag name occ Hocc), Hmerged in Hv.
  unfold stored_default in Hv. rewrite Hty in Hv. subst v. rewrite Hns.
  unfold value_alone, validated_alone, validate_step.
  cbn [fst v_ns v_errors v_calls]. rewrite getattr_singleton, Hty.
  destruct (unicode_safe p); cbn [eliminate_unicode_maximum isinstance
    type_of pytype_eqb call_type truthy];
    destruct (kw_validator cfg) as [check|];
    try (destruct (check _));
    cbn [v_ns]; rewrite getattr_setattr_same; reflexivity.
Qed.

Lemma boolean_value_depends_on_tier_witness :
  registry_ok flag_config_parser
  /\ parse_args flag_platform flag_config_parser [] []
     = Returned [(py "verbose", VBool true)]
  /\ getattr [(py "verbose", VBool true)] (py "verbose")
     = VBool (match eliminate_unicode_maximum_str flag_platform (py "false")
              with
              | [] => false
              | _ :: _ => true
              end).
Proof.
  assert (registry_ok flag_config_parser) as Hok.
  { split.
    - repeat constructor; vm_compute; reflexivity.
    - vm_compute. repeat constructor. intros []. }
  split; [exact Hok|].
  split; [vm_compute; reflexivity|].
  destruct boolean_value_depends_on_tier as [_ [_ [_ H]]].
  refine (H flag_platform flag_config_parser [] [] [] (py "--verbose")
            _ [(py "verbose", VBool true)] (py "false") Hok _ _ eq_refl _ _
            _).
  - vm_compute. left. reflexivity.
  - reflexivity.
  - intros [].
  - vm_compute. reflexivity.
  - vm_compute. reflexivity.
Defined.

(** ** A missing required argument and the validation report (C2) *)

Lemma validate_loop_required (P : Platform) (safe : bool) (r : option bool)
  (defs : list (str * kwargs)) (st : vstate) :
  validate_loop P safe
    (map (fun def => (fst def, set_required r (snd def))) defs) st
  = validate_loop P safe defs st.
Proof.
  revert st; induction defs as [|[name cfg] defs IH]; intros st;
    [reflexivity|].
  cbn [map validate_loop fst snd].
  change (validate_step P safe st (name, set_required r cfg))
    with (validate_step P safe st (name, cfg)).
  destruct (validate_step P safe st (name, cfg)); [apply IH | reflexivity].
Qed.

(** C2 on the code: the call of [_validate_args] is marked as validating
    the required arguments, but [_validate_args] never looks at the
    [required] field; a missing required argument is found by [argparse],
    which ends the parse on the spot.  With a required [input] that is
    missing and a [count] whose value has the wrong type, in either order
    of declaration, the parse exits with status 2 and the message of
    [argparse] about [--input] alone, and no report is printed; the
    validation pass on the same values would report the one mismatch of
    [count].  In general, the outcome of [_validate_args] does not change
    when the [required] fields are changed; and when a required flag is
    absent from the command line, the parse never ends in a validation
    report: if [argparse] accepts the registry it exits with status 2 in
    [argparse]. *)
Theorem missing_required_is_not_reported :
  parse_args config_platform input_count_parser [] []
  = SystemExit 2
      (ArgparseExit (Some (Argparse.MissingRequired [py "--input"]))) []
  /\ parse_args config_platform count_input_parser [] []
     = SystemExit 2
         (ArgparseExit (Some (Argparse.MissingRequired [py "--input"]))) []
  /\ _validate_args config_platform input_count_parser
       [(py "input", VNone); (py "count", VList [VInt 1])]
     = SystemExit 1
         (ValidationErrors [py "--count: Expected int, got list"])
         [py "Argument validation errors:";
          py "  - --count: Expected int, got list"]
  /\ (forall (P : Platform) (p : ArgumentParser) (r : option bool)
             (ns : namespace),
         _validate_args P
           {| program_name := program_name p;
              args_definitions :=
                map (fun def => (fst def, set_required r (snd def)))
                    (args_definitions p);
              config_files := config_files p;
              env_prefix := env_prefix p;
              unicode_safe := unicode_safe p |} ns
         = _validate_args P p ns)
  /\ forall (P : Platform) (p : ArgumentParser)
            (environ : list (str * str)) (args : list str)
            (occ : list (str * option str)) (name : str) (cfg : kwargs),
      registry_ok p ->
      In (name, cfg) (args_definitions p) ->
      kw_required cfg = Some true ->
      tokenize P (option_specs p) (normalized_args P p args) = TokOk occ ->
      ~ In name (map fst occ) ->
      (forall code errors stdout,
          parse_args P p environ args
          <> SystemExit code (ValidationErrors errors) stdout)
      /\ (accepted p ->
          exists why stdout,
            parse_args P p environ args
            = SystemExit 2 (ArgparseExit (Some why)) stdout).
Proof.
  split; [vm_compute; reflexivity|].
  split; [vm_compute; reflexivity|].
  split; [vm_compute; reflexivity|].
  split.
  { intros P p r ns. unfold _validate_args.
    cbn [unicode_safe args_definitions].
    now rewrite validate_loop_required. }
  intros P p environ args occ name cfg Hok Hin Hreq Htok Hocc.
  destruct (argparse_required P p environ Hok name cfg Hin args occ Htok
              Hocc) as [why [Hw _]].
  { cbn [action_of make_action Argparse.required]. now rewrite Hreq. }
  assert (accepted p ->
          exists why stdout,
            parse_args P p environ args
            = SystemExit 2 (ArgparseExit (Some why)) stdout) as Hexit.
  { intros Hreg.
    destruct (parse_args_exit P p environ args 2 (Some why) Hreg Hw)
      as [stdout Hexit].
    now exists why, stdout. }
  split; [|exact Hexit].
  intros code errors stdout Hparse.
  destruct (Argparse.add_arguments Argparse.initial_option_strings
              (map fst (args_definitions p))) as [e|] eqn:Ereg.
  - rewrite (parse_args_rejected P p environ args e Ereg) in Hparse.
    discriminate.
  - destruct (Hexit Ereg) as [why' [stdout' Hexit']].
    rewrite Hexit' in Hparse. discriminate.
Qed.

Lemma missing_required_is_not_reported_witness :
  registry_ok input_count_parser
  /\ accepted input_count_parser
  /\ exists why stdout,
      parse_args config_platform input_count_parser [] []
      = SystemExit 2 (ArgparseExit (Some why)) stdout.
Proof.
  assert (registry_ok input_count_parser) as Hok.
  { split.
    - repeat constructor; vm_compute; reflexivity.
    - vm_compute. repeat constructor; simpl; intuition discriminate. }
  assert (accepted input_count_parser) as Hreg by (vm_compute; reflexivity).
  split; [exact Hok|]. split; [exact Hreg|].
  destruct missing_required_is_not_reported as [_ [_ [_ [_ H]]]].
  refine (proj2 (H config_platform input_count_parser [] [] []
                   (py "--input") _ Hok _ _ eq_refl _) Hreg).
  - vm_compute. left. reflexivity.
  - reflexivity.
  - intros [].
Defined.

(* ===================================================================== *)
(** * Further properties of the code *)
(* ===================================================================== *)

(** ** [sanitize_filename]: the shape of the result *)

Lemma collapse_underscores_head (s : str) :
  startswith [underscore] (collapse_underscores true s) = false.
Proof.
  induction s as [|c s IH]; [reflexivity|]. cbn [collapse_underscores].
  destruct (N.eqb c underscore) eqn:E; [exact IH|].
  cbn [startswith]. now rewrite N.eqb_sym, E.
Qed.

Lemma collapse_underscores_single (b : bool) (s : str) :
  contains (py "__") (collapse_underscores b s) = false.
Proof.
  revert b; induction s as [|c s IH]; intros b; simpl; [reflexivity|].
  destruct (N.eqb c underscore) eqn:E.
  - destruct b; [apply IH|].
    change (contains (py "__") (underscore :: collapse_underscores true s))
      with (startswith (py "__") (underscore :: collapse_underscores true s)
            || contains (py "__") (collapse_underscores true s)).
    rewrite IH, orb_false_r.
    change (startswith (py "__") (underscore :: collapse_underscores true s))
      with (startswith [underscore] (collapse_underscores true s)).
    apply collapse_underscores_head.
  - change (contains (py "__") (c :: collapse_underscores false s))
      with (startswith (py "__") (c :: collapse_underscores false s)
            || contains (py "__") (collapse_underscores false s)).
    rewrite IH, orb_false_r.
    change (startswith (py "__") (c :: collapse_underscores false s))
      with (N.eqb underscore c
            && startswith [underscore] (collapse_underscores false s)).
    rewrite N.eqb_sym, E. reflexivity.
Qed.

Lemma forallb_collapse_underscores (f : N -> bool) (b : bool) (s : str) :
  forallb f s = true -> forallb f (collapse_underscores b s) = true.
Proof.
  revert b; induction s as [|c s IH]; intros b; simpl; [reflexivity|].
  rewrite andb_true_iff. intros [Hc Hs].
  destruct (N.eqb c underscore) eqn:E.
  - apply N.eqb_eq in E. subst c. destruct b; [now apply IH|].
    simpl. rewrite Hc. now apply IH.
  - simpl. rewrite Hc. now apply IH.
Qed.

Lemma collapse_underscores_fixes (b : bool) (s : str) :
  (b = true -> startswith [underscore] s = false) ->
  contains (py "__") s = false ->
  collapse_underscores b s = s.
Proof.
  revert b; induction s as [|c s IH]; intros b Hhead Hno; [reflexivity|].
  change (contains (py "__") (c :: s))
    with (startswith (py "__") (c :: s) || contains (py "__") s) in Hno.
  apply orb_false_iff in Hno. destruct Hno as [Hstart Hno].
  change (startswith (py "__") (c :: s))
    with (N.eqb underscore c && startswith [underscore] s) in Hstart.
  simpl. destruct (N.eqb c underscore) eqn:E.
  - apply N.eqb_eq in E. subst c.
    destruct b.
    + specialize (Hhead eq_refl). discriminate.
    + rewrite IH; [reflexivity | intros _; exact Hstart | exact Hno].
  - rewrite IH; [reflexivity | discriminate | exact Hno].
Qed.

Lemma lstrip_underscores_suffix (s : str) :
  exists l, s = l ++ lstrip_underscores s.
Proof.
  induction s as [|c s [l IH]]; simpl.
  - exists []. reflexivity.
  - destruct (N.eqb c underscore).
    + exists (c :: l). simpl. now rewrite <- IH.
    + exists []. reflexivity.
Qed.

Lemma lstrip_underscores_head (s : str) :
  startswith [underscore] (lstrip_underscores s) = false.
Proof.
  induction s as [|c s IH]; [reflexivity|]. cbn [lstrip_underscores].
  destruct (N.eqb c underscore) eqn:E; [exact IH|].
  cbn [startswith]. now rewrite N.eqb_sym, E.
Qed.

Lemma lstrip_underscores_fixes (s : str) :
  startswith [underscore] s = false -> lstrip_underscores s = s.
Proof.
  destruct s as [|c s]; [reflexivity|].
  cbn [startswith lstrip_underscores].
  rewrite andb_true_r, N.eqb_sym. now intros ->.
Qed.

Lemma lstrip_underscores_app (l : str) (c : N) (r : str) :
  N.eqb c underscore = false ->
  lstrip_underscores (l ++ c :: r) = lstrip_underscores l ++ c :: r.
Proof.
  intros Hc. induction l as [|x l IH]; simpl.
  - now rewrite Hc.
  - destruct (N.eqb x underscore); [exact IH | reflexivity].
Qed.

Lemma strip_underscores_infix (s : str) :
  exists l r, s = l ++ strip_underscores s ++ r.
Proof.
  unfold strip_underscores.
  destruct (lstrip_underscores_suffix s) as [l Hl].
  destruct (lstrip_underscores_suffix (rev (lstrip_underscores s)))
    as [r Hr].
  exists l, (rev r). rewrite <- rev_app_distr, <- Hr, rev_involutive.
  exact Hl.
Qed.

Lemma strip_underscores_ends (s : str) :
  startswith [underscore] (strip_underscores s) = false
  /\ startswith [underscore] (rev (strip_underscores s)) = false.
Proof.
  unfold strip_underscores. split.
  - pose proof (lstrip_underscores_head s) as Hh.
    destruct (lstrip_underscores s) as [|c r]; [reflexivity|].
    assert (N.eqb c underscore = false) as Hc.
    { cbn [startswith] in Hh. rewrite andb_true_r, N.eqb_sym in Hh.
      exact Hh. }
    simpl rev. rewrite lstrip_underscores_app by exact Hc.
    rewrite rev_app_distr. cbn [rev app startswith].
    rewrite andb_true_r, N.eqb_sym. exact Hc.
  - rewrite rev_involutive. apply lstrip_underscores_head.
Qed.

Lemma strip_underscores_fixes (s : str) :
  startswith [underscore] s = false ->
  startswith [underscore] (rev s) = false ->
  strip_underscores s = s.
Proof.
  intros H1 H2. unfold strip_underscores.
  rewrite (lstrip_underscores_fixes s H1).
  rewrite (lstrip_underscores_fixes (rev s) H2). apply rev_involutive.
Qed.

Lemma forallb_infix (f : N -> bool) (l s r : str) :
  forallb f (l ++ s ++ r) = true -> forallb f s = true.
Proof.
  rewrite !forallb_app, !andb_true_iff. tauto.
Qed.

Lemma filename_class_not_reserved (c : N) :
  filename_class c = true -> reserved_class c = false.
Proof.
  unfold filename_class, in_range, reserved_class, underscore, hyphen.
  rewrite !orb_true_iff, !andb_true_iff, !N.leb_le, !N.eqb_eq.
  intros H. simpl.
  repeat match goal with
         | |- context [N.eqb c ?k] =>
             replace (N.eqb c k) with false by (symmetry; apply N.eqb_neq; lia)
         end.
  reflexivity.
Qed.

Lemma filename_class_ascii (c : N) :
  filename_class c = true -> is_ascii c = true /\ is_space c = false.
Proof.
  unfold filename_class, in_range, is_ascii, is_space, in_range, underscore,
    hyphen.
  rewrite !orb_true_iff, !andb_true_iff, !N.leb_le, !N.eqb_eq, N.ltb_lt.
  intros H. split; [lia|].
  repeat match goal with
         | |- context [N.eqb c ?k] =>
             replace (N.eqb c k) with false by (symmetry; apply N.eqb_neq; lia)
         end.
  replace (9 <=? c)%N with true by (symmetry; apply N.leb_le; lia).
  replace (c <=? 13)%N with false by (symmetry; apply N.leb_gt; lia).
  replace (c <=? 32)%N with false by (symmetry; apply N.leb_gt; lia).
  replace (c <=? 8202)%N with true by (symmetry; apply N.leb_le; lia).
  replace (8192 <=? c)%N with false by (symmetry; apply N.leb_gt; lia).
  rewrite !andb_false_r. reflexivity.
Qed.

Section Sanitize.
Variable P : Platform.
Variables aggressive ascii_only : bool.

(** The name before the fallback to the literal: what the three
    substitutions and the strip leave. *)
Definition sanitized_body (filename : str) : str :=
  strip_underscores
    (collapse_underscores false
       (map (fun c => if filename_class c then c else underscore)
          (filter (fun c => negb (reserved_class c))
             (eliminate_unicode P aggressive ascii_only filename)))).

Lemma sanitize_filename_body (filename : str) :
  sanitize_filename P aggressive ascii_only filename
  = match sanitized_body filename with
    | [] => py "file"
    | name => name
    end.
Proof.
  unfold sanitize_filename, sanitized_body.
  destruct (strip_underscores _); reflexivity.
Qed.

Lemma sanitized_body_class (filename : str) :
  forallb filename_class (sanitized_body filename) = true.
Proof.
  unfold sanitized_body.
  destruct (strip_underscores_infix
              (collapse_underscores false
                 (map (fun c => if filename_class c then c else underscore)
                    (filter (fun c => negb (reserved_class c))
                       (eliminate_unicode P aggressive ascii_only
                          filename))))) as [l [r H]].
  apply (forallb_infix filename_class l _ r). rewrite <- H.
  apply forallb_collapse_underscores.
  rewrite forallb_forall. intros c Hc. apply in_map_iff in Hc.
  destruct Hc as [x [<- _]].
  destruct (filename_class x) eqn:E; [exact E | reflexivity].
Qed.

Lemma sanitized_body_underscores (filename : str) :
  startswith [underscore] (sanitized_body filename) = false
  /\ startswith [underscore] (rev (sanitized_body filename)) = false
  /\ contains (py "__") (sanitized_body filename) = false.
Proof.
  unfold sanitized_body.
  set (t := collapse_underscores false _).
  destruct (strip_underscores_ends t) as [H1 H2].
  split; [exact H1|]. split; [exact H2|].
  destruct (strip_underscores_infix t) as [l [r H]].
  apply (contains_infix (py "__") l _ r). rewrite <- H.
  apply collapse_underscores_single.
Qed.

End Sanitize.

(** X1.  Whatever the input and whatever the optional packages do, the
    sanitised file name is not empty and consists of ASCII letters, digits,
    dots, underscores and hyphens only; in particular none of the reserved
    characters, such as the path separators, survives. *)
Theorem sanitize_filename_charset (P : Platform)
  (aggressive ascii_only : bool) (filename : str) :
  let name := sanitize_filename P aggressive ascii_only filename in
  name <> []
  /\ forallb filename_class name = true
  /\ forallb (fun c => negb (reserved_class c)) name = true.
Proof.
  intros name.
  assert (name <> [] /\ forallb filename_class name = true) as [Hne Hclass].
  { subst name. rewrite sanitize_filename_body.
    pose proof (sanitized_body_class P aggressive ascii_only filename) as H.
    destruct (sanitized_body P aggressive ascii_only filename) as [|c r].
    - split; [discriminate | reflexivity].
    - split; [discriminate | exact H]. }
  repeat split; try assumption.
  rewrite forallb_forall in *. intros c Hc.
  now rewrite filename_class_not_reserved by auto.
Qed.

(** X2.  The sanitised file name neither starts nor ends with an underscore
    and holds no two underscores in a row. *)
Theorem sanitize_filename_underscores (P : Platform)
  (aggressive ascii_only : bool) (filename : str) :
  let name := sanitize_filename P aggressive ascii_only filename in
  startswith (py "_") name = false
  /\ startswith (py "_") (rev name) = false
  /\ contains (py "__") name = false.
Proof.
  intros name. subst name. rewrite sanitize_filename_body.
  pose proof (sanitized_body_underscores P aggressive ascii_only filename)
    as H.
  destruct (sanitized_body P aggressive ascii_only filename) as [|c r].
  - repeat split.
  - exact H.
Qed.

(** ** [sanitize_filename]: safe names are left alone *)

Lemma no_space_normalize_ws (s : str) :
  forallb (fun c => negb (is_space c)) s = true -> normalize_ws s = s.
Proof.
  intros H. unfold normalize_ws.
  assert (forall b t, forallb (fun c => negb (is_space c)) t = true ->
                      collapse_ws b t = t) as Hcollapse.
  { intros b t; revert b; induction t as [|c t IH]; intros b; simpl;
      [reflexivity|].
    rewrite andb_true_iff, negb_true_iff. intros [-> Ht]. now rewrite IH. }
  assert (forall t, forallb (fun c => negb (is_space c)) t = true ->
                    lstrip t = t) as Hl.
  { intros [|c t]; simpl; [reflexivity|].
    rewrite andb_true_iff, negb_true_iff. now intros [-> _]. }
  rewrite Hcollapse by exact H. unfold strip, rstrip.
  rewrite (Hl s H), Hl, rev_involutive; [reflexivity|].
  rewrite forallb_forall in *. intros c Hc. apply H. now apply in_rev.
Qed.

Lemma eliminate_unicode_fixes_clean_text (P : Platform)
  (aggressive ascii_only : bool) (s : str) :
  well_behaved P -> clean s ->
  eliminate_unicode P aggressive ascii_only s = s.
Proof.
  intros HP Hs. destruct aggressive.
  - now apply eliminate_unicode_fixes_clean.
  - destruct HP as [_ [Hftfy [Hemoji Huni]]]. pose proof Hs as [Ha Hn].
    unfold eliminate_unicode. fold normalize_ws.
    assert (match ftfy_fix_text P with Some f => f s | None => s end = s)
      as ->.
    { destruct (ftfy_fix_text P) as [f|] eqn:E; [|reflexivity].
      now apply (Hftfy f). }
    assert (match emoji_replace_emoji P with
            | Some f => f s
            | None => remove_emoji s
            end = s) as ->.
    { destruct (emoji_replace_emoji P) as [f|] eqn:E.
      - now apply (Hemoji f).
      - now apply remove_emoji_ascii. }
    destruct (unidecode_unidecode P) as [f|] eqn:E; [|exact Hn].
    destruct ascii_only; [|exact Hn].
    rewrite (proj2 (Huni f eq_refl s) Hs). exact Hn.
Qed.

(** A name [sanitize_filename] has nothing to do on. *)
Definition safe_name (name : str) : Prop :=
  name <> []
  /\ forallb filename_class name = true
  /\ startswith (py "_") name = false
  /\ startswith (py "_") (rev name) = false
  /\ contains (py "__") name = false.

Lemma sanitize_filename_safe (P : Platform) (aggressive ascii_only : bool)
  (name : str) :
  well_behaved P -> safe_name name ->
  sanitize_filename P aggressive ascii_only name = name.
Proof.
  intros HP [Hne [Hclass [Hhead [Hlast Hdouble]]]].
  unfold sanitize_filename.
  assert (clean name) as Hclean.
  { split.
    - rewrite forallb_forall in *. intros c Hc.
      apply filename_class_ascii. auto.
    - apply no_space_normalize_ws. rewrite forallb_forall in *.
      intros c Hc. now rewrite (proj2 (filename_class_ascii c (Hclass c Hc))). }
  rewrite (eliminate_unicode_fixes_clean_text P aggressive ascii_only name
             HP Hclean).
  rewrite filter_all.
  2:{ rewrite forallb_forall in *. intros c Hc.
      now rewrite filename_class_not_reserved by auto. }
  assert (map (fun c => if filename_class c then c else underscore) name
          = name) as ->.
  { rewrite <- (map_id name) at 2. apply map_ext_in. intros c Hc.
    rewrite forallb_forall in Hclass. now rewrite (Hclass c Hc). }
  rewrite collapse_underscores_fixes; [|discriminate | exact Hdouble].
  rewrite strip_underscores_fixes; [|exact Hhead | exact Hlast].
  destruct name; [now destruct Hne | reflexivity].
Qed.

Lemma sanitize_filename_is_safe (P : Platform)
  (aggressive ascii_only : bool) (filename : str) :
  safe_name (sanitize_filename P aggressive ascii_only filename).
Proof.
  rewrite sanitize_filename_body.
  pose proof (sanitized_body_class P aggressive ascii_only filename) as Hc.
  pose proof (sanitized_body_underscores P aggressive ascii_only filename)
    as Hu.
  destruct (sanitized_body P aggressive ascii_only filename) as [|c r].
  - repeat split. discriminate.
  - split; [discriminate|]. split; [exact Hc | exact Hu].
Qed.

(** X3.  On a platform whose collaborators leave clean ASCII text alone, a
    name that is already safe (not empty, made of letters, digits, dots,
    underscores and hyphens, with no leading, trailing or doubled
    underscore) is returned unchanged by [sanitize_filename]. *)
Theorem sanitize_filename_keeps_safe_names (P : Platform)
  (aggressive ascii_only : bool) (name : str) :
  well_behaved P ->
  name <> [] ->
  forallb filename_class name = true ->
  startswith (py "_") name = false ->
  startswith (py "_") (rev name) = false ->
  contains (py "__") name = false ->
  sanitize_filename P aggressive ascii_only name = name.
Proof.
  intros HP H1 H2 H3 H4 H5.
  apply sanitize_filename_safe; [exact HP|].
  unfold safe_name. auto.
Qed.

Lemma sanitize_filename_keeps_safe_names_witness :
  well_behaved (Demo.platform [])
  /\ sanitize_filename (Demo.platform []) true true (py "report_2024-v1.txt")
     = py "report_2024-v1.txt".
Proof.
  split; [apply demo_well_behaved|].
  apply (sanitize_filename_keeps_safe_names (Demo.platform []) true true
           (py "report_2024-v1.txt") (demo_well_behaved []));
    [discriminate | reflexivity | reflexivity | reflexivity | reflexivity].
Defined.

(** X4.  On such a platform sanitising is idempotent: a sanitised name
    sanitises to itself. *)
Theorem sanitize_filename_idempotent (P : Platform)
  (aggressive ascii_only : bool) (filename : str) :
  well_behaved P ->
  sanitize_filename P aggressive ascii_only
    (sanitize_filename P aggressive ascii_only filename)
  = sanitize_filename P aggressive ascii_only filename.
Proof.
  intros HP. apply sanitize_filename_safe; [exact HP|].
  apply sanitize_filename_is_safe.
Qed.

Lemma sanitize_filename_idempotent_witness :
  well_behaved (Demo.platform [])
  /\ sanitize_filename (Demo.platform []) true true
       (sanitize_filename (Demo.platform []) true true
          [0xe9; 116; 0xe9; 32; 47; 95; 95; 50; 48; 50; 52; 63; 46; 99; 115;
           118; 32]%N)
     = sanitize_filename (Demo.platform []) true true
         [0xe9; 116; 0xe9; 32; 47; 95; 95; 50; 48; 50; 52; 63; 46; 99; 115;
          118; 32]%N.
Proof.
  split; [apply demo_well_behaved|].
  apply (sanitize_filename_idempotent (Demo.platform []) true true _
           (demo_well_behaved [])).
Defined.

(** ** The registry: what [add_argument], [add_config_file] and
    [set_env_prefix] build *)

Lemma dict_set_set (V : Type) (k : str) (v1 v2 : V) (d : list (str * V)) :
  dict_set k v2 (dict_set k v1 d) = dict_set k v2 d.
Proof.
  induction d as [|[k' v'] d IH]; simpl.
  - now rewrite str_eqb_refl.
  - destruct (str_eqb k k') eqn:E; simpl.
    + now rewrite str_eqb_refl.
    + now rewrite E, IH.
Qed.

Lemma dict_set_In (V : Type) (k : str) (v : V) (d : list (str * V))
  (x : str * V) :
  In x (dict_set k v d) -> x = (k, v) \/ In x d.
Proof.
  induction d as [|[k' v'] d IH]; simpl.
  - intros [<- | []]. now left.
  - destruct (str_eqb k k'); simpl.
    + intros [<- | H]; auto.
    + intros [<- | H]; auto. destruct (IH H); auto.
Qed.

Lemma dict_set_keys (V : Type) (k : str) (v : V) (d : list (str * V)) :
  map fst (dict_set k v d)
  = if dict_mem k d then map fst d else map fst d ++ [k].
Proof.
  unfold dict_mem. induction d as [|[k' v'] d IH]; simpl; [reflexivity|].
  destruct (str_eqb k k') eqn:E; simpl.
  - apply str_eqb_eq in E. now subst.
  - rewrite IH. now destruct (dict_get k d).
Qed.

Lemma dict_set_nodup (V : Type) (k : str) (v : V) (d : list (str * V)) :
  NoDup (map fst d) -> NoDup (map fst (dict_set k v d)).
Proof.
  intros H. rewrite dict_set_keys. unfold dict_mem.
  destruct (dict_get k d) eqn:E; [exact H|].
  apply dict_get_None_notin in E.
  apply NoDup_rev in H. rewrite <- (rev_involutive (map fst d ++ [k])).
  apply NoDup_rev. rewrite rev_app_distr. simpl. constructor; [|exact H].
  now rewrite <- in_rev.
Qed.

Lemma canonical_name_marked (name : str) :
  startswith (py "--") (canonical_name name) = true.
Proof.
  unfold canonical_name. destruct (startswith (py "--") name) eqn:E.
  - exact E.
  - apply startswith_iff. now exists name.
Qed.

Lemma canonical_name_idempotent (name : str) :
  canonical_name (canonical_name name) = canonical_name name.
Proof.
  unfold canonical_name at 1. now rewrite canonical_name_marked.
Qed.

(** [add_argument] in terms of the name it stores under. *)
Lemma add_argument_canonical (P : Platform) (p : ArgumentParser)
  (name : str) (kw : kwargs) :
  add_argument P p (canonical_name name) kw = add_argument P p name kw.
Proof.
  unfold add_argument. fold (canonical_name (canonical_name name)).
  fold (canonical_name name). now rewrite canonical_name_idempotent.
Qed.

(** X5.  Registering a name again replaces the earlier definition as a
    whole: the registry is the one the second call alone would have built,
    nothing of the first definition is kept.  The marker is immaterial: a
    name and the same name with two leading hyphens are one entry. *)
Theorem add_argument_replaces (P : Platform) (p : ArgumentParser)
  (name : str) (kw1 kw2 : kwargs) :
  add_argument P (add_argument P p name kw1) name kw2
  = add_argument P p name kw2
  /\ add_argument P (add_argument P p name kw1) (canonical_name name) kw2
     = add_argument P p name kw2
  /\ add_argument P (add_argument P p (canonical_name name) kw1) name kw2
     = add_argument P p name kw2.
Proof.
  assert (forall q k, add_argument P (add_argument P q name k) name kw2
                      = add_argument P q name kw2) as Hsame.
  { intros q k. unfold add_argument. fold (canonical_name name).
    cbn [args_definitions env_prefix program_name config_files
         unicode_safe].
    now rewrite dict_set_set. }
  split; [apply Hsame|]. split.
  - rewrite add_argument_canonical. apply Hsame.
  - rewrite (add_argument_canonical P p name kw1). apply Hsame.
Qed.

(** A call that configures a parser. *)
Inductive call :=
| AddArgument (name : str) (kw : kwargs)
| AddConfigFile (path : str)
| SetEnvPrefix (prefix : str).

Definition run_call (P : Platform) (p : ArgumentParser) (c : call)
  : ArgumentParser :=
  match c with
  | AddArgument name kw => add_argument P p name kw
  | AddConfigFile path => add_config_file p path
  | SetEnvPrefix prefix => set_env_prefix p prefix
  end.

(** The parser after the calls, in order. *)
Definition configure (P : Platform) (p : ArgumentParser) (calls : list call)
  : ArgumentParser :=
  fold_left (run_call P) calls p.

(** A definition with every smart field filled in. *)
Definition populated (def : str * kwargs) : Prop :=
  startswith (py "--") (fst def) = true
  /\ (exists t, kw_type (snd def) = Some t
                /\ (kw_default (snd def) = None -> t = TBool))
  /\ (exists r, kw_required (snd def) = Some r)
  /\ (exists h, kw_help (snd def) = Some h)
  /\ (exists e, kw_env_var (snd def) = Some e).

Lemma add_argument_populated (P : Platform) (p : ArgumentParser)
  (name : str) (kw : kwargs) :
  NoDup (map fst (args_definitions p)) ->
  Forall populated (args_definitions p) ->
  NoDup (map fst (args_definitions (add_argument P p name kw)))
  /\ Forall populated (args_definitions (add_argument P p name kw)).
Proof.
  intros Hnd Hpop. unfold add_argument. fold (canonical_name name).
  cbn [args_definitions]. split; [now apply dict_set_nodup|].
  rewrite Forall_forall in *. intros def Hdef.
  apply dict_set_In in Hdef. destruct Hdef as [-> | Hdef]; [|now apply Hpop].
  unfold populated. cbn [fst snd kw_type kw_default kw_required kw_help
                         kw_env_var].
  split; [apply canonical_name_marked|].
  split; [|repeat split; eexists; reflexivity].
  eexists. split; [reflexivity|].
  destruct (kw_default kw); [discriminate|].
  destruct (match kw_type kw with
            | Some t => t
            | None => _infer_type (canonical_name name) (get_default kw)
            end); try discriminate. reflexivity.
Qed.

Lemma configure_populated (P : Platform) (calls : list call) :
  forall p,
    NoDup (map fst (args_definitions p))
    /\ Forall populated (args_definitions p) ->
    NoDup (map fst (args_definitions (configure P p calls)))
    /\ Forall populated (args_definitions (configure P p calls)).
Proof.
  unfold configure.
  induction calls as [|c calls IH]; intros p Hp; [exact Hp|].
  simpl. apply IH. destruct c as [name kw|path|prefix]; cbn [run_call].
  - now apply add_argument_populated.
  - exact Hp.
  - exact Hp.
Qed.

(** X6.  Whatever calls configure a fresh parser (each keyword argument
    left out or given a proper value), its registry holds every name once,
    every name carries the two-hyphen marker, and every definition has its
    type, required flag, help text and environment variable filled in; a
    default is missing only for a [bool]. *)
Theorem configured_registry_populated (P : Platform) (prog : str)
  (safe : bool) (calls : list call) :
  let p := configure P (new_parser prog safe) calls in
  NoDup (map fst (args_definitions p))
  /\ Forall populated (args_definitions p).
Proof.
  cbv zeta. apply configure_populated.
  cbn [new_parser args_definitions map]. split; constructor.
Qed.

Lemma add_argument_keys (P : Platform) (p : ArgumentParser) (name : str)
  (kw : kwargs) :
  map fst (args_definitions (add_argument P p name kw))
  = if dict_mem (canonical_name name) (args_definitions p)
    then map fst (args_definitions p)
    else map fst (args_definitions p) ++ [canonical_name name].
Proof.
  unfold add_argument. fold (canonical_name name). cbn [args_definitions].
  apply dict_set_keys.
Qed.

Lemma configure_names (P : Platform) (p : ArgumentParser)
  (calls : list call) (k : str) :
  In k (map fst (args_definitions (configure P p calls)))
  <-> In k (map fst (args_definitions p))
      \/ exists name kw,
           In (AddArgument name kw) calls /\ k = canonical_name name.
Proof.
  unfold configure. revert p.
  induction calls as [|c calls IH]; intros p; simpl.
  - split; [now left | intros [H | [name [kw [[] _]]]]; exact H].
  - rewrite IH. clear IH.
    assert (In k (map fst (args_definitions (run_call P p c)))
            <-> In k (map fst (args_definitions p))
                \/ exists name kw,
                     c = AddArgument name kw /\ k = canonical_name name)
      as Hone.
    { destruct c as [name kw|path|prefix]; cbn [run_call].
      - rewrite add_argument_keys.
        destruct (dict_mem (canonical_name name) (args_definitions p)) eqn:E.
        + split; [now left|]. intros [H | [n [kw' [[= <- <-] ->]]]];
            [exact H|].
          apply ArgparseFacts.dict_mem_true in E. destruct E as [v Hv].
          apply dict_get_In in Hv.
          change (canonical_name name) with (fst (canonical_name name, v)).
          now apply in_map.
        + rewrite in_app_iff. simpl. split.
          * intros [H | [<- | []]]; [now left|]. right. eauto.
          * intros [H | [n [kw' [[= <- <-] ->]]]]; auto.
      - split; [now left | intros [H | [n [kw [Hc _]]]];
                            [exact H | discriminate]].
      - split; [now left | intros [H | [n [kw [Hc _]]]];
                            [exact H | discriminate]]. }
    rewrite Hone. split.
    + intros [[H | [name [kw [-> ->]]]] | [name [kw [H ->]]]].
      * now left.
      * right. exists name, kw. auto.
      * right. exists name, kw. auto.
    + intros [H | [name [kw [[-> | H] ->]]]].
      * left. now left.
      * left. right. eauto.
      * right. eauto.
Qed.

(** X7.  The names in the registry are the names that were there and the
    canonical names of the arguments added; adding a config file or
    setting the prefix registers nothing and removes nothing. *)
Theorem configured_registry_names (P : Platform) (p : ArgumentParser)
  (calls : list call) (k : str) :
  (In k (map fst (args_definitions (configure P p calls)))
   <-> In k (map fst (args_definitions p))
       \/ exists name kw,
            In (AddArgument name kw) calls /\ k = canonical_name name)
  /\ (forall paths prefixes,
         args_definitions
           (configure P p
              (map AddConfigFile paths ++ map SetEnvPrefix prefixes))
         = args_definitions p).
Proof.
  split; [apply configure_names|].
  intros paths prefixes. unfold configure. rewrite fold_left_app.
  assert (forall q, args_definitions
                      (fold_left (run_call P) (map SetEnvPrefix prefixes) q)
                    = args_definitions q) as Hprefix.
  { induction prefixes as [|x l IH]; intros q; [reflexivity|].
    simpl. now rewrite IH. }
  rewrite Hprefix. revert p.
  induction paths as [|x l IH]; intros p; [reflexivity|].
  simpl. now rewrite IH.
Qed.

(** A call that leaves the definition stored under [k] alone. *)
Definition keeps (k : str) (c : call) : Prop :=
  match c with
  | AddArgument name _ => canonical_name name <> k
  | _ => True
  end.

Lemma configure_keeps (P : Platform) (k : str) (calls : list call) :
  Forall (keeps k) calls ->
  forall p,
    dict_get k (args_definitions (configure P p calls))
    = dict_get k (args_definitions p).
Proof.
  unfold configure. induction 1 as [|c calls Hc _ IH]; intros p; simpl;
    [reflexivity|].
  rewrite IH. destruct c as [name kw|path|prefix]; simpl; try reflexivity.
  unfold add_argument. fold (canonical_name name). cbn [args_definitions].
  apply dict_get_set_other. cbn [keeps] in Hc. intros Hk. now apply Hc.
Qed.

Lemma add_argument_env_var (P : Platform) (p : ArgumentParser) (name : str)
  (kw : kwargs) :
  kw_env_var kw = None ->
  exists stored,
    dict_get (canonical_name name)
      (args_definitions (add_argument P p name kw)) = Some stored
    /\ kw_env_var stored
       = Some (env_prefix p ++ py "_"
               ++ replace_char hyphen underscore
                    (upper (skipn 2 (canonical_name name)))).
Proof.
  intros Hnone. unfold add_argument. fold (canonical_name name).
  cbn [args_definitions].
  eexists. split; [apply dict_get_set_same|].
  cbn [kw_env_var]. now rewrite Hnone.
Qed.

(** X8.  The environment variable of an argument with an ASCII name is
    fixed when the argument is added, from the prefix then in force: the
    prefix, an underscore, and the name with its letters in upper case and
    its hyphens turned into underscores.  No later call changes it, unless
    the argument itself is added again; in particular a later
    [set_env_prefix] does not. *)
Theorem env_var_fixed_at_registration (P : Platform) (p : ArgumentParser)
  (name : str) (kw : kwargs) (later : list call) :
  forallb is_ascii name = true ->
  kw_env_var kw = None ->
  Forall (keeps (canonical_name name)) later ->
  exists stored,
    dict_get (canonical_name name)
      (args_definitions (configure P (add_argument P p name kw) later))
    = Some stored
    /\ kw_env_var stored
       = Some (env_prefix p ++ py "_"
               ++ replace_char hyphen underscore
                    (upper (skipn 2 (canonical_name name)))).
Proof.
  intros _ Hnone Hlater.
  rewrite (configure_keeps P (canonical_name name) later Hlater).
  now apply add_argument_env_var.
Qed.

Lemma env_var_fixed_at_registration_witness :
  forallb is_ascii (py "max-count") = true
  /\ exists stored,
    dict_get (canonical_name (py "max-count"))
      (args_definitions
         (configure (Demo.platform [])
            (add_argument (Demo.platform []) (new_parser (py "my-tool") true)
               (py "max-count") no_kwargs)
            [SetEnvPrefix (py "OTHER");
             AddArgument (py "verbose") no_kwargs]))
    = Some stored
    /\ kw_env_var stored = Some (py "MY_TOOL_MAX_COUNT").
Proof.
  split; [reflexivity|].
  destruct (env_var_fixed_at_registration (Demo.platform [])
              (new_parser (py "my-tool") true) (py "max-count") no_kwargs
              [SetEnvPrefix (py "OTHER");
               AddArgument (py "verbose") no_kwargs] eq_refl eq_refl)
    as [stored [H1 H2]].
  - repeat constructor. discriminate.
  - exists stored. split; [exact H1 | exact H2].
Defined.

Lemma replace_char_app (a b : N) (s t : str) :
  replace_char a b (s ++ t) = replace_char a b s ++ replace_char a b t.
Proof. unfold replace_char. apply map_app. Qed.

Lemma replace_char_gone (a b : N) (s : str) :
  a <> b -> forallb (fun c => negb (N.eqb c a)) (replace_char a b s) = true.
Proof.
  intros Hab. unfold replace_char. induction s as [|c s IH]; [reflexivity|].
  cbn [map forallb]. rewrite IH, andb_true_r.
  destruct (N.eqb c a) eqn:E.
  - apply negb_true_iff, N.eqb_neq. congruence.
  - now rewrite E.
Qed.

Lemma configure_env_prefix (P : Platform) (calls : list call) :
  (forall prefix, ~ In (SetEnvPrefix prefix) calls) ->
  forall p, env_prefix (configure P p calls) = env_prefix p.
Proof.
  unfold configure. induction calls as [|c calls IH]; intros Hno p;
    [reflexivity|].
  simpl. rewrite IH.
  - destruct c as [name kw|path|prefix]; try reflexivity.
    exfalso. apply (Hno prefix). now left.
  - intros prefix Hin. apply (Hno prefix). now right.
Qed.

(** X9.  For an ASCII program name and an ASCII flag name, with the
    prefix the constructor derives from the program name, the variable of
    an argument added without [env_var] is the program name, a hyphen and
    the bare flag name, with the letters in upper case and every hyphen
    turned into an underscore; it holds no hyphen. *)
Theorem default_env_var_name (P : Platform) (prog : str) (safe : bool)
  (calls : list call) (name : str) (kw : kwargs) :
  forallb is_ascii prog = true ->
  forallb is_ascii name = true ->
  kw_env_var kw = None ->
  (forall prefix, ~ In (SetEnvPrefix prefix) calls) ->
  exists stored e,
    dict_get (canonical_name name)
      (args_definitions
         (add_argument P (configure P (new_parser prog safe) calls) name kw))
    = Some stored
    /\ kw_env_var stored = Some e
    /\ e = replace_char hyphen underscore
             (upper (prog ++ py "-" ++ skipn 2 (canonical_name name)))
    /\ forallb (fun c => negb (N.eqb c hyphen)) e = true.
Proof.
  intros _ _ Hnone Hno.
  destruct (add_argument_env_var P
              (configure P (new_parser prog safe) calls) name kw Hnone)
    as [stored [H1 H2]].
  exists stored. eexists. split; [exact H1|]. split; [exact H2|].
  rewrite (configure_env_prefix P calls Hno). cbn [env_prefix new_parser].
  assert (replace_char hyphen underscore (upper prog) ++ py "_"
          ++ replace_char hyphen underscore
               (upper (skipn 2 (canonical_name name)))
          = replace_char hyphen underscore
              (upper (prog ++ py "-" ++ skipn 2 (canonical_name name))))
    as ->.
  { unfold upper. rewrite !map_app, !replace_char_app. reflexivity. }
  split; [reflexivity|]. apply replace_char_gone. discriminate.
Qed.

Lemma default_env_var_name_witness :
  forallb is_ascii (py "my-tool") = true
  /\ forallb is_ascii (py "max-count") = true
  /\ exists stored e,
    dict_get (canonical_name (py "max-count"))
      (args_definitions
         (add_argument (Demo.platform [])
            (configure (Demo.platform []) (new_parser (py "my-tool") true)
               [AddConfigFile (py "tool.json")])
            (py "max-count") no_kwargs))
    = Some stored
    /\ kw_env_var stored = Some e
    /\ e = py "MY_TOOL_MAX_COUNT"
    /\ forallb (fun c => negb (N.eqb c hyphen)) e = true.
Proof.
  split; [reflexivity|]. split; [reflexivity|].
  apply (default_env_var_name (Demo.platform []) (py "my-tool") true
           [AddConfigFile (py "tool.json")] (py "max-count") no_kwargs
           eq_refl eq_refl eq_refl).
  intros prefix [H | []]. discriminate.
Defined.

(** ** The default tiers: config files and the environment *)






(** What the environment gives one definition: nothing when it has no
    variable name or an empty one, when the variable is not set, or when
    its value does not convert. *)
Definition env_entry (P : Platform) (environ : list (str * str))
  (arg_config : kwargs) : option value :=
  match kw_env_var arg_config with
  | Some (c :: env_var) =>
      match dict_get (c :: env_var) environ with
      | Some val =>
          env_convert P
            (match kw_type arg_config with Some t => t | None => TStr end) val
      | None => None
      end
  | _ => None
  end.

(** The body of the loop of [_load_env_defaults]. *)
Definition env_step (P : Platform) (environ : list (str * str))
  (defaults : list (str * value)) (def : str * kwargs)
  : list (str * value) :=
  match env_entry P environ (snd def) with
  | Some v => dict_set (fst def) v defaults
  | None => defaults
  end.

Lemma load_env_defaults_steps (P : Platform) (p : ArgumentParser)
  (environ : list (str * str)) :
  _load_env_defaults P p environ
  = fold_left (env_step P environ) (args_definitions p) [].
Proof.
  unfold _load_env_defaults. generalize (@nil (str * value)).
  induction (args_definitions p) as [|[name cfg] defs IH]; intros defaults;
    [reflexivity|].
  cbn [fold_left]. rewrite IH. f_equal.
  unfold env_step, env_entry. cbn [fst snd].
  destruct (kw_env_var cfg) as [[|c e]|]; try reflexivity.
  destruct (dict_get (c :: e) environ) as [val|]; reflexivity.
Qed.

Lemma load_env_fold (P : Platform) (environ : list (str * str)) (k : str)
  (defs : list (str * kwargs)) :
  forall defaults : list (str * value),
    NoDup (map fst defs) ->
    dict_get k (fold_left (env_step P environ) defs defaults)
    = match dict_get k defs with
      | Some cfg =>
          match env_entry P environ cfg with
          | Some v => Some v
          | None => dict_get k defaults
          end
      | None => dict_get k defaults
      end.
Proof.
  induction defs as [|[name cfg] defs IH]; intros defaults Hnd;
    [reflexivity|].
  inversion Hnd as [|? ? Hname Hnd']; subst.
  cbn [fold_left]. rewrite (IH _ Hnd'). clear IH.
  cbn [dict_get]. unfold env_step. cbn [fst snd].
  destruct (str_eqb k name) eqn:E.
  - apply str_eqb_eq in E. subst k.
    destruct (dict_get name defs) as [cfg'|] eqn:E'.
    { exfalso. apply Hname. apply dict_get_In in E'.
      change name with (fst (name, cfg')). now apply in_map. }
    destruct (env_entry P environ cfg) as [v|]; [|reflexivity].
    apply dict_get_set_same.
  - assert (dict_get k
              match env_entry P environ cfg with
              | Some v => dict_set name v defaults
              | None => defaults
              end = dict_get k defaults) as ->.
    { destruct (env_entry P environ cfg) as [v|]; [|reflexivity].
      apply dict_get_set_other. now apply str_eqb_neq. }
    reflexivity.
Qed.

(** X11.  The environment tier, definition by definition: a definition
    gets an environment default exactly when its variable name is not
    empty, the variable is set, and the value converts to the type of the
    definition; a value that does not convert is skipped without an error,
    and names that are not registered get nothing. *)
Theorem env_defaults_lookup (P : Platform) (p : ArgumentParser)
  (environ : list (str * str)) (name : str) :
  NoDup (map fst (args_definitions p)) ->
  dict_get name (_load_env_defaults P p environ)
  = match dict_get name (args_definitions p) with
    | Some cfg => env_entry P environ cfg
    | None => None
    end.
Proof.
  intros Hnd. rewrite load_env_defaults_steps.
  rewrite (load_env_fold P environ name (args_definitions p) [] Hnd).
  destruct (dict_get name (args_definitions p)) as [cfg|]; [|reflexivity].
  now destruct (env_entry P environ cfg).
Qed.

(** A parser with one Integer argument, [--count]. *)
Definition env_demo_parser : ArgumentParser :=
  add_argument (Demo.platform []) (new_parser (py "tool") true) (py "count")
    no_kwargs.

Lemma env_defaults_lookup_witness :
  NoDup (map fst (args_definitions env_demo_parser))
  /\ dict_get (py "--count")
       (_load_env_defaults (Demo.platform []) env_demo_parser
          [(py "TOOL_COUNT", py "seven")]) = None
  /\ dict_get (py "--count")
       (_load_env_defaults (Demo.platform []) env_demo_parser
          [(py "TOOL_COUNT", py " 7 ")]) = Some (VInt 7).
Proof.
  assert (NoDup (map fst (args_definitions env_demo_parser))) as Hnd.
  { vm_compute. repeat constructor. intros []. }
  split; [exact Hnd|]. split.
  - rewrite (env_defaults_lookup (Demo.platform []) env_demo_parser
               [(py "TOOL_COUNT", py "seven")] (py "--count") Hnd).
    reflexivity.
  - rewrite (env_defaults_lookup (Demo.platform []) env_demo_parser
               [(py "TOOL_COUNT", py " 7 ")] (py "--count") Hnd).
    reflexivity.
Defined.

(** ** Exits of [parse_args] *)

Module ArgparseExits.
Import Argparse.

Section Exits.
Variable P : Platform.





End Exits.
End ArgparseExits.

Section ExitFacts.
Variable P : Platform.
Variable p : ArgumentParser.
Variable environ : list (str * str).
Hypothesis Hok : registry_ok p.
Variable name : str.
Variable cfg : kwargs.
Hypothesis Hin : In (name, cfg) (args_definitions p).
Variable args : list str.
Variable occ : list (str * option str).
Hypothesis Htok :
  tokenize P (option_specs p) (normalized_args P p args) = TokOk occ.






End ExitFacts.













Lemma normalized_args_nil (P : Platform) (p : ArgumentParser)
  (args : list str) :
  match normalized_args P p args with [] => args = [] | _ => args <> [] end.
Proof.
  unfold normalized_args. destruct (unicode_safe p), args; simpl;
    try reflexivity; discriminate.
Qed.

(** X15.  Every exit of [parse_args] keeps the status of its cause (1 for
    a validation failure, the status of [argparse] otherwise), and what
    [parse_args] prints ends with the suggestions exactly when the command
    line was not empty: after the report of a validation failure as well
    as after an exit of [argparse], a help request included. *)
Theorem exit_prints_suggestions (P : Platform) (p : ArgumentParser)
  (environ : list (str * str)) (args : list str) (code : Z)
  (cause : exit_cause) (stdout : list str) :
  parse_args P p environ args = SystemExit code cause stdout ->
  exists report,
    stdout
    = report ++ match args with
                | [] => []
                | _ => _suggest_corrections p (normalized_args P p args)
                end
    /\ match cause with
       | ValidationErrors errors =>
           code = 1 /\ errors <> []
           /\ report = py "Argument validation errors:"
                       :: map (fun error => py "  - " ++ error) errors
       | ArgparseExit why =>
           report = []
           /\ Argparse.parse_args P (actions_of P p environ)
                (normalized_args P p args) = Argparse.Exit code why
       end.
Proof.
  unfold parse_args. cbv zeta. fold (normalized_args P p args).
  fold (actions_of P p environ).
  rewrite (actions_option_string P p environ).
  destruct (Argparse.add_arguments _ _); [discriminate|].
  pose proof (normalized_args_nil P p args) as Hnil.
  destruct (Argparse.parse_args P (actions_of P p environ)
              (normalized_args P p args)) as [ns0|code0 why|e0].
  - unfold _validate_args.
    destruct (validate_loop P (unicode_safe p) (args_definitions p) _)
      as [st|e1]; [|discriminate].
    destruct (v_errors st) as [|e1 errors] eqn:Eerr; [discriminate|].
    destruct (normalized_args P p args) as [|a rest].
    + subst args. intros [= <- <- <-].
      exists (py "Argument validation errors:"
              :: map (fun error => py "  - " ++ error) (e1 :: errors)).
      split; [now rewrite app_nil_r|].
      repeat split. discriminate.
    + destruct args as [|a0 rest0]; [now destruct Hnil|].
      intros [= <- <- <-].
      exists (py "Argument validation errors:"
              :: map (fun error => py "  - " ++ error) (e1 :: errors)).
      split; [reflexivity|].
      repeat split. discriminate.
  - destruct (normalized_args P p args) as [|a rest].
    + subst args. intros [= <- <- <-]. exists []. repeat split.
    + destruct args as [|a0 rest0]; [now destruct Hnil|].
      intros [= <- <- <-]. exists []. repeat split.
  - discriminate.
Qed.

Lemma exit_prints_suggestions_witness :
  parse_args (Demo.platform []) env_demo_parser [] [py "--help"]
  = SystemExit 0 (ArgparseExit None)
      (_suggest_corrections env_demo_parser [py "--help"])
  /\ exists report,
      _suggest_corrections env_demo_parser [py "--help"]
      = report ++ _suggest_corrections env_demo_parser
                    (normalized_args (Demo.platform []) env_demo_parser
                       [py "--help"])
      /\ report = []
      /\ Argparse.parse_args (Demo.platform [])
           (actions_of (Demo.platform []) env_demo_parser [])
           (normalized_args (Demo.platform []) env_demo_parser [py "--help"])
         = Argparse.Exit 0 None.
Proof.
  assert (parse_args (Demo.platform []) env_demo_parser [] [py "--help"]
          = SystemExit 0 (ArgparseExit None)
              (_suggest_corrections env_demo_parser [py "--help"])) as Hrun.
  { vm_compute. reflexivity. }
  split; [exact Hrun|].
  exact (exit_prints_suggestions (Demo.platform []) env_demo_parser []
           [py "--help"] 0 (ArgparseExit None)
           (_suggest_corrections env_demo_parser [py "--help"]) Hrun).
Defined.

(** ** Suggestions *)

Module SuggestMore.
Import Difflib.

Lemma insert_desc_perm (p : fraction * str) (l : list (fraction * str)) :
  Permutation (insert_desc p l) (p :: l).
Proof.
  induction l as [|q l IH]; simpl; [reflexivity|].
  destruct (scored_ltb p q); [|reflexivity].
  rewrite IH. apply perm_swap.
Qed.

Lemma sort_desc_perm (l : list (fraction * str)) :
  Permutation (sort_desc l) l.
Proof.
  induction l as [|p l IH]; simpl; [reflexivity|].
  rewrite insert_desc_perm. now constructor.
Qed.

Lemma nodup_firstn (A : Type) (n : nat) (l : list A) :
  NoDup l -> NoDup (firstn n l).
Proof.
  intros H. rewrite <- (firstn_skipn n l) in H.
  now apply NoDup_app_remove_r in H.
Qed.

(** Distinct possibilities give distinct matches. *)
Lemma get_close_matches_nodup (word : str) (possibilities : list str) :
  NoDup possibilities -> NoDup (get_close_matches word possibilities).
Proof.
  intros Hnd. unfold get_close_matches, nlargest. cbv zeta.
  rewrite <- firstn_map. apply nodup_firstn.
  apply (Permutation_NoDup
           (l := filter (close_enough word) possibilities)).
  - symmetry. rewrite sort_desc_perm, map_map. cbn [snd].
    now rewrite map_id.
  - now apply NoDup_filter.
Qed.

End SuggestMore.

Lemma nodup_map_in (A B : Type) (f : A -> B) (l : list A) :
  (forall x y, In x l -> In y l -> f x = f y -> x = y) ->
  NoDup l -> NoDup (map f l).
Proof.
  induction l as [|a l IH]; intros Hinj Hnd; simpl; [constructor|].
  inversion Hnd as [|? ? Ha Hl]; subst. constructor.
  - intros Hin. apply in_map_iff in Hin. destruct Hin as [x [Hfx Hx]].
    apply Ha. rewrite <- (Hinj x a); simpl; auto.
  - apply IH; [|exact Hl]. intros x y Hx Hy. apply Hinj; simpl; auto.
Qed.

Lemma strip_marker_marked (c : str) :
  startswith (py "--") c = true -> py "--" ++ strip_marker c = c.
Proof.
  intros H. unfold strip_marker. rewrite H.
  apply startswith_iff in H. destruct H as [r ->]. reflexivity.
Qed.

Lemma find_similar_args_markers (arg : str) (candidates : list str) :
  _find_similar_args arg candidates
  = map (fun m => py "--" ++ m)
      (Difflib.get_close_matches (strip_marker arg)
         (map strip_marker candidates)).
Proof. reflexivity. Qed.

Lemma find_similar_args_among (arg : str) (candidates : list str) :
  Forall (fun c => startswith (py "--") c = true) candidates ->
  NoDup candidates ->
  Forall (fun s => In s candidates) (_find_similar_args arg candidates)
  /\ NoDup (_find_similar_args arg candidates).
Proof.
  intros Hmark Hnd. rewrite find_similar_args_markers.
  rewrite Forall_forall in Hmark.
  destruct (SuggestFacts.get_close_matches_spec (strip_marker arg)
              (map strip_marker candidates)) as [_ [Hin _]].
  rewrite Forall_forall in Hin. split.
  - apply Forall_forall. intros s Hs. apply in_map_iff in Hs.
    destruct Hs as [m [<- Hm]]. destruct (Hin m Hm) as [Hc _].
    apply in_map_iff in Hc. destruct Hc as [c [<- Hc]].
    now rewrite strip_marker_marked by auto.
  - apply nodup_map_in.
    + intros x y _ _ H. now apply app_inv_head in H.
    + apply SuggestMore.get_close_matches_nodup.
      apply nodup_map_in; [|exact Hnd].
      intros x y Hx Hy H.
      rewrite <- (strip_marker_marked x), <- (strip_marker_marked y)
        by auto.
      now rewrite H.
Qed.

(** X16.  What [_suggest_corrections] offers for an unknown flag are names
    of the registry: each suggestion is a registered flag, spelled as it
    is registered, and none is offered twice. *)
Theorem suggestions_are_registered (P : Platform) (prog : str) (safe : bool)
  (calls : list call) (arg : str) :
  let names :=
    map fst (args_definitions (configure P (new_parser prog safe) calls)) in
  Forall (fun s => In s names) (_find_similar_args arg names)
  /\ NoDup (_find_similar_args arg names).
Proof.
  intros names.
  destruct (configure_populated P calls (new_parser prog safe))
    as [Hnd Hpop].
  { cbn [new_parser args_definitions map]. split; constructor. }
  apply find_similar_args_among; [|exact Hnd].
  subst names. apply Forall_forall. intros c Hc.
  apply in_map_iff in Hc. destruct Hc as [def [<- Hdef]].
  rewrite Forall_forall in Hpop. apply (Hpop def Hdef).
Qed.

(** ** The validation pass *)

(** What a definition validated on its own leaves in its attribute when it
    yields no error: the value, normalised when it is a string and the
    parser is Unicode-safe, if it is [None] or has the type already;
    otherwise what the type makes of it. *)
Lemma value_alone_cases (P : Platform) (safe : bool) (name : str)
  (cfg : kwargs) (v0 : value) :
  let val := if safe then eliminate_unicode_maximum P v0 else v0 in
  errors_alone P safe (name, cfg) v0 = [] ->
  validated_alone P safe (name, cfg) v0 <> inr OverflowError ->
  (value_alone P safe (name, cfg) v0 = val
   /\ match kw_type cfg with
      | Some t => val = VNone \/ isinstance val t = true
      | None => True
      end)
  \/ exists t,
       kw_type cfg = Some t /\ isinstance val t = false
       /\ call_type P t val = inl (value_alone P safe (name, cfg) v0).
Proof.
  unfold value_alone, errors_alone, validated_alone, validate_step.
  cbn [fst snd v_ns v_errors v_calls]. rewrite getattr_singleton. cbv zeta.
  destruct safe; destruct v0; cbn [eliminate_unicode_maximum];
    (destruct (kw_type cfg) as [t|];
     [ match goal with
       | |- context [isinstance ?v t] =>
           destruct (isinstance v t) eqn:Ei;
           [ | destruct (call_type P t v) as [c|[]] eqn:Ec ]
       | _ => idtac
       end
     | ]);
    destruct (kw_validator cfg) as [check|];
    try (destruct (check _));
    cbn [v_ns v_errors app];
    rewrite ?getattr_setattr_same, ?getattr_singleton;
    intros Herr Hov;
    try discriminate;
    try (now destruct Hov);
    try (left; split; [reflexivity | auto; fail]);
    try (right; exists t; auto; fail).
Qed.

Lemma flat_map_nil (A B : Type) (f : A -> list B) (l : list A) (x : A) :
  flat_map f l = [] -> In x l -> f x = [].
Proof.
  induction l as [|a l IH]; simpl; [contradiction|].
  intros H [<- | Hx]; apply app_eq_nil in H; destruct H; auto.
Qed.

(** A validation that returns, definition by definition. *)
Lemma validate_args_returned (P : Platform) (p : ArgumentParser)
  (args ns : namespace) :
  NoDup (map attr_of (args_definitions p)) ->
  _validate_args P p args = Returned ns ->
  forall d, In d (args_definitions p) ->
    errors_alone P (unicode_safe p) d (getattr args (attr_of d)) = []
    /\ validated_alone P (unicode_safe p) d (getattr args (attr_of d))
       <> inr OverflowError
    /\ getattr ns (attr_of d)
       = value_alone P (unicode_safe p) d (getattr args (attr_of d)).
Proof.
  intros Hnd. unfold _validate_args.
  pose proof (validate_loop_frame P (unicode_safe p) (args_definitions p)
                {| v_ns := args; v_errors := []; v_calls := [] |} Hnd) as Hl.
  destruct (validate_loop P (unicode_safe p) (args_definitions p) _)
    as [st|e]; [|discriminate].
  destruct (v_errors st) eqn:Eerr; [|discriminate].
  intros [= <-] d Hd. destruct Hl as [Herr [_ [Hv _]]].
  cbn [v_ns v_errors app] in *.
  destruct (Hv d Hd) as [Hov Hval].
  split; [|split; assumption].
  symmetry in Herr. apply (flat_map_nil _ _ _ _ d Herr Hd).
Qed.

Lemma call_type_str_not_str (P : Platform) (t : pytype) (s r : str) :
  isinstance (VStr s) t = false -> call_type P t (VStr s) <> inl (VStr r).
Proof.
  destruct t; cbn [call_type isinstance type_of pytype_eqb];
    try discriminate.
  - destruct (int_of_str P s); discriminate.
  - destruct (float_of_str P s); discriminate.
  - destruct s; discriminate.
Qed.

(** X17.  With a Unicode-safe parser on a platform whose collaborators
    behave, a string that goes into the validation pass never comes out
    raw: after a validation that returns, an attribute that held a string
    and still holds one holds the normalised text, which is ASCII with
    single spaces and no space at either end. *)
Theorem validated_strings_are_normalised (P : Platform)
  (p : ArgumentParser) (args ns : namespace) (d : str * kwargs)
  (s0 s : str) :
  well_behaved P ->
  unicode_safe p = true ->
  NoDup (map attr_of (args_definitions p)) ->
  _validate_args P p args = Returned ns ->
  In d (args_definitions p) ->
  getattr args (attr_of d) = VStr s0 ->
  getattr ns (attr_of d) = VStr s ->
  s = eliminate_unicode_maximum_str P s0
  /\ forallb is_ascii s = true
  /\ normalize_ws s = s.
Proof.
  intros HP Hsafe Hnd Hret Hd Hin Hout.
  destruct (validate_args_returned P p args ns Hnd Hret d Hd)
    as [Herr [Hov Hval]].
  rewrite Hsafe, Hin in *. destruct d as [name cfg].
  assert (s = eliminate_unicode_maximum_str P s0) as ->.
  { destruct (value_alone_cases P true name cfg (VStr s0) Herr Hov)
      as [[Hsame _] | [t [_ [Hinst Hconv]]]].
    - rewrite Hsame in Hval. cbn [eliminate_unicode_maximum] in Hval.
      congruence.
    - cbn [eliminate_unicode_maximum] in Hinst, Hconv.
      rewrite <- Hval, Hout in Hconv.
      now destruct (call_type_str_not_str P t _ s Hinst). }
  split; [reflexivity|].
  exact (@eliminate_unicode_clean P HP true s0).
Qed.

(** A parser with a free-text [--title]. *)
Definition title_parser : ArgumentParser :=
  add_argument (Demo.platform []) (new_parser (py "tool") true) (py "title")
    no_kwargs.

Lemma validated_strings_are_normalised_witness :
  well_behaved (Demo.platform [])
  /\ _validate_args (Demo.platform []) title_parser
       [(py "title", VStr [0xe9; 116; 0xe9; 32; 32; 0x1f600; 50; 10]%N)]
     = Returned [(py "title", VStr (py "ete 2"))]
  /\ py "ete 2"
     = eliminate_unicode_maximum_str (Demo.platform [])
         [0xe9; 116; 0xe9; 32; 32; 0x1f600; 50; 10]%N
  /\ forallb is_ascii (py "ete 2") = true
  /\ normalize_ws (py "ete 2") = py "ete 2".
Proof.
  split; [apply demo_well_behaved|]. split; [vm_compute; reflexivity|].
  apply (validated_strings_are_normalised (Demo.platform []) title_parser
           [(py "title", VStr [0xe9; 116; 0xe9; 32; 32; 0x1f600; 50; 10]%N)]
           [(py "title", VStr (py "ete 2"))]
           (py "--title",
            match dict_get (py "--title") (args_definitions title_parser) with
            | Some cfg => cfg
            | None => no_kwargs
            end)
           [0xe9; 116; 0xe9; 32; 32; 0x1f600; 50; 10]%N (py "ete 2")
           (demo_well_behaved []) eq_refl).
  - vm_compute. repeat constructor. intros [].
  - vm_compute. reflexivity.
  - vm_compute. left. reflexivity.
  - vm_compute. reflexivity.
  - vm_compute. reflexivity.
Defined.

Lemma validate_loop_others (P : Platform) (safe : bool) (b : str)
  (defs : list (str * kwargs)) :
  ~ In b (map attr_of defs) ->
  forall st st' : vstate,
    validate_loop P safe defs st = inl st' ->
    getattr (v_ns st') b = getattr (v_ns st) b.
Proof.
  induction defs as [|d defs IH]; intros Hb st st'; cbn [validate_loop].
  - now intros [= <-].
  - pose proof (validate_step_frame P safe st d) as Hstep. cbv zeta in Hstep.
    destruct (validate_step P safe st d) as [st1|e]; [|discriminate].
    destruct (validated_alone P safe d _) as [s1|e]; [|contradiction].
    destruct Hstep as [_ [_ [_ Hother]]].
    intros Hloop. rewrite (IH (fun H => Hb (or_intror H)) st1 st' Hloop).
    apply Hother. intros ->. apply Hb. now left.
Qed.

(** X18.  The validation pass touches the attributes of the registered
    definitions only: any other attribute of the namespace comes back as
    it went in. *)
Theorem validation_keeps_other_attributes (P : Platform)
  (p : ArgumentParser) (args ns : namespace) (b : str) :
  _validate_args P p args = Returned ns ->
  ~ In b (map attr_of (args_definitions p)) ->
  getattr ns b = getattr args b.
Proof.
  unfold _validate_args. intros Hret Hb.
  destruct (validate_loop P (unicode_safe p) (args_definitions p) _)
    as [st|e] eqn:El; [|discriminate].
  destruct (v_errors st); [|discriminate].
  injection Hret as <-.
  exact (validate_loop_others P (unicode_safe p) b (args_definitions p) Hb
           _ st El).
Qed.

Lemma validation_keeps_other_attributes_witness :
  _validate_args (Demo.platform []) title_parser
    [(py "title", VStr (py " a ")); (py "subcommand", VStr (py " b "))]
  = Returned [(py "title", VStr (py "a")); (py "subcommand", VStr (py " b "))]
  /\ getattr
       [(py "title", VStr (py "a")); (py "subcommand", VStr (py " b "))]
       (py "subcommand")
     = getattr
         [(py "title", VStr (py " a ")); (py "subcommand", VStr (py " b "))]
         (py "subcommand").
Proof.
  assert (_validate_args (Demo.platform []) title_parser
            [(py "title", VStr (py " a "));
             (py "subcommand", VStr (py " b "))]
          = Returned [(py "title", VStr (py "a"));
                      (py "subcommand", VStr (py " b "))]) as Hrun.
  { vm_compute. reflexivity. }
  split; [exact Hrun|].
  apply (validation_keeps_other_attributes (Demo.platform []) title_parser
           _ _ (py "subcommand") Hrun).
  vm_compute. intros [H | []]. discriminate.
Defined.





(** ** [quick_parse] *)




(** ** Generated help text *)




Lemma smart_default_falsy (t : pytype) : truthy (_get_smart_default t) = false.
Proof. now destruct t. Qed.



(** ** What [parse_args] does not depend on *)

(** X22.  With a Unicode-safe parser on a platform whose collaborators
    behave, normalising the command line beforehand changes nothing:
    [parse_args] on the normalised arguments ends exactly as on the raw
    ones, output included. *)
Theorem parse_args_normalises_command_line (P : Platform)
  (p : ArgumentParser) (environ : list (str * str)) (args : list str) :
  well_behaved P ->
  unicode_safe p = true ->
  parse_args P p environ (map (eliminate_unicode_maximum_str P) args)
  = parse_args P p environ args.
Proof.
  intros HP Hsafe. unfold parse_args. cbv zeta. rewrite Hsafe.
  assert (map (eliminate_unicode_maximum_str P)
            (map (eliminate_unicode_maximum_str P) args)
          = map (eliminate_unicode_maximum_str P) args) as ->.
  { rewrite map_map. apply map_ext. intros s.
    apply (@eliminate_unicode_fixes_clean P HP true).
    exact (@eliminate_unicode_clean P HP true s). }
  reflexivity.
Qed.

Lemma parse_args_normalises_command_line_witness :
  well_behaved (Demo.platform [])
  /\ parse_args (Demo.platform []) title_parser []
       [py "--title"; [0xe9; 116; 0xe9; 32; 32; 50]%N]
     = Returned [(py "title", VStr (py "ete 2"))]
  /\ parse_args (Demo.platform []) title_parser []
       (map (eliminate_unicode_maximum_str (Demo.platform []))
          [py "--title"; [0xe9; 116; 0xe9; 32; 32; 50]%N])
     = parse_args (Demo.platform []) title_parser []
         [py "--title"; [0xe9; 116; 0xe9; 32; 32; 50]%N].
Proof.
  split; [apply demo_well_behaved|]. split; [vm_compute; reflexivity|].
  apply (parse_args_normalises_command_line (Demo.platform []) title_parser
           [] [py "--title"; [0xe9; 116; 0xe9; 32; 32; 50]%N]
           (demo_well_behaved []) eq_refl).
Defined.

(** A definition with its [config_key] replaced. *)
Definition set_config_key (config_key : option str) (cfg : kwargs) : kwargs :=
  {| kw_type := kw_type cfg; kw_default := kw_default cfg;
     kw_required := kw_required cfg; kw_help := kw_help cfg;
     kw_env_var := kw_env_var cfg; kw_config_key := config_key;
     kw_validator := kw_validator cfg |}.

(** The parser with the [config_key] of every definition replaced by what
    [keys] gives for its name. *)
Definition rekey (keys : str -> option str) (p : ArgumentParser)
  : ArgumentParser :=
  {| program_name := program_name p;
     args_definitions :=
       map (fun def => (fst def, set_config_key (keys (fst def)) (snd def)))
         (args_definitions p);
     config_files := config_files p;
     env_prefix := env_prefix p;
     unicode_safe := unicode_safe p |}.

Section Rekey.
Variable P : Platform.
Variable keys : str -> option str.

Let rekeyed (def : str * kwargs) : str * kwargs :=
  (fst def, set_config_key (keys (fst def)) (snd def)).

Lemma env_defaults_rekey (environ : list (str * str))
  (defs : list (str * kwargs)) :
  forall defaults,
    fold_left (env_step P environ) (map rekeyed defs) defaults
    = fold_left (env_step P environ) defs defaults.
Proof.
  induction defs as [|[name cfg] defs IH]; intros defaults; [reflexivity|].
  simpl. apply IH.
Qed.

Lemma validate_loop_rekey (safe : bool) (defs : list (str * kwargs)) :
  forall st,
    validate_loop P safe (map rekeyed defs) st = validate_loop P safe defs st.
Proof.
  induction defs as [|[name cfg] defs IH]; intros st; [reflexivity|].
  cbn [map validate_loop].
  change (validate_step P safe st (rekeyed (name, cfg)))
    with (validate_step P safe st (name, cfg)).
  destruct (validate_step P safe st (name, cfg)); [apply IH | reflexivity].
Qed.

Lemma suggest_corrections_rekey (p : ArgumentParser) (args : list str) :
  _suggest_corrections (rekey keys p) args = _suggest_corrections p args.
Proof.
  unfold _suggest_corrections, rekey. cbn [args_definitions].
  rewrite map_map. reflexivity.
Qed.

Lemma parse_args_rekey (p : ArgumentParser) (environ : list (str * str))
  (args : list str) :
  parse_args P (rekey keys p) environ args = parse_args P p environ args.
Proof.
  unfold parse_args. cbv zeta.
  rewrite !suggest_corrections_rekey.
  assert (_load_env_defaults P (rekey keys p) environ
          = _load_env_defaults P p environ) as ->.
  { rewrite !load_env_defaults_steps. apply env_defaults_rekey. }
  assert (forall ns, _validate_args P (rekey keys p) ns
                     = _validate_args P p ns) as Hval.
  { intros ns. unfold _validate_args, rekey.
    cbn [args_definitions unicode_safe].
    fold rekeyed. now rewrite validate_loop_rekey. }
  assert (map (make_action (_load_config_defaults P (rekey keys p))
                 (_load_env_defaults P p environ))
              (args_definitions (rekey keys p))
          = map (make_action (_load_config_defaults P p)
                   (_load_env_defaults P p environ))
                (args_definitions p)) as ->.
  { unfold rekey. cbn [args_definitions]. rewrite map_map.
    apply map_ext. now intros [name cfg]. }
  change (unicode_safe (rekey keys p)) with (unicode_safe p).
  destruct (Argparse.parse_args P _ _); try reflexivity.
  now rewrite Hval.
Qed.

End Rekey.

(** X23.  The [config_key] of a definition is stored and never read: with
    any other [config_key] on any definition, [parse_args] ends exactly
    the same way.  A config file reaches a definition through the flag
    name only. *)
Theorem config_key_is_never_read (P : Platform) (p : ArgumentParser)
  (environ : list (str * str)) (args : list str)
  (keys : str -> option str) :
  parse_args P (rekey keys p) environ args = parse_args P p environ args
  /\ forall name kw,
       exists stored,
         dict_get (canonical_name name)
           (args_definitions (add_argument P p name kw)) = Some stored
         /\ kw_config_key stored = kw_config_key kw.
Proof.
  split; [apply parse_args_rekey|].
  intros name kw. unfold add_argument. fold (canonical_name name).
  cbn [args_definitions]. eexists.
  split; [apply dict_get_set_same | reflexivity].
Qed.

(** X24.  Only config keys that carry the two-hyphen marker can reach a
    definition of a configured parser: two sets of config defaults that
    agree on the keys starting with two hyphens give [argparse] the same
    actions, so a key written without the marker is ignored. *)
Theorem config_keys_carry_the_marker (P : Platform) (prog : str)
  (safe : bool) (calls : list call)
  (config_defaults other_defaults env_defaults : list (str * value)) :
  (forall k, startswith (py "--") k = true ->
             dict_get k config_defaults = dict_get k other_defaults) ->
  map (make_action config_defaults env_defaults)
      (args_definitions (configure P (new_parser prog safe) calls))
  = map (make_action other_defaults env_defaults)
        (args_definitions (configure P (new_parser prog safe) calls)).
Proof.
  intros Hagree.
  destruct (configure_populated P calls (new_parser prog safe))
    as [_ Hpop].
  { cbn [new_parser args_definitions map]. split; constructor. }
  apply map_ext_in. intros [name cfg] Hdef.
  rewrite Forall_forall in Hpop. destruct (Hpop _ Hdef) as [Hmark _].
  unfold make_action, merged_default.
  now rewrite (Hagree name Hmark).
Qed.

Lemma config_keys_carry_the_marker_witness :
  map (make_action [(py "count", VInt 5)] [])
      (args_definitions
         (configure (Demo.platform []) (new_parser (py "tool") true)
            [AddArgument (py "count") no_kwargs]))
  = map (make_action [] [])
        (args_definitions
           (configure (Demo.platform []) (new_parser (py "tool") true)
              [AddArgument (py "count") no_kwargs])).
Proof.
  apply (config_keys_carry_the_marker (Demo.platform []) (py "tool") true
           [AddArgument (py "count") no_kwargs] [(py "count", VInt 5)] [] []).
  intros k Hk. simpl.
  destruct (str_eqb k (py "count")) eqn:E; [|reflexivity].
  apply str_eqb_eq in E. subst k. discriminate.
Defined.

(** ** More on the text normaliser *)

Lemma lstrip_strip (s : str) : lstrip (strip s) = strip s.
Proof.
  unfold strip. destruct (lstrip s) as [|c r] eqn:E; [reflexivity|].
  pose proof (@lstrip_head _ _ _ E) as Hc.
  rewrite (@rstrip_cons_nonspace c r Hc). simpl. now rewrite Hc.
Qed.

(** X25.  What [eliminate_unicode] returns has its whitespace normalised
    whatever the collaborators do: no whitespace at either end, and single
    spaces only.  With [aggressive=True], or with [unidecode] installed
    and [ascii_only=True], it is pure ASCII as well, provided [unidecode]
    returns ASCII. *)
Theorem eliminate_unicode_output (P : Platform)
  (aggressive ascii_only : bool) (text : str) :
  let out := eliminate_unicode P aggressive ascii_only text in
  normalize_ws out = out
  /\ lstrip out = out /\ rstrip out = out
  /\ tidy false out = true
  /\ ((forall f, unidecode_unidecode P = Some f ->
                 forall s, forallb is_ascii (f s) = true) ->
      aggressive = true
      \/ (ascii_only = true /\ unidecode_unidecode P <> None) ->
      forallb is_ascii out = true).
Proof.
  intros out. subst out. unfold eliminate_unicode. fold normalize_ws.
  set (t := match unidecode_unidecode P, ascii_only with
            | Some unidecode, true => unidecode _
            | _, _ => _
            end).
  split; [apply normalize_ws_idempotent|].
  split; [apply lstrip_strip|]. split; [apply rstrip_idempotent|]. split.
  - unfold normalize_ws, strip.
    destruct (lstrip_suffix (collapse_ws false t)) as [l Hl].
    destruct (rstrip_prefix (lstrip (collapse_ws false t))) as [r Hr].
    pose proof (collapse_ws_tidy false t) as H.
    rewrite Hl in H. apply tidy_suffix in H.
    rewrite Hr in H. eapply tidy_prefix; exact H.
  - intros Huni Hcase. unfold normalize_ws.
    apply forallb_strip, forallb_collapse_ws; [reflexivity|].
    subst t. destruct (unidecode_unidecode P) as [f|] eqn:E.
    + destruct ascii_only.
      * now apply (Huni f).
      * destruct Hcase as [-> | [Hc _]]; [|discriminate].
        apply forallb_filter_self.
    + destruct Hcase as [-> | [_ Hc]]; [|now destruct Hc].
      destruct ascii_only; apply forallb_filter_self.
Qed.

(** The characters of the normalised name that survive sanitising as
    themselves: letters, digits, dots and hyphens. *)
Definition kept_class (c : N) : bool :=
  filename_class c && negb (N.eqb c underscore).

Lemma lstrip_underscores_nil (s : str) :
  lstrip_underscores s = [] <-> forallb (fun c => N.eqb c underscore) s = true.
Proof.
  induction s as [|c s IH]; cbn [lstrip_underscores forallb];
    [tauto|].
  destruct (N.eqb c underscore); cbn [andb]; [exact IH|].
  split; discriminate.
Qed.

Lemma strip_underscores_nil (s : str) :
  strip_underscores s = [] <-> forallb (fun c => N.eqb c underscore) s = true.
Proof.
  unfold strip_underscores. split.
  - intros H. apply (f_equal (@rev N)) in H. rewrite rev_involutive in H.
    simpl in H. apply lstrip_underscores_nil in H.
    assert (forallb (fun c => N.eqb c underscore) (lstrip_underscores s)
            = true) as H'.
    { rewrite forallb_forall in *. intros c Hc. apply H.
      now apply in_rev in Hc. }
    pose proof (lstrip_underscores_head s) as Hh.
    destruct (lstrip_underscores s) as [|c r] eqn:E.
    + now apply lstrip_underscores_nil.
    + cbn [forallb startswith] in H', Hh.
      rewrite andb_true_r, N.eqb_sym in Hh. now rewrite Hh in H'.
  - intros H. apply lstrip_underscores_nil in H. now rewrite H.
Qed.

Lemma collapse_underscores_all (b : bool) (s : str) :
  forallb (fun c => N.eqb c underscore) (collapse_underscores b s)
  = forallb (fun c => N.eqb c underscore) s.
Proof.
  revert b; induction s as [|c s IH]; intros b; [reflexivity|].
  cbn [collapse_underscores forallb].
  destruct (N.eqb c underscore) eqn:E.
  - destruct b; [apply IH|]. cbn [forallb andb].
    change (N.eqb underscore underscore) with true. apply IH.
  - cbn [forallb]. now rewrite E.
Qed.

(** X26.  The fallback name is used exactly when nothing would be left:
    [sanitize_filename] returns the literal file when the normalised name
    holds no letter, digit, dot or hyphen (the empty name included), and
    otherwise returns a name that still holds every such character of the
    normalised name. *)
Theorem sanitize_filename_fallback (P : Platform)
  (aggressive ascii_only : bool) (filename : str) :
  let clean_name := eliminate_unicode P aggressive ascii_only filename in
  (existsb kept_class clean_name = false ->
   sanitize_filename P aggressive ascii_only filename = py "file")
  /\ (forall c, In c clean_name -> kept_class c = true ->
                In c (sanitize_filename P aggressive ascii_only filename)).
Proof.
  intros clean_name.
  set (mapped := map (fun c => if filename_class c then c else underscore)
                   (filter (fun c => negb (reserved_class c)) clean_name)).
  assert (sanitize_filename P aggressive ascii_only filename
          = match strip_underscores (collapse_underscores false mapped) with
            | [] => py "file"
            | name => name
            end) as Hbody.
  { unfold sanitize_filename. fold clean_name. fold mapped.
    destruct (strip_underscores _); reflexivity. }
  rewrite Hbody. split.
  - intros Hnone.
    assert (strip_underscores (collapse_underscores false mapped) = [])
      as ->; [|reflexivity].
    apply strip_underscores_nil. rewrite collapse_underscores_all.
    apply forallb_forall. intros c Hc. subst mapped.
    apply in_map_iff in Hc. destruct Hc as [x [<- Hx]].
    apply filter_In in Hx. destruct Hx as [Hx _].
    assert (kept_class x = false) as Hk.
    { destruct (kept_class x) eqn:E; [|reflexivity].
      assert (existsb kept_class clean_name = true) as Hex
        by (apply existsb_exists; now exists x).
      congruence. }
    unfold kept_class in Hk. destruct (filename_class x); [|reflexivity].
    cbn [andb] in Hk. now apply negb_false_iff in Hk.
  - intros c Hc Hkept. unfold kept_class in Hkept.
    apply andb_true_iff in Hkept. destruct Hkept as [Hclass Hnot].
    apply negb_true_iff in Hnot.
    assert (In c mapped) as Hm.
    { subst mapped. apply in_map_iff. exists c. rewrite Hclass.
      split; [reflexivity|]. apply filter_In. split; [exact Hc|].
      now rewrite filename_class_not_reserved. }
    assert (forall b s, In c s -> In c (collapse_underscores b s)) as Hcol.
    { intros b s; revert b; induction s as [|x s IH]; intros b;
        [contradiction|].
      cbn [collapse_underscores]. intros [-> | Hin].
      - rewrite Hnot. now left.
      - destruct (N.eqb x underscore); [destruct b|]; simpl; auto. }
    assert (forall s, In c s -> In c (lstrip_underscores s)) as Hl.
    { induction s as [|x s IH]; [contradiction|].
      cbn [lstrip_underscores]. intros [-> | Hin].
      - rewrite Hnot. now left.
      - destruct (N.eqb x underscore); [auto | now right]. }
    assert (In c (strip_underscores (collapse_underscores false mapped)))
      as Hin.
    { unfold strip_underscores. rewrite <- in_rev. apply Hl.
      rewrite <- in_rev. apply Hl. now apply Hcol. }
    destruct (strip_underscores (collapse_underscores false mapped));
      [contradiction | exact Hin].
Qed.

(** ** Exceptions that escape [parse_args] *)

Module ArgparseEscapes.
Import Argparse.




End ArgparseEscapes.








(** ** Boolean flags *)

Lemma last_occurrence_In (name : str) (occ : list (str * option str)) :
  In name (map fst occ) -> exists arg, last_occurrence name occ = Some arg.
Proof.
  intros Hin. destruct (last_occurrence name occ) as [arg|] eqn:E.
  - now exists arg.
  - now destruct (last_occurrence_none name occ E).
Qed.

(** X28.  A [bool] definition is a switch that can only be turned on: after
    a parse that returns, its attribute is [True] when the flag occurs on
    the command line, and also when the flag is left out and the merged
    default is [True]; no command line turns a default of [True] off. *)
Theorem bool_flag_only_switches_on (P : Platform) (p : ArgumentParser)
  (environ : list (str * str)) (args : list str)
  (occ : list (str * option str)) (name : str) (cfg : kwargs)
  (ns : namespace) :
  registry_ok p ->
  In (name, cfg) (args_definitions p) ->
  kw_type cfg = Some TBool ->
  tokenize P (option_specs p) (normalized_args P p args) = TokOk occ ->
  parse_args P p environ args = Returned ns ->
  In name (map fst occ)
  \/ merged_default (_load_config_defaults P p)
       (_load_env_defaults P p environ) name cfg = VBool true ->
  getattr ns (attr_name_of name) = VBool true.
Proof.
  intros Hok Hin Hty Htok Hret Hcase.
  destruct (parse_args_value P p environ args occ name cfg ns Hok Hin Htok
              Hret) as [v [Hns Hv]].
  assert (v = VBool true) as ->.
  { destruct (last_occurrence name occ) as [arg|] eqn:El.
    - unfold command_line_value in Hv. rewrite Hty in Hv.
      destruct arg; [discriminate | congruence].
    - destruct Hcase as [Hocc | Hdef].
      + destruct (last_occurrence_In name occ Hocc) as [arg Harg].
        congruence.
      + unfold merged_default in Hdef. subst v.
        assert ((match dict_get name (_load_env_defaults P p environ) with
                 | Some e => e
                 | None =>
                     match dict_get name (_load_config_defaults P p) with
                     | Some c => c
                     | None => get_default cfg
                     end
                 end) = VBool true) as ->.
        { destruct (dict_get name (_load_env_defaults P p environ));
            [exact Hdef|].
          destruct (dict_get name (_load_config_defaults P p)); exact Hdef. }
        reflexivity. }
  rewrite Hns.
  destruct (value_alone_instance P (unicode_safe p) name cfg (VBool true))
    as [Hval _].
  { rewrite Hty. now left. }
  rewrite Hval. now destruct (unicode_safe p).
Qed.

(** A [--verbose] whose declared default is [True]. *)
Definition verbose_on_parser : ArgumentParser :=
  add_argument (Demo.platform []) (new_parser (py "tool") true) (py "verbose")
    {| kw_type := None; kw_default := Some (VBool true);
       kw_required := None; kw_help := None; kw_env_var := None;
       kw_config_key := None; kw_validator := None |}.

Lemma bool_flag_only_switches_on_witness :
  parse_args (Demo.platform []) verbose_on_parser [] []
  = Returned [(py "verbose", VBool true)]
  /\ getattr [(py "verbose", VBool true)] (attr_name_of (py "--verbose"))
     = VBool true.
Proof.
  assert (parse_args (Demo.platform []) verbose_on_parser [] []
          = Returned [(py "verbose", VBool true)]) as Hrun.
  { vm_compute. reflexivity. }
  split; [exact Hrun|].
  apply (bool_flag_only_switches_on (Demo.platform []) verbose_on_parser []
           [] [] (py "--verbose")
           (match dict_get (py "--verbose")
                    (args_definitions verbose_on_parser) with
            | Some cfg => cfg
            | None => no_kwargs
            end) [(py "verbose", VBool true)]).
  - split.
    + repeat constructor; vm_compute; reflexivity.
    + vm_compute. repeat constructor. intros [].
  - vm_compute. left. reflexivity.
  - reflexivity.
  - reflexivity.
  - exact Hrun.
  - right. vm_compute. reflexivity.
Defined.

(** ** Smart defaults *)

(** X30.  A definition added without a default whose type, given or
    inferred from its name, is not [bool] gets the smart default of the
    type (0, 0.0, the empty string, the empty list, the empty dict); when
    no config file, no environment variable and no occurrence on the
    command line supplies a value, a parse that returns holds that very
    value, provided the normaliser leaves the empty string empty. *)
Theorem smart_default_resolution (P : Platform) (p : ArgumentParser)
  (name : str) (kw : kwargs) (environ : list (str * str))
  (args : list str) (occ : list (str * option str)) (ns : namespace)
  (t : pytype) :
  eliminate_unicode_maximum_str P [] = [] ->
  kw_default kw = None ->
  match kw_type kw with
  | Some t0 => t0
  | None => _infer_type (canonical_name name) VNone
  end = t ->
  t <> TBool ->
  let p' := add_argument P p name kw in
  let flag := canonical_name name in
  registry_ok p' ->
  tokenize P (option_specs p') (normalized_args P p' args) = TokOk occ ->
  ~ In flag (map fst occ) ->
  dict_get flag (_load_config_defaults P p') = None ->
  dict_get flag (_load_env_defaults P p' environ) = None ->
  parse_args P p' environ args = Returned ns ->
  (exists cfg,
      dict_get flag (args_definitions p') = Some cfg
      /\ kw_type cfg = Some t
      /\ kw_default cfg = Some (_get_smart_default t))
  /\ getattr ns (attr_name_of flag) = _get_smart_default t.
Proof.
  intros Hempty Hnodef Ht Hbool p' flag Hok Htok Hocc Hconfig Henv Hret.
  destruct (add_argument_stored P p name kw)
    as [cfg [Hget [Hty [Hdef _]]]].
  fold p' flag in Hget.
  assert (kw_type cfg = Some t) as Hty'.
  { rewrite Hty. unfold get_default. rewrite Hnodef. now rewrite Ht. }
  assert (kw_default cfg = Some (_get_smart_default t)) as Hd.
  { rewrite Hdef, Hnodef, Hty'. destruct t; try reflexivity.
    now destruct Hbool. }
  split; [exists cfg; auto|].
  pose proof (@dict_get_In _ _ _ _ Hget) as Hin.
  destruct (parse_args_value P p' environ args occ flag cfg ns Hok Hin
              Htok Hret) as [v [Hns Hv]].
  destruct (last_occurrence flag occ) as [arg|] eqn:El.
  { exfalso. destruct (last_occurrence_some flag occ arg El)
      as [before [after [-> _]]].
    apply Hocc. rewrite map_app. apply in_or_app. right. now left. }
  rewrite Henv, Hconfig in Hv. unfold get_default in Hv. rewrite Hd in Hv.
  assert (v = _get_smart_default t) as ->.
  { rewrite Hv. unfold stored_default. rewrite Hty'.
    destruct t; reflexivity. }
  rewrite Hns.
  destruct (value_alone_instance P (unicode_safe p') flag cfg
              (_get_smart_default t)) as [-> _].
  - rewrite Hty'. destruct t; now left.
  - destruct (unicode_safe p'); [|reflexivity].
    destruct t; try reflexivity.
    cbn [_get_smart_default eliminate_unicode_maximum]. now rewrite Hempty.
Qed.

(** A [timeout] added without any keyword: Integer by its name, and
    nothing supplies a value. *)
Definition bare_timeout_parser : ArgumentParser :=
  add_argument (Demo.platform []) (new_parser (py "tool") true)
    (py "timeout") no_kwargs.

Lemma smart_default_resolution_witness :
  parse_args (Demo.platform []) bare_timeout_parser [] []
  = Returned [(py "timeout", VInt 0)]
  /\ (exists cfg,
         dict_get (py "--timeout") (args_definitions bare_timeout_parser)
         = Some cfg
         /\ kw_type cfg = Some TInt
         /\ kw_default cfg = Some (VInt 0))
  /\ getattr [(py "timeout", VInt 0)] (py "timeout") = VInt 0.
Proof.
  assert (parse_args (Demo.platform []) bare_timeout_parser [] []
          = Returned [(py "timeout", VInt 0)]) as Hrun.
  { vm_compute. reflexivity. }
  split; [exact Hrun|].
  apply (smart_default_resolution (Demo.platform [])
           (new_parser (py "tool") true) (py "timeout") no_kwargs [] [] []
           [(py "timeout", VInt 0)] TInt).
  - vm_compute. reflexivity.
  - reflexivity.
  - reflexivity.
  - discriminate.
  - split.
    + repeat constructor; vm_compute; reflexivity.
    + vm_compute. repeat constructor. intros [].
  - reflexivity.
  - intros [].
  - reflexivity.
  - reflexivity.
  - exact Hrun.
Defined.
